(** * bmark importer/exporter: the HTML bookmark pipeline

    A shallow embedding of [cmd/bmark-importer/bmark-importer.go]:
    the markup parser ([parseBlocks] and its [extract*] helpers), the
    storage layer ([insertBookmark], [insertTags], [initializeDatabase]),
    the worker pool of [importBookmarks] and the writer [exportBookmarks].

    Go strings are byte sequences: they are modelled as [list ascii].
    The Go standard library functions the program calls ([strings.TrimSpace],
    [strings.Split], [strings.ReplaceAll], [html.EscapeString],
    [strconv.ParseInt], the [regexp] matcher) are modelled by their
    documented behaviour on bytes. *)

From Stdlib Require Import List Ascii String ZArith Lia Bool Arith Permutation.
Import ListNotations.

Local Open Scope Z_scope.
Local Open Scope list_scope.

(* ================================================================== *)
(** * Byte strings *)
(* ================================================================== *)

Definition str : Type := list ascii.

(** A Go string literal. *)
Definition b (s : string) : str := list_ascii_of_string s.

Definition dquote : ascii := "034"%char.
Definition newline : ascii := "010"%char.

Definition code (c : ascii) : nat := nat_of_ascii c.

Fixpoint str_eqb (x y : str) : bool :=
  match x, y with
  | [], [] => true
  | c :: x', d :: y' => Ascii.eqb c d && str_eqb x' y'
  | _, _ => false
  end.

(** [strings.HasPrefix]. *)
Fixpoint HasPrefix (s prefix : str) {struct prefix} : bool :=
  match prefix, s with
  | [], _ => true
  | p :: prefix', c :: s' => Ascii.eqb p c && HasPrefix s' prefix'
  | _ :: _, [] => false
  end.

(** [strings.Index]: the offset of the first instance of [sep]. *)
Fixpoint Index (s sep : str) : option nat :=
  if HasPrefix s sep then Some O
  else match s with
       | [] => None
       | _ :: s' => option_map S (Index s' sep)
       end.

(** ** [strings.TrimSpace]

    White space is what [unicode.IsSpace] accepts.  On the UTF-8 bytes of
    the string these are the six ASCII bytes below and the encodings of
    U+0085, U+00A0 (two bytes) and of U+1680, U+2000..U+200A, U+2028,
    U+2029, U+202F, U+205F, U+3000 (three bytes). *)

Definition oneOf (codes : list nat) (c : ascii) : bool :=
  existsb (Nat.eqb (code c)) codes.

Definition asciiSpace (c : ascii) : bool := oneOf [9; 10; 11; 12; 13; 32]%nat c.

Definition space2 (c1 c2 : ascii) : bool :=
  Nat.eqb (code c1) 194 && oneOf [133; 160]%nat c2.

Definition space3 (c1 c2 c3 : ascii) : bool :=
  (Nat.eqb (code c1) 225 && Nat.eqb (code c2) 154 && Nat.eqb (code c3) 128)
  || (Nat.eqb (code c1) 226 && Nat.eqb (code c2) 128 &&
      ((Nat.leb 128 (code c3) && Nat.leb (code c3) 138)
       || oneOf [168; 169; 175]%nat c3))
  || (Nat.eqb (code c1) 226 && Nat.eqb (code c2) 129 && Nat.eqb (code c3) 159)
  || (Nat.eqb (code c1) 227 && Nat.eqb (code c2) 128 && Nat.eqb (code c3) 128).

(** Drop the white-space runes at the head of [s]; [sp2] and [sp3] say
    which two- and three-byte groups are white space when read from the
    head. *)
Fixpoint trimHead (sp2 : ascii -> ascii -> bool)
                  (sp3 : ascii -> ascii -> ascii -> bool) (s : str) : str :=
  match s with
  | [] => []
  | c1 :: s1 =>
    if asciiSpace c1 then trimHead sp2 sp3 s1
    else match s1 with
         | [] => s
         | c2 :: s2 =>
           if sp2 c1 c2 then trimHead sp2 sp3 s2
           else match s2 with
                | [] => s
                | c3 :: s3 =>
                  if sp3 c1 c2 c3 then trimHead sp2 sp3 s3 else s
                end
         end
  end.

Definition TrimLeftSpace (s : str) : str := trimHead space2 space3 s.

(** The trailing runes are read backwards, so the groups are mirrored. *)
Definition TrimRightSpace (s : str) : str :=
  rev (trimHead (fun c2 c1 => space2 c1 c2)
                (fun c3 c2 c1 => space3 c1 c2 c3) (rev s)).

Definition TrimSpace (s : str) : str := TrimRightSpace (TrimLeftSpace s).

(** ** [strings.Split] and [strings.ReplaceAll] for a non-empty separator

    Both scan left to right over non-overlapping instances.  [skip] counts
    the bytes of an instance that are still to be stepped over. *)

Definition consHead (c : ascii) (l : list str) : list str :=
  match l with
  | [] => [[c]]
  | p :: ps => (c :: p) :: ps
  end.

Fixpoint splitFrom (sep s : str) (skip : nat) : list str :=
  match s with
  | [] => [[]]
  | c :: s' =>
    match skip with
    | S k => splitFrom sep s' k
    | O => if HasPrefix s sep
           then [] :: splitFrom sep s' (pred (List.length sep))
           else consHead c (splitFrom sep s' O)
    end
  end.

Definition Split (s sep : str) : list str := splitFrom sep s O.

Fixpoint replaceFrom (old new s : str) (skip : nat) : str :=
  match s with
  | [] => []
  | c :: s' =>
    match skip with
    | S k => replaceFrom old new s' k
    | O => if HasPrefix s old
           then new ++ replaceFrom old new s' (pred (List.length old))
           else c :: replaceFrom old new s' O
    end
  end.

Definition ReplaceAll (s old new : str) : str := replaceFrom old new s O.

(** ** [html.EscapeString] *)

Definition escapeByte (c : ascii) : str :=
  if Ascii.eqb c "&" then b "&amp;"
  else if Ascii.eqb c "'" then b "&#39;"
  else if Ascii.eqb c "<" then b "&lt;"
  else if Ascii.eqb c ">" then b "&gt;"
  else if Ascii.eqb c dquote then b "&#34;"
  else [c].

Definition EscapeString (s : str) : str := flat_map escapeByte s.

(** ** [strconv.ParseInt(s, 10, 64)] and the [%d] verb *)

Definition isDigit (c : ascii) : bool :=
  (Nat.leb 48 (code c) && Nat.leb (code c) 57)%nat.

Definition digitVal (c : ascii) : Z := Z.of_nat (code c) - 48.

Fixpoint parseDigits (acc : Z) (s : str) : option Z :=
  match s with
  | [] => Some acc
  | c :: s' => if isDigit c then parseDigits (10 * acc + digitVal c) s'
               else None
  end.

Definition maxInt64 : Z := 2 ^ 63 - 1.
Definition minInt64 : Z := - 2 ^ 63.

Definition parseUnsigned (s : str) : option Z :=
  match s with
  | [] => None
  | _ => parseDigits 0 s
  end.

(** [None] stands for a non-nil [err] (syntax or range). *)
Definition ParseInt (s : str) : option Z :=
  let signed :=
    match s with
    | c :: s' =>
      if Ascii.eqb c "+" then parseUnsigned s'
      else if Ascii.eqb c "-" then option_map Z.opp (parseUnsigned s')
      else parseUnsigned s
    | [] => None
    end in
  match signed with
  | Some v => if (minInt64 <=? v) && (v <=? maxInt64) then Some v else None
  | None => None
  end.

Definition digitChar (d : Z) : ascii := ascii_of_nat (Z.to_nat (48 + d)).

(** The decimal digits of [n >= 0], most significant first. *)
Fixpoint digitsFuel (fuel : nat) (n : Z) (acc : str) : str :=
  match fuel with
  | O => acc
  | S fuel' =>
    let acc' := digitChar (n mod 10) :: acc in
    if n / 10 =? 0 then acc' else digitsFuel fuel' (n / 10) acc'
  end.

(** A number below [2 ^ k] has at most [k] decimal digits. *)
Definition digitsOf (n : Z) : str :=
  digitsFuel (S (Z.to_nat (Z.log2 n))) n [].

Definition formatInt (n : Z) : str :=
  if n <? 0 then "-"%char :: digitsOf (- n) else digitsOf n.

(* ================================================================== *)
(** * Regular expressions *)
(* ================================================================== *)

(** The fragment of RE2 syntax the program uses: literals, literals under
    the [(?i)] flag, concatenation, a greedy [+] and a lazy [*?] over a
    byte class, and capture groups.  Every class of the program is decided
    by ASCII bytes, so matching on bytes agrees with matching on runes. *)
Inductive regex : Type :=
| Lit (c : ascii)
| Fold (c : ascii)
| Cat (r1 r2 : regex)
| Plus (cls : ascii -> bool)
| StarLazy (cls : ascii -> bool)
| Group (r : regex).

Infix ">>" := Cat (at level 61, right associativity).

Definition toLower (c : ascii) : ascii :=
  if (Nat.leb 65 (code c) && Nat.leb (code c) 90)%nat
  then ascii_of_nat (code c + 32) else c.

(** The captures so far, and what is left of the input. *)
Definition matched : Type := (str * list str)%type.
Definition cont : Type := str -> list str -> option matched.

(** [cls+] then [k], longest run first. *)
Fixpoint greedy (cls : ascii -> bool) (s : str) (caps : list str) (k : cont)
  : option matched :=
  match s with
  | c :: s' =>
    if cls c then
      match greedy cls s' caps k with
      | Some m => Some m
      | None => k s caps
      end
    else k s caps
  | [] => k s caps
  end.

(** [cls*?] then [k], shortest run first. *)
Fixpoint lazy (cls : ascii -> bool) (s : str) (caps : list str) (k : cont)
  : option matched :=
  match k s caps with
  | Some m => Some m
  | None =>
    match s with
    | c :: s' => if cls c then lazy cls s' caps k else None
    | [] => None
    end
  end.

(** Backtracking match of [r] at the head of [s], then [k]. *)
Fixpoint rmatch (r : regex) (s : str) (caps : list str) (k : cont)
  : option matched :=
  match r with
  | Lit c =>
    match s with
    | c' :: s' => if Ascii.eqb c c' then k s' caps else None
    | [] => None
    end
  | Fold c =>
    match s with
    | c' :: s' => if Ascii.eqb (toLower c) (toLower c') then k s' caps else None
    | [] => None
    end
  | Cat r1 r2 => rmatch r1 s caps (fun s' caps' => rmatch r2 s' caps' k)
  | Plus cls =>
    match s with
    | c :: s' => if cls c then greedy cls s' caps k else None
    | [] => None
    end
  | StarLazy cls => lazy cls s caps k
  | Group r1 =>
    rmatch r1 s caps
      (fun s' caps' =>
         k s' (caps' ++ [firstn (List.length s - List.length s') s]))
  end.

Definition matchHere (r : regex) (s : str) : option matched :=
  rmatch r s [] (fun s' caps => Some (s', caps)).

(** [Regexp.FindStringSubmatch]: the leftmost match, and at that offset
    the one a backtracking search finds first; [m[0]] is the whole match,
    [m[i]] the i-th group; [nil] when there is no match. *)
Fixpoint FindStringSubmatch (r : regex) (s : str) : list str :=
  match matchHere r s with
  | Some (s', caps) => firstn (List.length s - List.length s') s :: caps
  | None =>
    match s with
    | _ :: s' => FindStringSubmatch r s'
    | [] => []
    end
  end.

(** [m[i]], for an index the program knows to be in range. *)
Definition sub (m : list str) (i : nat) : str := nth i m [].

Fixpoint lits (s : str) (r : regex) : regex :=
  match s with
  | [] => r
  | c :: s' => Lit c >> lits s' r
  end.

(** [\s] is [[\t\n\f\r ]]; [\d] is [[0-9]]; [.] is any byte but newline. *)
Definition reSpace (c : ascii) : bool := oneOf [9; 10; 12; 13; 32]%nat c.

Definition notByte (x : ascii) (c : ascii) : bool := negb (Ascii.eqb x c).

Definition gt : ascii := ">"%char.
Definition lt : ascii := "<"%char.

(** [(?i)<A\s+([^>]+)>(.*?)</A>] *)
Definition reAnchor : regex :=
  Lit lt >> Fold "A" >> Plus reSpace >> Group (Plus (notByte gt)) >> Lit gt >>
  Group (StarLazy (notByte newline)) >>
  Lit lt >> Lit "/" >> Fold "A" >> Lit gt.

(** [NAME="(cls+)"] *)
Definition reAttr (name : string) (cls : ascii -> bool) : regex :=
  lits (b name) (Lit "=" >> Lit dquote >> Group (Plus cls) >> Lit dquote).

Definition reHref : regex := reAttr "HREF" (notByte dquote).
Definition reAddDate : regex := reAttr "ADD_DATE" isDigit.
Definition reLastMod : regex := reAttr "LAST_MODIFIED" isDigit.
Definition reTags : regex := reAttr "TAGS" (notByte dquote).

(** [(?i)<DD>([^<]+)] *)
Definition reDesc : regex :=
  Lit lt >> Fold "D" >> Fold "D" >> Lit gt >> Group (Plus (notByte lt)).

(* ================================================================== *)
(** * The markup parser *)
(* ================================================================== *)

Record Job : Type := mkJob {
  URI : str;
  Title : str;
  Note : str;
  CreatedAt : Z;
  UpdatedAt : Z;
  Tags : list str
}.

(** The wall clock: [reading n] is what the n-th call of [time.Now().Unix()]
    returns; [reads] counts the calls made so far. *)
Record clock : Type := mkClock {
  reads : nat;
  reading : nat -> Z
}.

Definition time_Now_Unix (clk : clock) : Z * clock :=
  (reading clk (reads clk), mkClock (S (reads clk)) (reading clk)).

Definition htmlUnescape (s : str) : str :=
  let replacements :=
    [ (b "&amp;", b "&");
      (b "&lt;", b "<");
      (b "&gt;", b ">");
      (b "&quot;", [dquote]);
      (b "&#39;", b "'") ] in
  fold_left (fun s r => ReplaceAll s (fst r) (snd r)) replacements s.

Definition isEmpty (s : str) : bool :=
  match s with [] => true | _ => false end.

Definition extractHref (re : regex) (attrStr : str) : str :=
  match FindStringSubmatch re attrStr with
  | [] => []
  | m => sub m 1
  end.

Definition extractTimestamp (re : regex) (attrStr : str) (defaultValue : Z) : Z :=
  match FindStringSubmatch re attrStr with
  | [] => defaultValue
  | m => match ParseInt (sub m 1) with
         | Some timestamp => timestamp
         | None => defaultValue
         end
  end.

(** The loop of [extractTags] over the pieces, appending to [cleanedTags]. *)
Fixpoint cleanTags (tags : list str) (cleanedTags : list str) : list str :=
  match tags with
  | [] => cleanedTags
  | tag :: rest =>
    let tag := TrimSpace tag in
    if negb (isEmpty tag) then cleanTags rest (cleanedTags ++ [tag])
    else cleanTags rest cleanedTags
  end.

Definition extractTags (re : regex) (attrStr : str) : list str :=
  match FindStringSubmatch re attrStr with
  | [] => []
  | m => if negb (isEmpty (sub m 1))
         then cleanTags (Split (sub m 1) (b ",")) []
         else []
  end.

Definition extractDescription (re : regex) (block : str) : str :=
  match FindStringSubmatch re block with
  | [] => []
  | m => htmlUnescape (TrimSpace (sub m 1))
  end.

(** One turn of the loop of [parseBlocks]: the job sent on the channel, or
    [None] where the loop says [continue]. *)
Definition parseBlock (now : Z) (block : str) : option Job :=
  let block := TrimSpace block in
  if isEmpty block then None
  else
    let anchorMatch := FindStringSubmatch reAnchor block in
    if (List.length anchorMatch <? 3)%nat then None
    else
      let attrStr := sub anchorMatch 1 in
      let title := htmlUnescape (TrimSpace (sub anchorMatch 2)) in
      let uri := extractHref reHref attrStr in
      if isEmpty uri then None
      else
        let createdAt := extractTimestamp reAddDate attrStr now in
        let updatedAt := extractTimestamp reLastMod attrStr createdAt in
        let tags := extractTags reTags attrStr in
        let note := extractDescription reDesc block in
        Some (mkJob uri title note createdAt updatedAt tags).

Fixpoint parseLoop (now : Z) (blocks : list str) : list Job :=
  match blocks with
  | [] => []
  | block :: rest =>
    match parseBlock now block with
    | Some job => job :: parseLoop now rest
    | None => parseLoop now rest
    end
  end.

(** [parseBlocks]: the jobs sent on the channel, in order, and the clock
    after the call. *)
Definition parseBlocks (blocks : list str) (clk : clock) : list Job * clock :=
  let (now, clk') := time_Now_Unix clk in
  (parseLoop now blocks, clk').

(* ================================================================== *)
(** * The store *)
(* ================================================================== *)

(** The three tables of [initializeDatabase].  [title] and [note] are
    nullable columns; the other columns are [NOT NULL] or are only ever
    written with integers. *)
Record bookmarkRow : Type := mkBookmark {
  bm_id : Z;
  bm_url : str;
  bm_title : option str;
  bm_note : option str;
  bm_created : Z;
  bm_updated : Z
}.

Record tagRow : Type := mkTag {
  tg_id : Z;
  tg_tag : str
}.

Record store : Type := mkStore {
  bookmarks : list bookmarkRow;
  tags : list tagRow;
  bookmark_tags : list (Z * Z)
}.

Definition emptyStore : store := mkStore [] [] [].

(** [CREATE TABLE IF NOT EXISTS] and [CREATE INDEX IF NOT EXISTS] on a
    database file: [None] is a file without the tables.  The statements
    can fail only in the driver, which [fault] stands for. *)
Definition initializeDatabase (fault : bool) (file : option store)
  : option (option store) :=
  if fault then None
  else match file with
       | None => Some (Some emptyStore)
       | Some s => Some (Some s)
       end.

(** What the [UNIQUE] and [PRIMARY KEY] clauses of the schema enforce. *)
Record constraints (s : store) : Prop := mkConstraints {
  bookmarks_pk : NoDup (map bm_id (bookmarks s));
  bookmarks_url_unique : NoDup (map bm_url (bookmarks s));
  tags_pk : NoDup (map tg_id (tags s));
  tags_tag_unique : NoDup (map tg_tag (tags s));
  bookmark_tags_pk : NoDup (bookmark_tags s)
}.

(** The rowid of a new row: one more than the largest in the table, 1 in
    an empty table. *)
Definition nextRowid (ids : list Z) : Z :=
  match ids with
  | [] => 1
  | id :: rest => fold_right Z.max id rest + 1
  end.

(** What happened to the transactions of a connection, oldest first. *)
Inductive txEvent : Type := TxBegin | TxCommit | TxRollback.

(** The one connection of the pool ([db.SetMaxOpenConns(1)]): the tables
    as the statements see them, the snapshot an open transaction rolls
    back to, SQLite's [last_insert_rowid], and the history of its
    transactions. *)
Record conn : Type := mkConn {
  live : store;
  journal : option store;
  lastRowid : Z;
  txlog : list txEvent
}.

Definition openConn (s : store) : conn := mkConn s None 0 [].

(** The calls of one job that return an [err]. *)
Inductive tagCall : Type :=
| SelectTag | ExecTag | LastInsertIdTag | ReselectTag | ExecLink.

Inductive site : Type :=
| BeginBookmark | ExecBookmark | RowsAffectedBookmark | LastInsertIdBookmark
| SelectBookmark | CommitBookmark
| BeginTags | TagCall (i : nat) (c : tagCall) | CommitTags.

Inductive error : Type :=
| ErrNoRows
| ErrTxDone
| ErrConnBusy
| ErrDriver (at_ : site)
| Errorf (format : string) (args : list str) (cause : error).

Inductive result (A : Type) : Type :=
| Ok (a : A)
| Err (e : error).
Arguments Ok {A} a.
Arguments Err {A} e.

(** Statements on the connection: a result and the connection after. *)
Definition DB (A : Type) : Type := conn -> result A * conn.

Definition ret {A} (a : A) : DB A := fun c => (Ok a, c).

Definition bind {A B} (m : DB A) (k : A -> DB B) : DB B :=
  fun c => match m c with
           | (Ok a, c') => k a c'
           | (Err e, c') => (Err e, c')
           end.

Notation "x <- m ;; k" := (bind m (fun x => k))
  (at level 100, m at next level, right associativity).

(** [if err != nil { return ..., fmt.Errorf(format, args..., err) }] *)
Definition orErrorf {A} (m : DB A) (format : string) (args : list str) : DB A :=
  fun c => match m c with
           | (Ok a, c') => (Ok a, c')
           | (Err e, c') => (Err (Errorf format args e), c')
           end.

(** [tx.Rollback()]: restores the snapshot; on a finished transaction it
    returns [sql.ErrTxDone] and changes nothing. *)
Definition Rollback (c : conn) : conn :=
  match journal c with
  | Some snapshot => mkConn snapshot None (lastRowid c) (txlog c ++ [TxRollback])
  | None => c
  end.

(** [defer tx.Rollback()] around the rest of the function body. *)
Definition deferRollback {A} (body : DB A) : DB A :=
  fun c => let (r, c') := body c in (r, Rollback c').

(** [db.Begin()]: takes the connection, which must be free. *)
Definition Begin (fault : site) (f : site -> bool) : DB unit :=
  fun c =>
    if f fault then (Err (ErrDriver fault), c)
    else match journal c with
         | Some _ => (Err ErrConnBusy, c)
         | None => (Ok tt, mkConn (live c) (Some (live c)) (lastRowid c)
                                  (txlog c ++ [TxBegin]))
         end.

(** [tx.Commit()]: the transaction is over whether the driver succeeds or
    not; when it fails the changes are rolled back. *)
Definition Commit (fault : site) (f : site -> bool) : DB unit :=
  fun c =>
    match journal c with
    | None => (Err ErrTxDone, c)
    | Some _ =>
      if f fault then (Err (ErrDriver fault), Rollback c)
      else (Ok tt, mkConn (live c) None (lastRowid c) (txlog c ++ [TxCommit]))
    end.

(** The [sql.Result] of an [Exec]. *)
Record sqlResult : Type := mkResult {
  resLastInsertId : Z;
  resRowsAffected : Z
}.

Definition RowsAffected (fault : site) (f : site -> bool) (res : sqlResult) : DB Z :=
  fun c => if f fault then (Err (ErrDriver fault), c)
           else (Ok (resRowsAffected res), c).

Definition LastInsertId (fault : site) (f : site -> bool) (res : sqlResult) : DB Z :=
  fun c => if f fault then (Err (ErrDriver fault), c)
           else (Ok (resLastInsertId res), c).

Definition setLive (c : conn) (s : store) (rowid : Z) : conn :=
  mkConn s (journal c) rowid (txlog c).

(** [INSERT OR IGNORE INTO bookmarks (url, title, note, created_at,
    updated_at) VALUES (?, ?, ?, ?, ?)] *)
Definition execInsertBookmark (fault : site) (f : site -> bool)
    (uri title note : str) (createdAt updatedAt : Z) : DB sqlResult :=
  fun c =>
    if f fault then (Err (ErrDriver fault), c)
    else
      let s := live c in
      if existsb (fun r => str_eqb (bm_url r) uri) (bookmarks s)
      then (Ok (mkResult (lastRowid c) 0), c)
      else
        let id := nextRowid (map bm_id (bookmarks s)) in
        let row := mkBookmark id uri (Some title) (Some note) createdAt updatedAt in
        (Ok (mkResult id 1),
         setLive c (mkStore (bookmarks s ++ [row]) (tags s) (bookmark_tags s)) id).

(** [SELECT id FROM bookmarks WHERE url = ?], scanned into an [int64]. *)
Definition selectBookmarkID (fault : site) (f : site -> bool) (uri : str) : DB Z :=
  fun c =>
    if f fault then (Err (ErrDriver fault), c)
    else match find (fun r => str_eqb (bm_url r) uri) (bookmarks (live c)) with
         | Some r => (Ok (bm_id r), c)
         | None => (Err ErrNoRows, c)
         end.

(** [SELECT id FROM tags WHERE tag = ?] *)
Definition selectTagID (fault : site) (f : site -> bool) (tag : str) : DB Z :=
  fun c =>
    if f fault then (Err (ErrDriver fault), c)
    else match find (fun r => str_eqb (tg_tag r) tag) (tags (live c)) with
         | Some r => (Ok (tg_id r), c)
         | None => (Err ErrNoRows, c)
         end.

(** [INSERT OR IGNORE INTO tags (tag) VALUES (?)] *)
Definition execInsertTag (fault : site) (f : site -> bool) (tag : str) : DB sqlResult :=
  fun c =>
    if f fault then (Err (ErrDriver fault), c)
    else
      let s := live c in
      if existsb (fun r => str_eqb (tg_tag r) tag) (tags s)
      then (Ok (mkResult (lastRowid c) 0), c)
      else
        let id := nextRowid (map tg_id (tags s)) in
        (Ok (mkResult id 1),
         setLive c (mkStore (bookmarks s) (tags s ++ [mkTag id tag]) (bookmark_tags s)) id).

Definition pair_eqb (x y : Z * Z) : bool :=
  (fst x =? fst y) && (snd x =? snd y).

(** [INSERT OR IGNORE INTO bookmark_tags (bookmark_id, tag_id) VALUES (?, ?)];
    foreign keys are not enforced on this connection.  The link rows have
    a hidden rowid, taken here as the row count plus one; the program
    never reads it. *)
Definition execInsertLink (fault : site) (f : site -> bool)
    (bookmarkID tagID : Z) : DB sqlResult :=
  fun c =>
    if f fault then (Err (ErrDriver fault), c)
    else
      let s := live c in
      if existsb (pair_eqb (bookmarkID, tagID)) (bookmark_tags s)
      then (Ok (mkResult (lastRowid c) 0), c)
      else
        let id := Z.of_nat (List.length (bookmark_tags s)) + 1 in
        (Ok (mkResult id 1),
         setLive c (mkStore (bookmarks s) (tags s)
                            (bookmark_tags s ++ [(bookmarkID, tagID)])) id).

(** ** [insertBookmark] and [insertTags] *)

Definition insertBookmark (f : site -> bool)
    (uri title note : str) (createdAt updatedAt : Z) : DB Z :=
  _ <- orErrorf (Begin BeginBookmark f) "failed to begin transaction" [] ;;
  deferRollback (
    res <- orErrorf (execInsertBookmark ExecBookmark f uri title note createdAt updatedAt)
             "failed to insert or ignore bookmark" [] ;;
    rowsAffected <- orErrorf (RowsAffected RowsAffectedBookmark f res)
             "failed to get rows affected" [] ;;
    bookmarkID <-
      (if rowsAffected >? 0
       then orErrorf (LastInsertId LastInsertIdBookmark f res)
              "failed to get last insert ID" []
       else orErrorf (selectBookmarkID SelectBookmark f uri)
              "failed to retrieve existing bookmark ID" []) ;;
    _ <- orErrorf (Commit CommitBookmark f) "failed to commit transaction" [] ;;
    ret bookmarkID).

(** The identity of [tag] in the body of the loop of [insertTags]; [i] is
    the position of the tag in the job. *)
Definition resolveTagID (f : site -> bool) (i : nat) (tag : str) : DB Z :=
  fun c =>
    match selectTagID (TagCall i SelectTag) f tag c with
    | (Ok tagID, c') => (Ok tagID, c')
    | (Err ErrNoRows, c') =>
      (res <- orErrorf (execInsertTag (TagCall i ExecTag) f tag)
                "failed to insert or ignore tag" [tag] ;;
       tagID <- orErrorf (LastInsertId (TagCall i LastInsertIdTag) f res)
                "failed to get last insert ID for tag" [tag] ;;
       if tagID =? 0
       then orErrorf (selectTagID (TagCall i ReselectTag) f tag)
              "failed to retrieve existing tag ID for" [tag]
       else ret tagID) c'
    | (Err e, c') => (Err (Errorf "failed to query tag ID for" [tag] e), c')
    end.

Fixpoint tagsLoop (f : site -> bool) (bookmarkID : Z) (i : nat) (tags : list str)
  : DB unit :=
  match tags with
  | [] => ret tt
  | tag :: rest =>
    if isEmpty tag then tagsLoop f bookmarkID (S i) rest
    else
      tagID <- resolveTagID f i tag ;;
      _ <- orErrorf (execInsertLink (TagCall i ExecLink) f bookmarkID tagID)
             "failed to link bookmark to tag" [formatInt bookmarkID; formatInt tagID] ;;
      tagsLoop f bookmarkID (S i) rest
  end.

Definition insertTags (f : site -> bool) (bookmarkID : Z) (tags : list str)
  : DB unit :=
  _ <- orErrorf (Begin BeginTags f) "failed to begin transaction for tags" [] ;;
  deferRollback (
    _ <- tagsLoop f bookmarkID 0 tags ;;
    orErrorf (Commit CommitTags f) "failed to commit tags transaction" []).

(* ================================================================== *)
(** * The worker pool *)
(* ================================================================== *)

(** What a worker sends on [results] for one job: [nil] or an error. *)
Definition outcome : Type := option error.

(** The body of the loop of [worker] for one job. *)
Definition workerJob (f : site -> bool) (job : Job) (c : conn) : outcome * conn :=
  match insertBookmark f (URI job) (Title job) (Note job)
                       (CreatedAt job) (UpdatedAt job) c with
  | (Err err, c1) =>
    (Some (Errorf "failed to insert bookmark" [URI job] err), c1)
  | (Ok bookmarkID, c1) =>
    match insertTags f bookmarkID (Tags job) c1 with
    | (Err err, c2) =>
      (Some (Errorf "failed to insert tags for bookmark" [URI job] err), c2)
    | (Ok _, c2) => (None, c2)
    end
  end.

(** A goroutine of [worker] between two uses of the connection.  Jobs are
    numbered in the order [parseBlocks] sent them. *)
Inductive wstate : Type :=
| Idle
| Received (n : nat) (job : Job)
| Inserted (n : nat) (job : Job) (bookmarkID : Z).

Record pool : Type := mkPool {
  pconn : conn;
  pjobs : list (nat * Job);
  pworkers : list wstate;
  presults : list (nat * outcome)
}.

Fixpoint setNth {A} (i : nat) (x : A) (l : list A) : list A :=
  match l, i with
  | [], _ => []
  | _ :: l', O => x :: l'
  | y :: l', S i' => y :: setNth i' x l'
  end.

(** One move of worker [w]: receive from [jobs], or run [insertBookmark],
    or run [insertTags].  A transaction holds the only connection from
    [Begin] to its end, so each of the two runs without interleaving.
    [faults n] tells which calls of job [n] the driver fails.  [None]: the
    worker cannot move (it has left its loop, or there is no such worker). *)
Definition poolStep (faults : nat -> site -> bool) (w : nat) (p : pool)
  : option pool :=
  match nth_error (pworkers p) w with
  | None => None
  | Some Idle =>
    match pjobs p with
    | [] => None
    | (n, job) :: rest =>
      Some (mkPool (pconn p) rest (setNth w (Received n job) (pworkers p))
                   (presults p))
    end
  | Some (Received n job) =>
    match insertBookmark (faults n) (URI job) (Title job) (Note job)
                         (CreatedAt job) (UpdatedAt job) (pconn p) with
    | (Err err, c) =>
      Some (mkPool c (pjobs p) (setNth w Idle (pworkers p))
              (presults p ++
               [(n, Some (Errorf "failed to insert bookmark" [URI job] err))]))
    | (Ok bookmarkID, c) =>
      Some (mkPool c (pjobs p) (setNth w (Inserted n job bookmarkID) (pworkers p))
                   (presults p))
    end
  | Some (Inserted n job bookmarkID) =>
    match insertTags (faults n) bookmarkID (Tags job) (pconn p) with
    | (Err err, c) =>
      Some (mkPool c (pjobs p) (setNth w Idle (pworkers p))
              (presults p ++
               [(n, Some (Errorf "failed to insert tags for bookmark" [URI job] err))]))
    | (Ok _, c) =>
      Some (mkPool c (pjobs p) (setNth w Idle (pworkers p))
                   (presults p ++ [(n, None)]))
    end
  end.

Definition canMove (p : pool) (w : nat) : bool :=
  match nth_error (pworkers p) w with
  | None => false
  | Some Idle => negb (match pjobs p with [] => true | _ => false end)
  | Some _ => true
  end.

Definition enabled (p : pool) : list nat :=
  filter (canMove p) (seq 0 (List.length (pworkers p))).

(** The scheduler: at tick [t] the worker that moves is the
    [sched t]-th of those that can. *)
Fixpoint runPool (faults : nat -> site -> bool) (sched : nat -> nat)
    (fuel t : nat) (p : pool) : pool :=
  match fuel with
  | O => p
  | S fuel' =>
    match enabled p with
    | [] => p
    | w0 :: ws =>
      let w := nth (sched t mod List.length (w0 :: ws))%nat (w0 :: ws) w0 in
      match poolStep faults w p with
      | Some p' => runPool faults sched fuel' (S t) p'
      | None => p
      end
    end
  end.

Fixpoint number {A} (i : nat) (l : list A) : list (nat * A) :=
  match l with
  | [] => []
  | x :: l' => (i, x) :: number (S i) l'
  end.

Definition workerCount : nat := 5.

(** What the environment decides during one run. *)
Record env : Type := mkEnv {
  envClock : clock;
  envFaults : nat -> site -> bool;
  envSched : nat -> nat
}.

Record importReport : Type := mkReport {
  successCount : nat;
  importResults : list (nat * outcome);
  importJobs : list Job;
  importConn : conn;
  importClock : clock
}.

Definition isNil (r : nat * outcome) : bool :=
  match snd r with None => true | Some _ => false end.

(** [importBookmarks] on the content of the file. *)
Definition importBookmarks (e : env) (content : str) (c : conn) : importReport :=
  let blocks := Split content (b "<DT>") in
  let (jobs, clk) := parseBlocks blocks (envClock e) in
  let p0 := mkPool c (number 0 jobs) (repeat Idle workerCount) [] in
  let p := runPool (envFaults e) (envSched e) (3 * List.length jobs) 0 p0 in
  mkReport (List.length (filter isNil (presults p))) (presults p) jobs (pconn p) clk.

(* ================================================================== *)
(** * The export writer *)
(* ================================================================== *)

(** [GROUP_CONCAT(t.tag, ',')] over the rows joined to one bookmark;
    [None] is SQL [NULL]. *)
Definition joinedTags (s : store) (bookmarkID : Z) : list str :=
  flat_map (fun bt =>
              if fst bt =? bookmarkID
              then map tg_tag (filter (fun t => tg_id t =? snd bt) (tags s))
              else [])
           (bookmark_tags s).

Fixpoint joinComma (l : list str) : str :=
  match l with
  | [] => []
  | [x] => x
  | x :: rest => x ++ b "," ++ joinComma rest
  end.

Definition groupConcat (l : list str) : option str :=
  match l with
  | [] => None
  | _ => Some (joinComma l)
  end.

Definition lf : str := [newline].

(** The body of the loop over [rows]: the text written for one row, or
    [None] where [rows.Scan] fails on a [NULL] text column. *)
Definition exportRow (s : store) (r : bookmarkRow) : option str :=
  match bm_title r, bm_note r with
  | Some title, Some note =>
    let uri := bm_url r in
    let createdAt := bm_created r in
    let updatedAt := bm_updated r in
    let tags := groupConcat (joinedTags s (bm_id r)) in
    let titleEsc := EscapeString title in
    let noteEsc := EscapeString note in
    let uriEsc := EscapeString uri in
    let tagsEsc := match tags with
                   | Some t => EscapeString t
                   | None => []
                   end in
    let attr := b "HREF=" ++ [dquote] ++ uriEsc ++ [dquote] ++
                b " ADD_DATE=" ++ [dquote] ++ formatInt createdAt ++ [dquote] ++
                b " LAST_MODIFIED=" ++ [dquote] ++ formatInt updatedAt ++ [dquote] in
    let attr := if negb (isEmpty tagsEsc)
                then attr ++ b " TAGS=" ++ [dquote] ++ tagsEsc ++ [dquote]
                else attr in
    Some (b "<DT><A " ++ attr ++ b ">" ++ titleEsc ++ b "</A>" ++
          (if negb (isEmpty noteEsc) then b "<DD>" ++ noteEsc else []) ++
          lf)
  | _, _ => None
  end.

Definition preamble : str :=
  b "<!DOCTYPE NETSCAPE-Bookmark-file-1>" ++ lf ++
  lf ++
  b "<META HTTP-EQUIV=" ++ [dquote] ++ b "Content-Type" ++ [dquote] ++
  b " CONTENT=" ++ [dquote] ++ b "text/html; charset=UTF-8" ++ [dquote] ++ b ">" ++ lf ++
  b "<TITLE>Bookmarks</TITLE>" ++ lf ++
  b "<H1>Bookmarks</H1>" ++ lf ++
  b "<DL><p>" ++ lf.

Fixpoint exportRows (s : store) (rows : list bookmarkRow) : str * nat :=
  match rows with
  | [] => ([], O)
  | r :: rest =>
    let (text, bookmarkCount) := exportRows s rest in
    match exportRow s r with
    | Some line => (line ++ text, S bookmarkCount)
    | None => (text, bookmarkCount)
    end
  end.

(** [exportBookmarks]: the content of the output file and [bookmarkCount]. *)
Definition exportBookmarks (s : store) : str * nat :=
  let (text, bookmarkCount) := exportRows s (bookmarks s) in
  (preamble ++ text ++ b "</DL><p>" ++ lf, bookmarkCount).

Definition exampleBlock : str :=
  b "<A HREF=" ++ [dquote] ++ b "https://example.com" ++ [dquote] ++
  b " ADD_DATE=" ++ [dquote] ++ b "1000" ++ [dquote] ++
  b " TAGS=" ++ [dquote] ++ b "a, b" ++ [dquote] ++
  b ">Example</A><DD>a note".


(* ================================================================== *)
(** * The dialect, said without the matcher *)
(* ================================================================== *)

Fixpoint stripPrefix (p s : str) : option str :=
  match p with
  | [] => Some s
  | c :: p' =>
    match s with
    | d :: s' => if Ascii.eqb c d then stripPrefix p' s' else None
    | [] => None
    end
  end.

Fixpoint takeWhile (cls : ascii -> bool) (s : str) : str :=
  match s with
  | c :: s' => if cls c then c :: takeWhile cls s' else []
  | [] => []
  end.

Fixpoint dropWhile (cls : ascii -> bool) (s : str) : str :=
  match s with
  | c :: s' => if cls c then dropWhile cls s' else s
  | [] => []
  end.

(** The text that opens attribute [name]: the name, [=] and a quote. *)
Definition attrOpen (name : string) : str := b name ++ b "=" ++ [dquote].

(** The value of an attribute written at the head of [s]: a non-empty run
    of [cls] bytes between the opening text and a closing quote. *)
Definition attrAt (name : string) (cls : ascii -> bool) (s : str) : option str :=
  match stripPrefix (attrOpen name) s with
  | Some r =>
    match takeWhile cls r, dropWhile cls r with
    | (_ :: _) as v, q :: _ => if Ascii.eqb dquote q then Some v else None
    | _, _ => None
    end
  | None => None
  end.

(** The value of the first attribute [name] written in [s]. *)
Fixpoint firstAttr (name : string) (cls : ascii -> bool) (s : str) : option str :=
  match attrAt name cls s with
  | Some v => Some v
  | None =>
    match s with
    | _ :: s' => firstAttr name cls s'
    | [] => None
    end
  end.

(** The number a run of decimal digits writes. *)
Definition decimalValue (ds : str) : Z :=
  fold_left (fun acc c => 10 * acc + digitVal c) ds 0.

(** A time attribute: integer epoch seconds as text, in the range of a
    64-bit signed integer. *)
Definition timeAttr (name : string) (attrStr : str) : option Z :=
  match firstAttr name isDigit attrStr with
  | Some ds => if decimalValue ds <=? maxInt64 then Some (decimalValue ds) else None
  | None => None
  end.

(** The attribute text and the inner text of the first anchor of a block,
    as [parseBlocks] reads them. *)
Definition anchorAttrs (block : str) : str :=
  sub (FindStringSubmatch reAnchor (TrimSpace block)) 1.

Definition anchorText (block : str) : str :=
  sub (FindStringSubmatch reAnchor (TrimSpace block)) 2.

(** A label list by the words of the specification: split on commas, trim
    every piece, drop the empty ones. *)
Definition labelsOf (value : str) : list str :=
  filter (fun t => negb (isEmpty t)) (map TrimSpace (Split value (b ","))).


(** One of the five bytes [html.EscapeString] rewrites. *)
Definition escapable (c : ascii) : bool :=
  Ascii.eqb c "&" || Ascii.eqb c "'" || Ascii.eqb c "<" || Ascii.eqb c ">"
  || Ascii.eqb c dquote.

(** An entry block of the dialect: an anchor whose attribute text holds
    [HREF], then anything. *)
Definition dialectBlock (ws a1 u a2 t post : str) : str :=
  b "<A" ++ ws ++ (a1 ++ attrOpen "HREF" ++ u ++ [dquote] ++ a2) ++ b ">" ++
  t ++ b "</A>" ++ post.

(** Bytes below 128 that are not white space stop the trimming, from
    either side. *)
Definition stopper (c : ascii) : Prop :=
  (code c < 128)%nat /\ asciiSpace c = false.

(** [</A>] under [(?i)], the tail of [reAnchor]. *)
Definition reClose : regex := Lit lt >> Lit "/" >> Fold "A" >> Lit gt.

(** An anchor tag opens with [<A] or [<a], white space [ws], and an
    attribute text without [>] that starts with a byte other than white
    space. *)
Definition anchorOpens (a : ascii) (ws attr : str) : Prop :=
  toLower a = "a"%char /\
  ws <> [] /\ Forall (fun c => reSpace c = true) ws /\
  attr <> [] /\ Forall (fun c => notByte gt c = true) attr /\
  match attr with [] => True | c :: _ => reSpace c = false end.

(** What a dialect block must satisfy for the parser to see its address:
    white space after [<A], an attribute text without [>] that does not
    start with white space and in which [HREF] opens first at [a1]'s end,
    a non-empty address without a quote, and a one-line inner text. *)
Definition dialectOK (ws a1 u a2 t : str) : Prop :=
  let attrs := a1 ++ attrOpen "HREF" ++ u ++ [dquote] ++ a2 in
  ws <> [] /\ Forall (fun c => reSpace c = true) ws /\
  Forall (fun c => notByte gt c = true) attrs /\
  match attrs with [] => True | c :: _ => reSpace c = false end /\
  Index (a1 ++ attrOpen "HREF") (attrOpen "HREF") = Some (List.length a1) /\
  u <> [] /\ Forall (fun c => notByte dquote c = true) u /\
  Forall (fun c => notByte newline c = true) t.

(** A block the loop of [parseBlocks] passes over. *)
Definition dropped (now : Z) (block : str) : bool :=
  match parseBlock now block with
  | Some _ => false
  | None => true
  end.

(** How a time field of a job follows from the attribute text: the value
    of attribute [name] when it is there and fits, else [dflt].  The value
    counts when it is a run of digits, not empty, that reads as a number
    up to the largest 64-bit integer; an attribute written once with any
    other value (empty, signed, with a byte that is no digit) gives
    [dflt]. *)
Definition timeField (name : string) (attrStr : str) (dflt value : Z) : Prop :=
  value = match timeAttr name attrStr with Some v => v | None => dflt end /\
  (Index attrStr (attrOpen name) = None -> value = dflt) /\
  (forall a1 ds a2,
      attrStr = a1 ++ attrOpen name ++ ds ++ dquote :: a2 ->
      Index (a1 ++ attrOpen name) (attrOpen name) = Some (List.length a1) ->
      ds <> [] -> Forall (fun c => isDigit c = true) ds ->
      value = if decimalValue ds <=? maxInt64 then decimalValue ds else dflt) /\
  (forall a1 v a2,
      attrStr = a1 ++ attrOpen name ++ v ++ dquote :: a2 ->
      Index (a1 ++ attrOpen name) (attrOpen name) = Some (List.length a1) ->
      Index (tl (attrOpen name ++ v ++ dquote :: a2)) (attrOpen name) = None ->
      Forall (fun c => notByte dquote c = true) v ->
      v = [] \/ Exists (fun c => isDigit c = false) v ->
      value = dflt).

(** The reading of a time attribute by the words [parsable as integer
    epoch seconds]: whenever [strconv.ParseInt] reads the quoted text
    after the first opening of [name], the field is that number. *)
Definition parsableTaken (name : string) (attrStr : str) (value : Z) : Prop :=
  forall a1 v a2 t,
    attrStr = a1 ++ attrOpen name ++ v ++ dquote :: a2 ->
    Index (a1 ++ attrOpen name) (attrOpen name) = Some (List.length a1) ->
    Forall (fun c => notByte dquote c = true) v ->
    ParseInt v = Some t -> value = t.

(** An entry dated one day before 1970. *)
Definition signedTimeBlock : str :=
  b "<A HREF=" ++ [dquote] ++ b "https://example.com" ++ [dquote] ++
  b " ADD_DATE=" ++ [dquote] ++ b "-86400" ++ [dquote] ++
  b ">Example</A>".

Definition exampleJob : Job :=
  mkJob (b "https://example.com") (b "Example") (b "a note") 1000 1000
        [b "a"; b "b"].

(** The text after [<DD>] in a block, as [extractDescription] reads it. *)
Definition descText (block : str) : str :=
  sub (FindStringSubmatch reDesc (TrimSpace block)) 1.

(** The bytes of the five character references [html.EscapeString] writes. *)
Definition entityBytes : str := b "&amp;&#39;&lt;&gt;&#34;".

Definition digitBytes : str := b "0123456789".

(** The attribute text [exportBookmarks] writes after the address. *)
Definition exportedAttrsTail (s : store) (r : bookmarkRow) : str :=
  let tagsEsc := match groupConcat (joinedTags s (bm_id r)) with
                 | Some t => EscapeString t
                 | None => []
                 end in
  b " ADD_DATE=" ++ [dquote] ++ formatInt (bm_created r) ++ [dquote] ++
  b " LAST_MODIFIED=" ++ [dquote] ++ formatInt (bm_updated r) ++ [dquote] ++
  (if negb (isEmpty tagsEsc) then b " TAGS=" ++ [dquote] ++ tagsEsc ++ [dquote]
   else []).

(** What it writes after the anchor. *)
Definition exportedTail (note : str) : str :=
  (if negb (isEmpty (EscapeString note)) then b "<DD>" ++ EscapeString note
   else []) ++ lf.

(** A block whose address and title both hold a character reference. *)
Definition escapedBlock : str :=
  b "<A HREF=" ++ [dquote] ++ b "http://h/?a=1&amp;b=2" ++ [dquote] ++
  b ">Q&amp;A</A>".

(** A stored entry whose address holds [&]. *)
Definition ampRow : bookmarkRow :=
  mkBookmark 1 (b "http://h/?a=1&b=2") (Some (b "Q&A")) (Some []) 1000 1000.

(** The driver fails no call of the job. *)
Definition noFaults (f : site -> bool) : Prop := forall s, f s = false.

(** The entry of [uri] is stored under [id]. *)
Definition bookmarkStored (uri : str) (id : Z) (s : store) : Prop :=
  exists row, In row (bookmarks s) /\ bm_url row = uri /\ bm_id row = id.

(** The label [tag] is stored under [id]. *)
Definition tagStored (tag : str) (id : Z) (s : store) : Prop :=
  exists row, In row (tags s) /\ tg_tag row = tag /\ tg_id row = id.

(** Rows are only ever added. *)
Definition storeGrows (s s' : store) : Prop :=
  incl (bookmarks s) (bookmarks s') /\
  incl (tags s) (tags s') /\
  incl (bookmark_tags s) (bookmark_tags s').

(** What the loop of [insertTags] for entry [bookmarkID] leaves behind,
    from [s] to [s']: the constraints hold, nothing is removed, no entry
    is touched, every new label is a non-empty text of the job, every new
    link joins the entry to a stored label of the job. *)
Definition tagsStep (bookmarkID : Z) (tagList : list str) (s s' : store) : Prop :=
  constraints s' /\
  bookmarks s' = bookmarks s /\
  storeGrows s s' /\
  (forall row, In row (tags s') ->
               In row (tags s) \/ (In (tg_tag row) tagList /\ tg_tag row <> [])) /\
  (forall l, In l (bookmark_tags s') ->
             In l (bookmark_tags s) \/
             (fst l = bookmarkID /\
              exists t, In t tagList /\ tagStored t (snd l) s')).

(** Every non-empty label of the job is stored and linked to the entry. *)
Definition labelsLinked (bookmarkID : Z) (tagList : list str) (s : store) : Prop :=
  forall t, In t tagList -> t <> [] ->
            exists tid, tagStored t tid s /\ In (bookmarkID, tid) (bookmark_tags s).

(** The driver fails the commit of the label transaction only. *)
Definition failCommitTags (s : site) : bool :=
  match s with
  | CommitTags => true
  | _ => false
  end.

(** C2 as it is written, for one candidate: when the worker reports an
    error, nothing of the candidate is in the store. *)
Definition nothingPersistedOnError (f : site -> bool) (job : Job) (c : conn)
  : Prop :=
  fst (workerJob f job c) <> None -> live (snd (workerJob f job c)) = live c.

(** The job a worker holds, if any. *)
Definition inflight (w : wstate) : list (nat * Job) :=
  match w with
  | Idle => []
  | Received n job => [(n, job)]
  | Inserted n job _ => [(n, job)]
  end.

(** The jobs not yet answered: held by a worker, or still in the channel. *)
Definition pending (p : pool) : list (nat * Job) :=
  flat_map inflight (pworkers p) ++ pjobs p.

(** The entry of the candidate is stored and each of its non-empty labels
    is stored and linked to it. *)
Definition persisted (job : Job) (s : store) : Prop :=
  exists id, bookmarkStored (URI job) id s /\ labelsLinked id (Tags job) s.

(** What an outcome tells: [nil], and the candidate is in the store; or an
    error that names the address of the candidate, and the driver failed
    one of the calls of that very candidate. *)
Definition outcomeOK (f : site -> bool) (job : Job) (o : outcome) (s : store)
  : Prop :=
  match o with
  | None => persisted job s
  | Some err =>
    (exists format cause, err = Errorf format [URI job] cause) /\
    exists x, f x = true
  end.

Record poolInv (faults : nat -> site -> bool) (jobs : list Job) (c0 : conn)
       (p : pool) : Prop := mkPoolInv {
  inv_journal : journal (pconn p) = None;
  inv_constraints : constraints (live (pconn p));
  inv_grows : storeGrows (live c0) (live (pconn p));
  inv_pending : forall n job, In (n, job) (pending p) -> nth_error jobs n = Some job;
  inv_all : forall n, (n < List.length jobs)%nat ->
                      In n (map fst (presults p)) \/ In n (map fst (pending p));
  inv_count : (List.length (presults p) + List.length (pending p)
               = List.length jobs)%nat;
  inv_inserted : forall n job id,
      In (Inserted n job id) (pworkers p) ->
      bookmarkStored (URI job) id (live (pconn p));
  inv_results : forall n o,
      In (n, o) (presults p) ->
      exists job, nth_error jobs n = Some job /\
                  outcomeOK (faults n) job o (live (pconn p));
  inv_tags : forall row,
      In row (tags (live (pconn p))) ->
      In row (tags (live c0)) \/
      exists job, In job jobs /\ In (tg_tag row) (Tags job) /\ tg_tag row <> [];
  inv_known :
    (forall job, In job jobs -> In (URI job) (map bm_url (bookmarks (live c0)))) ->
    bookmarks (live (pconn p)) = bookmarks (live c0)
}.

Definition weight (w : wstate) : nat :=
  match w with
  | Idle => 0
  | Received _ _ => 2
  | Inserted _ _ _ => 1
  end.

(** The moves a pool still has to make. *)
Definition movesLeft (p : pool) : nat :=
  3 * List.length (pjobs p) + list_sum (map weight (pworkers p)).

(** A small document with two entries, and an environment in which the
    driver fails the label transaction of the first candidate. *)
Definition exampleDocument : str :=
  b "<DL><p>" ++ lf ++
  b "<DT>" ++ exampleBlock ++ lf ++
  b "<DT><A HREF=" ++ [dquote] ++ b "https://rocq-prover.org" ++ [dquote] ++
  b ">Rocq</A>" ++ lf ++
  b "</DL><p>" ++ lf.

Definition exampleEnv : env :=
  mkEnv (mkClock 0 (fun _ => 1700000000))
        (fun n s => match n with O => failCommitTags s | _ => false end)
        (fun t => t).

Definition calmEnv : env :=
  mkEnv (mkClock 0 (fun _ => 1700000000)) (fun _ _ => false) (fun t => (2 * t)%nat).

(** A block with a label attribute full of empty and white-space pieces. *)
Definition sparseTagsBlock : str :=
  b "<A HREF=" ++ [dquote] ++ b "https://example.com" ++ [dquote] ++
  b " TAGS=" ++ [dquote] ++ b " ,a,, b ," ++ [dquote] ++ b ">Example</A>".

Definition sparseTagsJob : Job :=
  mkJob (b "https://example.com") (b "Example") [] 9 9 [b "a"; b "b"].

(** The text [html.EscapeString] would give if it rewrote only the bytes
    in [S]. *)
Definition escapeIn (S : ascii -> bool) (s : str) : str :=
  flat_map (fun c => if S c then escapeByte c else [c]) s.

Definition amp : ascii := "&"%char.

(** A text [htmlUnescape] gives back after [html.EscapeString]: it has no
    double quote (written [&#34;], which [htmlUnescape] does not read) and
    none of the four references that would be decoded a second time. *)
Definition decodable (t : str) : Prop :=
  Forall (fun c => notByte dquote c = true) t /\
  Index t (b "&lt;") = None /\ Index t (b "&gt;") = None /\
  Index t (b "&quot;") = None /\ Index t (b "&#39;") = None.

(** No white-space rune at the head, by the three bytes the trimming may
    look at. *)
Definition headClean (sp2 : ascii -> ascii -> bool)
           (sp3 : ascii -> ascii -> ascii -> bool) (s : str) : Prop :=
  match s with
  | [] => True
  | c1 :: s1 =>
    asciiSpace c1 = false /\
    match s1 with
    | [] => True
    | c2 :: s2 =>
      sp2 c1 c2 = false /\
      match s2 with
      | [] => True
      | c3 :: _ => sp3 c1 c2 c3 = false
      end
    end
  end.

(** Multi-byte white space is made of bytes from 128 up. *)
Definition highOnly (sp2 : ascii -> ascii -> bool)
           (sp3 : ascii -> ascii -> ascii -> bool) : Prop :=
  (forall x y, sp2 x y = true -> (128 <= code x /\ 128 <= code y)%nat) /\
  (forall x y z, sp3 x y z = true ->
                 (128 <= code x /\ 128 <= code y /\ 128 <= code z)%nat).

Definition space2r (c2 c1 : ascii) : bool := space2 c1 c2.
Definition space3r (c3 c2 c1 : ascii) : bool := space3 c1 c2 c3.

(** A label that comes back from the [TAGS] attribute as it is: not
    empty, no comma, none of the escaped characters, no white space at
    its ends. *)
Definition cleanLabel (l : str) : Prop :=
  l <> [] /\ Forall (fun c => notByte "," c = true) l /\
  Forall (fun c => escapable c = false) l /\ TrimSpace l = l.

(** [strings.HasSuffix]. *)
Definition HasSuffix (s suffix : str) : bool := HasPrefix (rev s) (rev suffix).

(** An address the writer and the parser agree on: not empty, none of the
    escaped characters (the parser does not decode the address), and not
    ending in [TAGS=] (the closing quote would open a label attribute). *)
Definition cleanAddress (u : str) : Prop :=
  u <> [] /\ Forall (fun c => escapable c = false) u /\
  HasSuffix u (b "TAGS=") = false.

(** A title or note that comes back as it is. *)
Definition cleanText (t : str) : Prop := decodable t /\ TrimSpace t = t.

(** An entry that the round trip keeps: no [NULL] text, a clean address,
    a clean one-line title, a clean note, times a 64-bit parse accepts,
    clean labels. *)
Record cleanRow (s : store) (r : bookmarkRow) (title note : str) : Prop :=
  mkCleanRow {
  clean_title : bm_title r = Some title;
  clean_note : bm_note r = Some note;
  clean_url : cleanAddress (bm_url r);
  clean_title_text : cleanText title;
  clean_title_line : Forall (fun c => notByte newline c = true) title;
  clean_note_text : cleanText note;
  clean_created : 0 <= bm_created r <= maxInt64;
  clean_updated : 0 <= bm_updated r <= maxInt64;
  clean_labels : Forall cleanLabel (joinedTags s (bm_id r))
}.

(** The candidate an entry should come back as. *)
Definition rowJob (s : store) (r : bookmarkRow) (title note : str) : Job :=
  mkJob (bm_url r) title note (bm_created r) (bm_updated r)
        (joinedTags s (bm_id r)).

(** The attribute text the writer gives an entry. *)
Definition exportedAttrs (s : store) (r : bookmarkRow) : str :=
  attrOpen "HREF" ++ EscapeString (bm_url r) ++ [dquote] ++ exportedAttrsTail s r.

(** The last line [exportBookmarks] writes. *)
Definition closing : str := b "</DL><p>" ++ lf.

(** No instance of [<DT>] starts within [p] when [s] follows it. *)
Fixpoint sepFree (p s : str) : Prop :=
  match p with
  | [] => True
  | _ :: p' => HasPrefix (p ++ s) (b "<DT>") = false /\ sepFree p' s
  end.

(** [p] glued in front of the first piece. *)
Definition prependPiece (p : str) (l : list str) : list str :=
  match l with
  | [] => [p]
  | q :: qs => (p ++ q) :: qs
  end.

(** The pieces of a document: what comes before the first [<DT>], the
    lines of the entries, and the tail [tr] glued to the last piece. *)
Fixpoint docBlocks (p : str) (lines : list str) (tr : str) : list str :=
  match lines with
  | [] => [p ++ tr]
  | l :: ls => p :: docBlocks l ls tr
  end.

(** A [NULL] text read as the empty text. *)
Definition textOf (o : option str) : str :=
  match o with
  | Some t => t
  | None => []
  end.

(** The line [exportBookmarks] writes for an entry, after its [<DT>]. *)
Definition entryLine (s : store) (r : bookmarkRow) : str :=
  dialectBlock (b " ") [] (EscapeString (bm_url r)) (exportedAttrsTail s r)
               (EscapeString (textOf (bm_title r)))
               (exportedTail (textOf (bm_note r))).

Definition entryJob (s : store) (r : bookmarkRow) : Job :=
  rowJob s r (textOf (bm_title r)) (textOf (bm_note r)).

Definition cleanEntry (s : store) (r : bookmarkRow) : Prop :=
  cleanRow s r (textOf (bm_title r)) (textOf (bm_note r)).

(** A store the round trip keeps: the schema constraints hold and every
    entry is clean. *)
Definition cleanStore (s : store) : Prop :=
  constraints s /\ Forall (cleanEntry s) (bookmarks s).

(** Where the rows of a store come from during an import that started at
    [s0]: an entry is one of [s0] or the row [insertBookmark] writes for a
    candidate; a link is one of [s0] or joins the entry of a candidate to
    one of its labels. *)
Definition provenance (jobs : list Job) (s0 s : store) : Prop :=
  (forall row, In row (bookmarks s) ->
     In row (bookmarks s0) \/
     exists job, In job jobs /\
       row = mkBookmark (bm_id row) (URI job) (Some (Title job))
                        (Some (Note job)) (CreatedAt job) (UpdatedAt job)) /\
  (forall l, In l (bookmark_tags s) ->
     In l (bookmark_tags s0) \/
     exists job t, In job jobs /\ In t (Tags job) /\
       bookmarkStored (URI job) (fst l) s /\ tagStored t (snd l) s).

(** Label lists that hold the same labels, in any order. *)
Definition sameLabels (l l' : list str) : Prop := forall t, In t l <-> In t l'.

(** The entry [r] of [s] is in [s']: same address, title, note and times,
    same labels. *)
Definition entryIn (s : store) (r : bookmarkRow) (s' : store) : Prop :=
  exists r', In r' (bookmarks s') /\
    bm_url r' = bm_url r /\ bm_title r' = bm_title r /\ bm_note r' = bm_note r /\
    bm_created r' = bm_created r /\ bm_updated r' = bm_updated r /\
    sameLabels (joinedTags s (bm_id r)) (joinedTags s' (bm_id r')).

(** Two stores hold the same entries. *)
Definition sameEntries (s s' : store) : Prop :=
  (forall r, In r (bookmarks s) -> entryIn s r s') /\
  (forall r', In r' (bookmarks s') -> entryIn s' r' s).

(** A store with two entries; the title and the note of the first hold
    characters that the writer escapes, and it has two labels. *)
Definition titleStore : store :=
  mkStore
    [ mkBookmark 1 (b "https://example.com/a?x=1") (Some (b "a<b & c"))
                 (Some (b "x > y")) 1000 2000;
      mkBookmark 2 (b "https://rocq-prover.org") (Some (b "Rocq")) (Some [])
                 5 5 ]
    [ mkTag 1 (b "math"); mkTag 2 (b "logic") ]
    [ (1, 1); (1, 2) ].

(** A store whose one entry has a title that starts with a space. *)
Definition paddedStore : store :=
  mkStore [ mkBookmark 1 (b "https://example.com") (Some (b " Example"))
                       (Some []) 1000 1000 ]
          [] [].

(** The round trip of C1 for one store: export, then import into an empty
    store, leaves the same entries. *)
Definition roundTrips (e : env) (s : store) : Prop :=
  sameEntries s
    (live (importConn (importBookmarks e (fst (exportBookmarks s))
                                       (openConn emptyStore)))).

(** The rows [rows.Scan] accepts: title and note are not [NULL]. *)
Definition scans (r : bookmarkRow) : bool :=
  match bm_title r, bm_note r with
  | Some _, Some _ => true
  | _, _ => false
  end.

(** What a block of an exported entry needs to be parsed again: an
    address that is not empty and a title on one line. *)
Definition reparsable (r : bookmarkRow) : Prop :=
  bm_url r <> [] /\
  Forall (fun c => notByte newline c = true) (textOf (bm_title r)).

(** A store whose one entry has an address with [&]. *)
Definition ampStore : store := mkStore [ampRow] [] [].

(** An entry created before 1970 and modified after. *)
Definition agedRow : bookmarkRow :=
  mkBookmark 1 (b "https://example.com/?a=1&b=2") (Some (b "Old")) (Some []) (-86400) 1000.

(** The row [insertBookmark] writes for a candidate under identity [id]. *)
Definition jobRow (id : Z) (job : Job) : bookmarkRow :=
  mkBookmark id (URI job) (Some (Title job)) (Some (Note job))
             (CreatedAt job) (UpdatedAt job).

(** The pool [importBookmarks] starts for the candidates [jobs] on an
    empty store, run to its end by schedule [sched] with a driver that
    fails no call. *)
Definition calmRun (sched : nat -> nat) (jobs : list Job) : pool :=
  runPool (fun _ _ => false) sched (3 * List.length jobs) 0
          (mkPool (openConn emptyStore) (number 0 jobs)
                  (repeat Idle workerCount) []).

(** A schedule that lets the second worker run whenever it can, after
    the first worker has taken the first candidate. *)
Definition secondFirst (t : nat) : nat :=
  match t with
  | O => O
  | S _ => 1%nat
  end.

(** No [<] of [s] is followed by [A] or [a]: no anchor opens in [s]. *)
Fixpoint noAnchorOpen (s : str) : bool :=
  match s with
  | [] => true
  | c :: s' =>
    (negb (Ascii.eqb lt c) ||
     match s' with
     | [] => true
     | a :: _ => negb (Ascii.eqb (toLower "A") (toLower a))
     end) && noAnchorOpen s'
  end.

(** An entry whose title has a line break. *)
Definition brokenRow : bookmarkRow :=
  mkBookmark 1 (b "https://example.com") (Some (b "two" ++ lf ++ b "lines"))
             (Some (b "a note")) 1000 1000.

(** A table with a row whose title is [NULL], a row whose note is [NULL]
    and a row with both texts. *)
Definition nullTitleRow : bookmarkRow :=
  mkBookmark 1 (b "https://example.com/a") None (Some (b "note")) 10 20.

Definition nullNoteRow : bookmarkRow :=
  mkBookmark 2 (b "https://example.com/b") (Some (b "B")) None 10 20.

Definition nullStore : store :=
  mkStore [nullTitleRow; nullNoteRow;
           mkBookmark 3 (b "https://example.com/c") (Some (b "C")) (Some []) 10 20]
          [] [].

(** An anchor in [s] with attribute text [attrs] and inner text [t]: [<A]
    or [<a], white space, an attribute text without [>], [>], an inner
    text without a line break, and [</A>] or [</a>]. *)
Definition anchorIn (s attrs t : str) : Prop :=
  exists pre a ws a' post,
    s = pre ++ lt :: a :: ws ++ attrs ++ gt :: t ++
        lt :: "/"%char :: a' :: gt :: post /\
    toLower a = "a"%char /\ toLower a' = "a"%char /\
    ws <> [] /\ Forall (fun c => reSpace c = true) ws /\
    attrs <> [] /\ Forall (fun c => notByte gt c = true) attrs /\
    Forall (fun c => notByte newline c = true) t.

Definition hasAnchor (s : str) : Prop := exists attrs t, anchorIn s attrs t.

(** A dialect block with an address, whatever its inner text. *)
Definition addressed (ws a1 u a2 : str) : Prop :=
  let attrs := a1 ++ attrOpen "HREF" ++ u ++ [dquote] ++ a2 in
  ws <> [] /\ Forall (fun c => reSpace c = true) ws /\
  Forall (fun c => notByte gt c = true) attrs /\
  match attrs with [] => True | c :: _ => reSpace c = false end /\
  Index (a1 ++ attrOpen "HREF") (attrOpen "HREF") = Some (List.length a1) /\
  u <> [] /\ Forall (fun c => notByte dquote c = true) u.

(** An anchor with an address whose inner text runs over two lines. *)
Definition twoLineBlock : str :=
  dialectBlock (b " ") [] (b "https://example.com") []
               (b "two" ++ lf ++ b "lines") [].

(** An anchor written in lower case after other text. *)
Definition lowerBlock : str :=
  b "see <a HREF=" ++ [dquote] ++ b "https://example.com" ++ [dquote] ++
  b ">Example</a>".

(** The numbers of the candidates in the order in which [insertBookmark]
    ran for them during [runPool]: the moves of [runPool], with the number
    of the candidate noted at every move of a worker that has received
    one. *)
Fixpoint insertOrder (faults : nat -> site -> bool) (sched : nat -> nat)
    (fuel t : nat) (p : pool) : list nat :=
  match fuel with
  | O => []
  | S fuel' =>
    match enabled p with
    | [] => []
    | w0 :: ws =>
      let w := nth (sched t mod List.length (w0 :: ws))%nat (w0 :: ws) w0 in
      match poolStep faults w p with
      | Some p' =>
        match nth_error (pworkers p) w with
        | Some (Received n _) => n :: insertOrder faults sched fuel' (S t) p'
        | _ => insertOrder faults sched fuel' (S t) p'
        end
      | None => []
      end
    end
  end.

(** The order of the calls of [insertBookmark] in [calmRun]. *)
Definition calmOrder (sched : nat -> nat) (jobs : list Job) : list nat :=
  insertOrder (fun _ _ => false) sched (3 * List.length jobs) 0
              (mkPool (openConn emptyStore) (number 0 jobs)
                      (repeat Idle workerCount) []).

(** Every candidate the pool still holds has address [u]. *)
Definition sameAddress (u : str) (p : pool) : Prop :=
  (forall n job, In (n, job) (pjobs p) -> URI job = u) /\
  (forall n job, In (Received n job) (pworkers p) -> URI job = u).

(** No [insertBookmark] has run yet: the connection is as it was opened
    on the empty store, and every worker is idle or holds a candidate of
    [jobs] it has just received. *)
Definition untouched (jobs : list Job) (p : pool) : Prop :=
  pconn p = openConn emptyStore /\
  (forall n job, In (n, job) (pjobs p) -> nth_error jobs n = Some job) /\
  (forall x, In x (pworkers p) ->
             x = Idle \/
             exists n job, x = Received n job /\ nth_error jobs n = Some job).

(* ================================================================== *)
(** * Facts about byte strings *)
(* ================================================================== *)

Lemma str_eqb_eq (x y : str) : str_eqb x y = true <-> x = y.
Proof.
  revert y; induction x as [|c x IH]; intros [|d y]; simpl; split;
    try congruence; try discriminate.
  - rewrite andb_true_iff, Ascii.eqb_eq, IH. intros [-> ->]; reflexivity.
  - intros H; injection H as -> ->. rewrite Ascii.eqb_refl.
    apply IH; reflexivity.
Qed.

Lemma str_eqb_refl (x : str) : str_eqb x x = true.
Proof. apply str_eqb_eq; reflexivity. Qed.

Lemma str_eqb_neq (x y : str) : str_eqb x y = false <-> x <> y.
Proof.
  rewrite <- str_eqb_eq. destruct (str_eqb x y); split; congruence.
Qed.

Lemma stripPrefix_app (p s : str) : stripPrefix p (p ++ s) = Some s.
Proof.
  induction p as [|c p IH]; simpl; [reflexivity|].
  rewrite Ascii.eqb_refl; exact IH.
Qed.

Lemma stripPrefix_Some (p s r : str) : stripPrefix p s = Some r -> s = p ++ r.
Proof.
  revert s; induction p as [|c p IH]; intros s; simpl.
  - congruence.
  - destruct s as [|d s]; [discriminate|].
    destruct (Ascii.eqb c d) eqn:E; [|discriminate].
    apply Ascii.eqb_eq in E; subst d. intros H; f_equal; auto.
Qed.

Lemma HasPrefix_stripPrefix (p s : str) :
  HasPrefix s p = match stripPrefix p s with Some _ => true | None => false end.
Proof.
  revert s; induction p as [|c p IH]; intros s; simpl.
  - destruct s; reflexivity.
  - destruct s as [|d s]; [reflexivity|]. simpl.
    destruct (Ascii.eqb c d); simpl; [apply IH | reflexivity].
Qed.

Lemma takeWhile_dropWhile (cls : ascii -> bool) (s : str) :
  takeWhile cls s ++ dropWhile cls s = s.
Proof.
  induction s as [|c s IH]; simpl; [reflexivity|].
  destruct (cls c); simpl; congruence.
Qed.

Lemma takeWhile_Forall (cls : ascii -> bool) (s : str) :
  Forall (fun c => cls c = true) (takeWhile cls s).
Proof.
  induction s as [|c s IH]; simpl; [constructor|].
  destruct (cls c) eqn:E; constructor; assumption.
Qed.

Lemma takeWhile_app (cls : ascii -> bool) (v r : str) :
  Forall (fun c => cls c = true) v ->
  match r with [] => True | c :: _ => cls c = false end ->
  takeWhile cls (v ++ r) = v /\ dropWhile cls (v ++ r) = r.
Proof.
  intros Hv Hr. induction Hv as [|c v Hc Hv IH]; simpl.
  - destruct r as [|c r]; simpl; [auto|]. rewrite Hr; auto.
  - rewrite Hc. destruct IH as [-> ->]; auto.
Qed.

Lemma firstn_length_app {A} (x y : list A) :
  firstn (List.length (x ++ y) - List.length y) (x ++ y) = x.
Proof.
  rewrite length_app, Nat.add_sub. rewrite firstn_app, Nat.sub_diag.
  rewrite firstn_all. simpl. apply app_nil_r.
Qed.

Lemma firstn_length_dropWhile (cls : ascii -> bool) (s : str) :
  firstn (List.length s - List.length (dropWhile cls s)) s = takeWhile cls s.
Proof.
  pose proof (firstn_length_app (takeWhile cls s) (dropWhile cls s)) as H.
  rewrite takeWhile_dropWhile in H. exact H.
Qed.

Lemma stripPrefix_app_l (p q s : str) :
  stripPrefix (p ++ q) s =
  match stripPrefix p s with
  | Some r => stripPrefix q r
  | None => None
  end.
Proof.
  revert s; induction p as [|c p IH]; intros s; simpl; [reflexivity|].
  destruct s as [|d s]; [reflexivity|].
  destruct (Ascii.eqb c d); [apply IH | reflexivity].
Qed.

(* ================================================================== *)
(** * Facts about the matcher *)
(* ================================================================== *)

Lemma rmatch_lits (p : str) (r : regex) (s : str) (caps : list str) (k : cont) :
  rmatch (lits p r) s caps k =
  match stripPrefix p s with
  | Some s' => rmatch r s' caps k
  | None => None
  end.
Proof.
  revert s; induction p as [|c p IH]; intros s; simpl; [reflexivity|].
  destruct s as [|d s]; [reflexivity|].
  destruct (Ascii.eqb c d); [apply IH | reflexivity].
Qed.

(** A greedy run followed by something that cannot start with a byte of
    the class takes the whole run. *)
Lemma greedy_stops (cls : ascii -> bool) (k : cont) (s : str) (caps : list str) :
  (forall c s' caps', cls c = true -> k (c :: s') caps' = None) ->
  greedy cls s caps k = k (dropWhile cls s) caps.
Proof.
  intros Hk. induction s as [|c s IH]; simpl; [reflexivity|].
  destruct (cls c) eqn:E; [|reflexivity].
  rewrite IH. destruct (k (dropWhile cls s) caps) eqn:Ek; [reflexivity|].
  apply Hk; exact E.
Qed.

(** A greedy run takes all of [ws] when what follows matches right after
    it. *)
Lemma greedy_all (cls : ascii -> bool) (k : cont) (ws s : str)
      (caps : list str) (m : matched) :
  Forall (fun c => cls c = true) ws ->
  k s caps = Some m ->
  match s with [] => True | c :: _ => cls c = false end ->
  greedy cls (ws ++ s) caps k = Some m.
Proof.
  intros Hws Hk Hs. induction Hws as [|c ws Hc Hws IH]; simpl.
  - destruct s as [|c s]; simpl; [exact Hk|]. rewrite Hs. exact Hk.
  - rewrite Hc, IH. reflexivity.
Qed.

(** A lazy run stops at the first place where what follows matches. *)
Lemma lazy_first (cls : ascii -> bool) (k : cont) (t r : str) (caps : list str)
      (m : matched) :
  Forall (fun c => cls c = true) t ->
  k r caps = Some m ->
  (forall t1 c t2, t = t1 ++ c :: t2 -> k (c :: t2 ++ r) caps = None) ->
  lazy cls (t ++ r) caps k = Some m.
Proof.
  intros Ht Hr. induction Ht as [|c t Hc Ht IH]; intros Hk; simpl.
  - destruct r as [|c r]; simpl; rewrite Hr; reflexivity.
  - rewrite (Hk [] c t eq_refl). rewrite Hc. apply IH.
    intros t1 c' t2 E. apply (Hk (c :: t1) c' t2). rewrite E; reflexivity.
Qed.

Lemma lazy_some (cls : ascii -> bool) (k : cont) (t r : str) (caps : list str)
      (m : matched) :
  Forall (fun c => cls c = true) t ->
  k r caps = Some m ->
  exists t1 t2 m', t = t1 ++ t2 /\ k (t2 ++ r) caps = Some m' /\
                   lazy cls (t ++ r) caps k = Some m'.
Proof.
  intros Ht Hk. induction Ht as [|c t Hc Ht IH].
  - exists [], [], m. simpl. repeat split; try assumption.
    destruct r; simpl; rewrite Hk; reflexivity.
  - simpl. destruct (k (c :: t ++ r) caps) as [m0|] eqn:E.
    + exists [], (c :: t), m0. simpl. repeat split; assumption.
    + rewrite Hc. destruct IH as (t1 & t2 & m' & Et & Ek & El).
      exists (c :: t1), t2, m'. subst t. repeat split; assumption.
Qed.

Lemma matchHere_reAttr (name : string) (cls : ascii -> bool) (s : str) :
  cls dquote = false ->
  matchHere (reAttr name cls) s =
  match stripPrefix (attrOpen name) s with
  | Some r =>
    match takeWhile cls r, dropWhile cls r with
    | (_ :: _) as v, q :: r' => if Ascii.eqb dquote q then Some (r', [v]) else None
    | _, _ => None
    end
  | None => None
  end.
Proof.
  intros Hq. unfold matchHere, reAttr, attrOpen.
  rewrite rmatch_lits, stripPrefix_app_l.
  destruct (stripPrefix (b name) s) as [s1|]; [|reflexivity].
  change (b "=" ++ [dquote]) with ["="%char; dquote].
  cbn [rmatch stripPrefix].
  destruct s1 as [|c1 s1]; [reflexivity|].
  destruct (Ascii.eqb "=" c1); [|reflexivity].
  destruct s1 as [|c2 r]; [reflexivity|].
  destruct (Ascii.eqb dquote c2); [|reflexivity].
  destruct r as [|c r]; [reflexivity|].
  cbn [takeWhile dropWhile].
  destruct (cls c) eqn:Ec; [|reflexivity].
  rewrite greedy_stops.
  - pose proof (firstn_length_dropWhile cls (c :: r)) as F.
    cbn [dropWhile takeWhile] in F. rewrite Ec in F.
    rewrite F. cbn [app].
    destruct (dropWhile cls r) as [|q r']; [reflexivity|].
    destruct (Ascii.eqb dquote q); reflexivity.
  - intros c0 s' caps' Hc0.
    destruct (Ascii.eqb dquote c0) eqn:E; [|reflexivity].
    apply Ascii.eqb_eq in E; subst c0. congruence.
Qed.

Lemma find_reAttr (name : string) (cls : ascii -> bool) (s : str) :
  cls dquote = false ->
  FindStringSubmatch (reAttr name cls) s =
  match firstAttr name cls s with
  | Some v => [attrOpen name ++ v ++ [dquote]; v]
  | None => []
  end.
Proof.
  intros Hq. induction s as [|c0 s IH].
  - cbn [FindStringSubmatch firstAttr].
    rewrite matchHere_reAttr by assumption. unfold attrAt.
    destruct (stripPrefix (attrOpen name) []) as [r|] eqn:E; [|reflexivity].
    apply stripPrefix_Some in E. destruct (attrOpen name) eqn:E2; [|discriminate].
    unfold attrOpen in E2. destruct (b name); discriminate.
  - cbn [FindStringSubmatch firstAttr].
    rewrite matchHere_reAttr by assumption. unfold attrAt.
    destruct (stripPrefix (attrOpen name) (c0 :: s)) as [r|] eqn:E; [|exact IH].
    destruct (takeWhile cls r) as [|v0 v] eqn:Ev; [exact IH|].
    destruct (dropWhile cls r) as [|q r'] eqn:Ed; [exact IH|].
    destruct (Ascii.eqb dquote q) eqn:Eq; [|exact IH].
    apply Ascii.eqb_eq in Eq; subst q.
    apply stripPrefix_Some in E. rewrite E.
    rewrite <- (takeWhile_dropWhile cls r), Ev, Ed.
    f_equal.
    replace (attrOpen name ++ (v0 :: v) ++ dquote :: r')
      with ((attrOpen name ++ (v0 :: v) ++ [dquote]) ++ r')
      by (rewrite <- !app_assoc; reflexivity).
    apply firstn_length_app.
Qed.
(** ** White space *)

Lemma trimHead_length sp2 sp3 (s : str) :
  (List.length (trimHead sp2 sp3 s) <= List.length s)%nat.
Proof.
  remember (List.length s) as n eqn:En.
  revert s En. induction n as [n IH] using lt_wf_ind. intros s En.
  destruct s as [|c1 [|c2 [|c3 s3]]]; cbn [trimHead]; subst n.
  - simpl; lia.
  - destruct (asciiSpace c1); simpl; lia.
  - destruct (asciiSpace c1).
    + pose proof (IH _ (Nat.lt_succ_diag_r _) [c2] eq_refl). simpl in *; lia.
    + destruct (sp2 c1 c2); simpl; lia.
  - destruct (asciiSpace c1).
    + pose proof (IH (List.length (c2 :: c3 :: s3)) ltac:(simpl; lia) _ eq_refl).
      simpl in *; lia.
    + destruct (sp2 c1 c2).
      * pose proof (IH (List.length (c3 :: s3)) ltac:(simpl; lia) _ eq_refl).
        simpl in *; lia.
      * destruct (sp3 c1 c2 c3).
        -- pose proof (IH (List.length s3) ltac:(simpl; lia) _ eq_refl).
           simpl in *; lia.
        -- simpl; lia.
Qed.

Lemma trimHead_suffix sp2 sp3 (s : str) :
  exists w, s = w ++ trimHead sp2 sp3 s.
Proof.
  remember (List.length s) as n eqn:En.
  revert s En. induction n as [n IH] using lt_wf_ind. intros s En.
  destruct s as [|c1 [|c2 [|c3 s3]]]; cbn [trimHead]; subst n.
  - exists []; reflexivity.
  - destruct (asciiSpace c1); [exists [c1] | exists []]; reflexivity.
  - destruct (asciiSpace c1).
    + destruct (IH _ (Nat.lt_succ_diag_r _) [c2] eq_refl) as [w Hw].
      exists (c1 :: w). simpl. f_equal. exact Hw.
    + destruct (sp2 c1 c2); [exists [c1; c2] | exists []]; reflexivity.
  - destruct (asciiSpace c1).
    + destruct (IH (List.length (c2 :: c3 :: s3)) ltac:(simpl; lia) _ eq_refl)
        as [w Hw].
      exists (c1 :: w). simpl. f_equal. exact Hw.
    + destruct (sp2 c1 c2).
      * destruct (IH (List.length (c3 :: s3)) ltac:(simpl; lia) _ eq_refl)
          as [w Hw].
        exists (c1 :: c2 :: w). simpl. do 2 f_equal. exact Hw.
      * destruct (sp3 c1 c2 c3).
        -- destruct (IH (List.length s3) ltac:(simpl; lia) _ eq_refl) as [w Hw].
           exists (c1 :: c2 :: c3 :: w). simpl. do 3 f_equal. exact Hw.
        -- exists []; reflexivity.
Qed.

Lemma trimHead_idem sp2 sp3 (s : str) :
  trimHead sp2 sp3 (trimHead sp2 sp3 s) = trimHead sp2 sp3 s.
Proof.
  remember (List.length s) as n eqn:En.
  revert s En. induction n as [n IH] using lt_wf_ind. intros s En.
  destruct s as [|c1 [|c2 [|c3 s3]]]; subst n.
  - reflexivity.
  - cbn [trimHead]. destruct (asciiSpace c1) eqn:E1; [reflexivity|].
    cbn [trimHead]. rewrite E1. reflexivity.
  - cbn [trimHead]. destruct (asciiSpace c1) eqn:E1.
    + apply (IH _ (Nat.lt_succ_diag_r _) [c2] eq_refl).
    + destruct (sp2 c1 c2) eqn:E2; [reflexivity|].
      cbn [trimHead]. rewrite E1, E2. reflexivity.
  - cbn [trimHead]. destruct (asciiSpace c1) eqn:E1.
    + apply (IH (List.length (c2 :: c3 :: s3)) ltac:(simpl; lia) _ eq_refl).
    + destruct (sp2 c1 c2) eqn:E2.
      * apply (IH (List.length (c3 :: s3)) ltac:(simpl; lia) _ eq_refl).
      * destruct (sp3 c1 c2 c3) eqn:E3.
        -- apply (IH (List.length s3) ltac:(simpl; lia) _ eq_refl).
        -- cbn [trimHead]. rewrite E1, E2, E3. reflexivity.
Qed.

(** A string with no white space at its head keeps none when cut short. *)
Lemma trimHead_prefix sp2 sp3 (v w : str) :
  trimHead sp2 sp3 (v ++ w) = v ++ w -> trimHead sp2 sp3 v = v.
Proof.
  intros H.
  assert (L : forall x y : str, trimHead sp2 sp3 x = y ->
                                (List.length x < List.length y)%nat -> False).
  { intros x y E Hl. pose proof (trimHead_length sp2 sp3 x). rewrite E in *. lia. }
  destruct v as [|c1 v]; [reflexivity|].
  cbn [app trimHead] in H |- *.
  destruct (asciiSpace c1).
  { exfalso. eapply L; [exact H | simpl; lia]. }
  destruct v as [|c2 v]; [reflexivity|].
  cbn [app] in H.
  destruct (sp2 c1 c2).
  { exfalso. eapply L; [exact H | simpl; lia]. }
  destruct v as [|c3 v]; [reflexivity|].
  cbn [app] in H.
  destruct (sp3 c1 c2 c3); [|reflexivity].
  exfalso. eapply L; [exact H | simpl; lia].
Qed.

Lemma TrimSpace_idem (s : str) : TrimSpace (TrimSpace s) = TrimSpace s.
Proof.
  unfold TrimSpace.
  set (u := TrimLeftSpace s).
  assert (Hu : TrimLeftSpace u = u) by apply trimHead_idem.
  assert (Hp : TrimLeftSpace (TrimRightSpace u) = TrimRightSpace u).
  { unfold TrimRightSpace.
    destruct (trimHead_suffix (fun c2 c1 => space2 c1 c2)
                (fun c3 c2 c1 => space3 c1 c2 c3) (rev u)) as [w Hw].
    apply (f_equal (@rev ascii)) in Hw. rewrite rev_involutive, rev_app_distr in Hw.
    apply (trimHead_prefix space2 space3 _ (rev w)).
    unfold TrimLeftSpace in Hu. rewrite <- Hw. exact Hu. }
  rewrite Hp. unfold TrimRightSpace. rewrite rev_involutive, trimHead_idem.
  reflexivity.
Qed.

Lemma stopper_space2_l c a : stopper c -> space2 c a = false.
Proof.
  intros [H _]. unfold space2.
  destruct (Nat.eqb_spec (code c) 194); [lia | reflexivity].
Qed.

Lemma stopper_space2_r c a : stopper c -> space2 a c = false.
Proof.
  intros [H _]. unfold space2, oneOf. simpl.
  destruct (Nat.eqb_spec (code c) 133); [lia|].
  destruct (Nat.eqb_spec (code c) 160); [lia|].
  apply andb_false_r.
Qed.

Lemma space3_high c1 c2 c3 :
  space3 c1 c2 c3 = true ->
  (128 <= code c1 /\ 128 <= code c2 /\ 128 <= code c3)%nat.
Proof.
  unfold space3, oneOf. cbn [existsb].
  repeat rewrite ?orb_true_iff, ?andb_true_iff, ?Nat.eqb_eq, ?Nat.leb_le.
  intros H. decompose [and or] H; try discriminate; lia.
Qed.

Lemma stopper_space3_1 c a a' : stopper c -> space3 c a a' = false.
Proof.
  intros [H _]. destruct (space3 c a a') eqn:E; [|reflexivity].
  apply space3_high in E; lia.
Qed.

Lemma stopper_space3_2 c a a' : stopper c -> space3 a c a' = false.
Proof.
  intros [H _]. destruct (space3 a c a') eqn:E; [|reflexivity].
  apply space3_high in E; lia.
Qed.

Lemma stopper_space3_3 c a a' : stopper c -> space3 a a' c = false.
Proof.
  intros [H _]. destruct (space3 a a' c) eqn:E; [|reflexivity].
  apply space3_high in E; lia.
Qed.

Lemma trimHead_stop sp2 sp3 (c : ascii) (y : str) :
  asciiSpace c = false ->
  (forall a, sp2 c a = false) ->
  (forall a a', sp3 c a a' = false) ->
  trimHead sp2 sp3 (c :: y) = c :: y.
Proof.
  intros H1 H2 H3. cbn [trimHead]. rewrite H1.
  destruct y as [|c2 y]; [reflexivity|]. rewrite H2.
  destruct y as [|c3 y]; [reflexivity|]. rewrite H3. reflexivity.
Qed.

Lemma trimHead_app_stop sp2 sp3 (c : ascii) (p y : str) :
  asciiSpace c = false ->
  (forall a, sp2 c a = false) ->
  (forall a, sp2 a c = false) ->
  (forall a a', sp3 c a a' = false) ->
  (forall a a', sp3 a c a' = false) ->
  (forall a a', sp3 a a' c = false) ->
  trimHead sp2 sp3 (p ++ c :: y) = trimHead sp2 sp3 p ++ c :: y.
Proof.
  intros H1 H2 H2' H3 H3' H3''.
  remember (List.length p) as n eqn:En.
  revert p En. induction n as [n IH] using lt_wf_ind. intros p En.
  destruct p as [|c1 [|c2 [|c3 p3]]]; subst n.
  - apply trimHead_stop; assumption.
  - cbn [app trimHead]. destruct (asciiSpace c1).
    + apply trimHead_stop; assumption.
    + rewrite H2'. destruct y as [|y0 y]; [reflexivity|].
      rewrite H3'. reflexivity.
  - cbn [app trimHead]. destruct (asciiSpace c1).
    + apply (IH _ (Nat.lt_succ_diag_r _) [c2] eq_refl).
    + destruct (sp2 c1 c2).
      * apply trimHead_stop; assumption.
      * rewrite H3''. reflexivity.
  - cbn [app trimHead]. destruct (asciiSpace c1).
    + apply (IH (List.length (c2 :: c3 :: p3)) ltac:(simpl; lia) _ eq_refl).
    + destruct (sp2 c1 c2).
      * apply (IH (List.length (c3 :: p3)) ltac:(simpl; lia) _ eq_refl).
      * destruct (sp3 c1 c2 c3); [|reflexivity].
        apply (IH (List.length p3) ltac:(simpl; lia) _ eq_refl).
Qed.

Lemma TrimLeftSpace_stop (c : ascii) (y : str) :
  stopper c -> TrimLeftSpace (c :: y) = c :: y.
Proof.
  intros H. apply trimHead_stop.
  - apply H.
  - intros; apply stopper_space2_l; assumption.
  - intros; apply stopper_space3_1; assumption.
Qed.

Lemma TrimRightSpace_stop (x : str) (c : ascii) (y : str) :
  stopper c -> TrimRightSpace (x ++ c :: y) = x ++ c :: TrimRightSpace y.
Proof.
  intros H. unfold TrimRightSpace.
  rewrite rev_app_distr. cbn [rev]. rewrite <- app_assoc. cbn [app].
  rewrite trimHead_app_stop.
  - rewrite rev_app_distr. cbn [rev]. rewrite rev_involutive, <- app_assoc.
    reflexivity.
  - apply H.
  - intros; apply stopper_space2_r; assumption.
  - intros; apply stopper_space2_l; assumption.
  - intros; apply stopper_space3_3; assumption.
  - intros; apply stopper_space3_2; assumption.
  - intros; apply stopper_space3_1; assumption.
Qed.

Lemma stopper_lt : stopper lt.
Proof. split; [apply Nat.ltb_lt | ]; reflexivity. Qed.

Lemma stopper_gt : stopper gt.
Proof. split; [apply Nat.ltb_lt | ]; reflexivity. Qed.

(** A block that opens with [<] and has a [>] is trimmed behind its last
    known [>] only. *)
Lemma TrimSpace_tag (x y : str) :
  TrimSpace (lt :: x ++ gt :: y) = lt :: x ++ gt :: TrimRightSpace y.
Proof.
  unfold TrimSpace. rewrite TrimLeftSpace_stop by apply stopper_lt.
  apply (TrimRightSpace_stop (lt :: x) gt y stopper_gt).
Qed.

(** ** The anchor pattern *)


Lemma rmatch_reClose_caps (s : str) (caps : list str) (k : cont) (m : matched) :
  rmatch reClose s caps k = Some m -> exists s', k s' caps = Some m.
Proof.
  unfold reClose. cbn [rmatch].
  destruct s as [|c1 s]; [discriminate|]. destruct (Ascii.eqb lt c1); [|discriminate].
  destruct s as [|c2 s]; [discriminate|]. destruct (Ascii.eqb "/" c2); [|discriminate].
  destruct s as [|c3 s]; [discriminate|].
  destruct (Ascii.eqb (toLower "A") (toLower c3)); [|discriminate].
  destruct s as [|c4 s]; [discriminate|]. destruct (Ascii.eqb gt c4); [|discriminate].
  intros H; exists s; exact H.
Qed.

Lemma rmatch_reClose_lt (c : ascii) (s : str) (caps : list str) (k : cont) :
  c <> lt -> rmatch reClose (c :: s) caps k = None.
Proof.
  intros H. unfold reClose. cbn [rmatch].
  destruct (Ascii.eqb lt c) eqn:E; [|reflexivity].
  apply Ascii.eqb_eq in E. congruence.
Qed.

Lemma rmatch_reClose_here (post : str) (caps : list str) (k : cont) :
  rmatch reClose (b "</A>" ++ post) caps k = k post caps.
Proof. reflexivity. Qed.


(** The anchor pattern at the head of a block that opens with an anchor
    tag: the first group is the attribute text. *)
Lemma matchHere_reAnchor (a : ascii) (ws attr t post : str) :
  anchorOpens a ws attr ->
  Forall (fun c => notByte newline c = true) t ->
  exists t1 t2 rest,
    t = t1 ++ t2 /\
    matchHere reAnchor (lt :: a :: ws ++ attr ++ gt :: t ++ b "</A>" ++ post)
    = Some (rest, [attr; t1]) /\
    (Forall (fun c => c <> lt) t -> t1 = t /\ rest = post).
Proof.
  intros (Ha & Hws & Fws & Hattr & Fattr & Hhd) Ft.
  set (R := t ++ b "</A>" ++ post).
  set (k0 := fun (s' : str) (caps : list str) => Some (s', caps)).
  set (k4 := fun (s' : str) (caps' : list str) =>
               rmatch reClose s' (caps' ++ [firstn (List.length R - List.length s') R]) k0).
  assert (K4 : k4 (b "</A>" ++ post) [attr] = Some (post, [attr; t])).
  { unfold k4. rewrite rmatch_reClose_here. unfold k0, R. cbn [app].
    rewrite (firstn_length_app t (b "</A>" ++ post)). reflexivity. }
  assert (L : exists t1 t2 rest, t = t1 ++ t2 /\
                lazy (notByte newline) R [attr] k4 = Some (rest, [attr; t1]) /\
                (Forall (fun c => c <> lt) t -> t1 = t /\ rest = post)).
  { destruct (lazy_some _ k4 t (b "</A>" ++ post) [attr] _ Ft K4)
      as (t1 & t2 & m' & Et & Ek & El).
    fold R in El.
    set (x := t2 ++ b "</A>" ++ post) in *.
    assert (ER : R = t1 ++ x)
      by (unfold R, x; rewrite Et, <- app_assoc; reflexivity).
    unfold k4 in Ek. destruct (rmatch_reClose_caps _ _ _ _ Ek) as [s' Hs'].
    rewrite ER, firstn_length_app in Hs'. unfold k0 in Hs'.
    assert (Em : m' = (s', [attr; t1])) by (cbn [app] in Hs'; congruence).
    exists t1, t2, s'. split; [exact Et|]. split.
    - rewrite El, Em. reflexivity.
    - intros Nlt.
      assert (E : lazy (notByte newline) R [attr] k4 = Some (post, [attr; t])).
      { apply lazy_first; [exact Ft | exact K4 |].
        intros u1 c u2 Eu. unfold k4. apply rmatch_reClose_lt.
        rewrite Forall_forall in Nlt. apply Nlt. rewrite Eu.
        apply in_or_app; right; left; reflexivity. }
      rewrite El, Em in E. injection E as E1 E2. split; assumption. }
  destruct L as (t1 & t2 & rest & Et & El & Hl).
  exists t1, t2, rest. split; [exact Et|]. split; [|exact Hl].
  unfold matchHere, reAnchor. cbn [rmatch].
  rewrite Ascii.eqb_refl.
  replace (Ascii.eqb (toLower "A") (toLower a)) with true
    by (rewrite Ha; reflexivity).
  destruct ws as [|w0 ws]; [congruence|]. cbn [app].
  inversion Fws as [|? ? Hw0 Fws']; subst. rewrite Hw0.
  destruct attr as [|a0 attr]; [congruence|].
  inversion Fattr as [|? ? Ha0 Fattr']; subst.
  apply greedy_all; [exact Fws' | | exact Hhd].
  cbn [app rmatch]. rewrite Ha0.
  rewrite greedy_stops.
  - destruct (takeWhile_app (notByte gt) attr (gt :: R) Fattr') as [_ Ed];
      [reflexivity|].
    fold R. rewrite Ed.
    replace (firstn _ _) with (a0 :: attr)
      by (symmetry; apply (firstn_length_app (a0 :: attr) (gt :: R))).
    rewrite Ascii.eqb_refl. cbn [app].
    exact El.
  - intros c s' caps' Hc. unfold notByte in Hc.
    destruct (Ascii.eqb gt c); [discriminate | reflexivity].
Qed.

(** ** Attributes *)

Lemma attrAt_Some (name : string) (cls : ascii -> bool) (s v : str) :
  attrAt name cls s = Some v ->
  v <> [] /\ Forall (fun c => cls c = true) v /\
  exists r, s = attrOpen name ++ v ++ dquote :: r.
Proof.
  unfold attrAt. destruct (stripPrefix (attrOpen name) s) as [r|] eqn:E; [|discriminate].
  apply stripPrefix_Some in E.
  pose proof (takeWhile_Forall cls r) as F.
  pose proof (takeWhile_dropWhile cls r) as A.
  destruct (takeWhile cls r) as [|v0 v1]; [discriminate|].
  destruct (dropWhile cls r) as [|q r']; [discriminate|].
  destruct (Ascii.eqb dquote q) eqn:Eq; [|discriminate].
  apply Ascii.eqb_eq in Eq; subst q. intros H; injection H as <-.
  split; [discriminate|]. split; [exact F|].
  exists r'. rewrite E, <- A. reflexivity.
Qed.

Lemma firstAttr_Some (name : string) (cls : ascii -> bool) (s v : str) :
  firstAttr name cls s = Some v ->
  v <> [] /\ Forall (fun c => cls c = true) v /\
  exists l r, s = l ++ attrOpen name ++ v ++ dquote :: r.
Proof.
  induction s as [|c s IH]; cbn [firstAttr].
  - destruct (attrAt name cls []) eqn:E; [|discriminate].
    intros H; injection H as ->. apply attrAt_Some in E.
    destruct E as (H1 & H2 & r & Hr). repeat split; try assumption.
    exists [], r. exact Hr.
  - destruct (attrAt name cls (c :: s)) eqn:E.
    + intros H; injection H as ->. apply attrAt_Some in E.
      destruct E as (H1 & H2 & r & Hr). repeat split; try assumption.
      exists [], r. exact Hr.
    + intros H. destruct (IH H) as (H1 & H2 & l & r & Hr).
      repeat split; try assumption. exists (c :: l), r. rewrite Hr. reflexivity.
Qed.

Lemma HasPrefix_app (y rest p : str) :
  (List.length p <= List.length y)%nat ->
  HasPrefix (y ++ rest) p = HasPrefix y p.
Proof.
  revert y; induction p as [|c p IH]; intros y Hl.
  - destruct y; reflexivity.
  - destruct y as [|d y]; [simpl in Hl; lia|]. cbn [app HasPrefix].
    rewrite IH by (simpl in Hl; lia). reflexivity.
Qed.

(** The attribute written after [a1] is the first one when its opening
    text does not occur earlier. *)
Lemma firstAttr_at (name : string) (cls : ascii -> bool) (a1 v a2 : str) :
  cls dquote = false ->
  Index (a1 ++ attrOpen name) (attrOpen name) = Some (List.length a1) ->
  v <> [] -> Forall (fun c => cls c = true) v ->
  firstAttr name cls (a1 ++ attrOpen name ++ v ++ dquote :: a2) = Some v.
Proof.
  intros Hq Hi Hv Fv. induction a1 as [|c a1 IH].
  - cbn [app].
    assert (E : attrAt name cls (attrOpen name ++ v ++ dquote :: a2) = Some v).
    { unfold attrAt. rewrite stripPrefix_app.
      destruct (takeWhile_app cls v (dquote :: a2) Fv Hq) as [-> ->].
      destruct v; [congruence|]. rewrite Ascii.eqb_refl. reflexivity. }
    destruct (attrOpen name ++ v ++ dquote :: a2); cbn [firstAttr]; rewrite E;
      reflexivity.
  - cbn [app Index List.length] in Hi.
    destruct (HasPrefix (c :: a1 ++ attrOpen name) (attrOpen name)) eqn:Ep;
      [discriminate|].
    destruct (Index (a1 ++ attrOpen name) (attrOpen name)) as [n|] eqn:En;
      [|discriminate].
    cbn [option_map] in Hi. injection Hi as Hn. subst n.
    cbn [app firstAttr].
    assert (E : attrAt name cls (c :: a1 ++ attrOpen name ++ v ++ dquote :: a2) = None).
    { unfold attrAt.
      pose proof (HasPrefix_stripPrefix (attrOpen name)
                    (c :: a1 ++ attrOpen name ++ v ++ dquote :: a2)) as P.
      change (c :: a1 ++ attrOpen name ++ v ++ dquote :: a2)
        with ((c :: a1) ++ attrOpen name ++ v ++ dquote :: a2) in P.
      rewrite app_assoc in P.
      rewrite HasPrefix_app in P
        by (rewrite length_app; lia).
      cbn [app] in P. rewrite Ep in P.
      change (c :: a1 ++ attrOpen name ++ v ++ dquote :: a2)
        with ((c :: a1) ++ attrOpen name ++ v ++ dquote :: a2).
      rewrite app_assoc. cbn [app].
      destruct (stripPrefix (attrOpen name) _); [discriminate | reflexivity]. }
    rewrite E. apply IH. reflexivity.
Qed.

Lemma firstAttr_absent (name : string) (cls : ascii -> bool) (s : str) :
  Index s (attrOpen name) = None -> firstAttr name cls s = None.
Proof.
  induction s as [|c s IH]; cbn [Index firstAttr]; unfold attrAt;
    rewrite HasPrefix_stripPrefix;
    destruct (stripPrefix (attrOpen name) _); try discriminate.
  - reflexivity.
  - destruct (Index s (attrOpen name)); [discriminate|]. intros _. apply IH.
    reflexivity.
Qed.

(** ** Numbers *)

Lemma parseDigits_fold (ds : str) (acc : Z) :
  Forall (fun c => isDigit c = true) ds ->
  parseDigits acc ds = Some (fold_left (fun a c => 10 * a + digitVal c) ds acc).
Proof.
  intros F. revert acc. induction F as [|c ds Hc F IH]; intros acc; cbn [parseDigits fold_left].
  - reflexivity.
  - rewrite Hc. apply IH.
Qed.

Lemma digitVal_range (c : ascii) : isDigit c = true -> 0 <= digitVal c <= 9.
Proof.
  unfold isDigit, digitVal. rewrite andb_true_iff, !Nat.leb_le. lia.
Qed.

Lemma fold_digits_nonneg (ds : str) (acc : Z) :
  Forall (fun c => isDigit c = true) ds -> 0 <= acc ->
  0 <= fold_left (fun a c => 10 * a + digitVal c) ds acc.
Proof.
  intros F. revert acc. induction F as [|c ds Hc F IH]; intros acc Ha; cbn [fold_left].
  - exact Ha.
  - apply IH. pose proof (digitVal_range c Hc). lia.
Qed.

Lemma isDigit_not_sign (c : ascii) :
  isDigit c = true -> Ascii.eqb c "+" = false /\ Ascii.eqb c "-" = false.
Proof.
  intros H. unfold isDigit in H. rewrite andb_true_iff, !Nat.leb_le in H.
  split; apply Ascii.eqb_neq; intros ->; vm_compute in H; lia.
Qed.

Lemma ParseInt_digits (ds : str) :
  ds <> [] -> Forall (fun c => isDigit c = true) ds ->
  ParseInt ds =
  if decimalValue ds <=? maxInt64 then Some (decimalValue ds) else None.
Proof.
  intros Hne F. unfold ParseInt.
  destruct ds as [|c ds]; [congruence|].
  inversion F as [|? ? Hc F']; subst.
  destruct (isDigit_not_sign c Hc) as [-> ->].
  unfold parseUnsigned. rewrite parseDigits_fold by exact F.
  fold (decimalValue (c :: ds)).
  assert (0 <= decimalValue (c :: ds)) by (apply fold_digits_nonneg; [exact F | lia]).
  replace (minInt64 <=? decimalValue (c :: ds)) with true
    by (symmetry; apply Z.leb_le; unfold minInt64; lia).
  reflexivity.
Qed.

(** ** The [extract*] helpers *)

Lemma notByte_self (x : ascii) : notByte x x = false.
Proof. unfold notByte. rewrite Ascii.eqb_refl. reflexivity. Qed.

Lemma extractHref_spec (attrStr : str) :
  extractHref reHref attrStr =
  match firstAttr "HREF" (notByte dquote) attrStr with
  | Some v => v
  | None => []
  end.
Proof.
  unfold extractHref, reHref. rewrite find_reAttr by apply notByte_self.
  destruct (firstAttr _ _ attrStr); reflexivity.
Qed.

Lemma extractTimestamp_spec (name : string) (attrStr : str) (d : Z) :
  extractTimestamp (reAttr name isDigit) attrStr d =
  match timeAttr name attrStr with
  | Some v => v
  | None => d
  end.
Proof.
  unfold extractTimestamp, timeAttr. rewrite find_reAttr by reflexivity.
  destruct (firstAttr name isDigit attrStr) as [ds|] eqn:E; [|reflexivity].
  apply firstAttr_Some in E. destruct E as (Hne & F & _).
  cbn [sub nth]. rewrite ParseInt_digits by assumption.
  destruct (decimalValue ds <=? maxInt64); reflexivity.
Qed.

Lemma cleanTags_spec (tags acc : list str) :
  cleanTags tags acc =
  acc ++ filter (fun t => negb (isEmpty t)) (map TrimSpace tags).
Proof.
  revert acc; induction tags as [|t tags IH]; intros acc; cbn [cleanTags map filter].
  - rewrite app_nil_r; reflexivity.
  - destruct (negb (isEmpty (TrimSpace t))); rewrite IH; [|reflexivity].
    rewrite <- app_assoc; reflexivity.
Qed.

Lemma extractTags_spec (attrStr : str) :
  extractTags reTags attrStr =
  match firstAttr "TAGS" (notByte dquote) attrStr with
  | Some v => labelsOf v
  | None => []
  end.
Proof.
  unfold extractTags, reTags. rewrite find_reAttr by apply notByte_self.
  destruct (firstAttr _ _ attrStr) as [v|] eqn:E; [|reflexivity].
  apply firstAttr_Some in E. destruct E as (Hne & _).
  cbn [sub nth]. destruct v; [congruence|]. cbn [isEmpty negb].
  rewrite cleanTags_spec. reflexivity.
Qed.

Lemma labelsOf_clean (value t : str) :
  In t (labelsOf value) -> t <> [] /\ TrimSpace t = t.
Proof.
  unfold labelsOf. rewrite filter_In, in_map_iff.
  intros [(x & <- & _) Hne]. split.
  - destruct (TrimSpace x); [discriminate | discriminate].
  - apply TrimSpace_idem.
Qed.

(** What [parseBlocks] puts in a job. *)
Lemma parseBlock_Some (now : Z) (block : str) (job : Job) :
  parseBlock now block = Some job ->
  let attrStr := anchorAttrs block in
  URI job = extractHref reHref attrStr /\ URI job <> [] /\
  Title job = htmlUnescape (TrimSpace (anchorText block)) /\
  Note job = extractDescription reDesc (TrimSpace block) /\
  CreatedAt job = extractTimestamp reAddDate attrStr now /\
  UpdatedAt job = extractTimestamp reLastMod attrStr (CreatedAt job) /\
  Tags job = extractTags reTags attrStr.
Proof.
  unfold parseBlock, anchorAttrs, anchorText.
  destruct (isEmpty (TrimSpace block)); [discriminate|].
  destruct (List.length _ <? 3)%nat; [discriminate|].
  destruct (isEmpty (extractHref reHref _)) eqn:E; [discriminate|].
  intros H; injection H as <-. cbn [URI Title Note CreatedAt UpdatedAt Tags].
  repeat split; try reflexivity.
  intros E0; rewrite E0 in E; discriminate.
Qed.

Lemma parseLoop_In (now : Z) (blocks : list str) (job : Job) :
  In job (parseLoop now blocks) <->
  exists block, In block blocks /\ parseBlock now block = Some job.
Proof.
  induction blocks as [|blk blocks IH]; cbn [parseLoop].
  - split; [intros [] | intros (? & [] & _)].
  - destruct (parseBlock now blk) as [j|] eqn:E.
    + cbn [In]. rewrite IH. split.
      * intros [<- | (x & Hx & Hp)]; [exists blk; auto | exists x; auto].
      * intros (x & [<- | Hx] & Hp); [left; congruence | right; exists x; auto].
    + rewrite IH. split.
      * intros (x & Hx & Hp). exists x; split; [right|]; assumption.
      * intros (x & [<- | Hx] & Hp); [congruence | exists x; auto].
Qed.


(** ** Blocks of the dialect *)

Lemma dialectBlock_shape (ws a1 u a2 t post : str) :
  dialectBlock ws a1 u a2 t post =
  lt :: ("A"%char :: ws ++ (a1 ++ attrOpen "HREF" ++ u ++ [dquote] ++ a2) ++
         gt :: t ++ b "</A") ++ gt :: post.
Proof.
  unfold dialectBlock. cbn [b list_ascii_of_string app].
  do 2 f_equal. rewrite <- !app_assoc. cbn [app]. do 2 f_equal.
  repeat (rewrite <- ?app_assoc; cbn [app]; f_equal).
Qed.

Lemma parseBlock_dialect (now : Z) (ws a1 u a2 t post : str) :
  dialectOK ws a1 u a2 t ->
  let block := dialectBlock ws a1 u a2 t post in
  exists job t1 t2,
    parseBlock now block = Some job /\
    anchorAttrs block = a1 ++ attrOpen "HREF" ++ u ++ [dquote] ++ a2 /\
    URI job = u /\
    t = t1 ++ t2 /\ anchorText block = t1 /\
    (Forall (fun c => c <> lt) t -> t1 = t).
Proof.
  intros (Hws & Fws & Fattr & Hhd & Hi & Hu & Fu & Ft) block.
  set (attrs := a1 ++ attrOpen "HREF" ++ u ++ [dquote] ++ a2) in *.
  assert (Hattrs : attrs <> []).
  { unfold attrs. destruct a1; [|discriminate]. discriminate. }
  assert (Eb : TrimSpace block =
               lt :: "A"%char :: ws ++ attrs ++ gt :: t ++ b "</A>" ++ TrimRightSpace post).
  { unfold block. rewrite dialectBlock_shape, TrimSpace_tag. fold attrs.
    cbn [app]. do 2 f_equal. rewrite <- !app_assoc. cbn [app]. do 2 f_equal.
    repeat (rewrite <- ?app_assoc; cbn [app]; f_equal). }
  destruct (matchHere_reAnchor "A" ws attrs t (TrimRightSpace post))
    as (t1 & t2 & rest & Et & Em & Hl).
  { repeat split; assumption. }
  { exact Ft. }
  assert (Ef : exists whole, FindStringSubmatch reAnchor (TrimSpace block)
                             = [whole; attrs; t1]).
  { rewrite Eb. cbn [FindStringSubmatch]. rewrite Em. eexists; reflexivity. }
  destruct Ef as [whole Ef].
  assert (Eh : extractHref reHref attrs = u).
  { rewrite extractHref_spec. unfold attrs.
    change ([dquote] ++ a2) with (dquote :: a2).
    rewrite (firstAttr_at "HREF" (notByte dquote) a1 u a2);
      try assumption; [reflexivity | apply notByte_self]. }
  unfold parseBlock. fold block. rewrite Ef. cbn [List.length Nat.ltb Nat.leb sub nth].
  rewrite Eh.
  assert (Ee : isEmpty (TrimSpace block) = false) by (rewrite Eb; reflexivity).
  rewrite Ee. destruct u as [|u0 u]; [congruence|]. cbn [isEmpty].
  eexists; exists t1, t2. split; [reflexivity|]. cbn [URI].
  unfold anchorAttrs, anchorText. rewrite Ef. cbn [sub nth].
  repeat split; try assumption; try reflexivity.
  intros Nlt. apply Hl. exact Nlt.
Qed.

Lemma parseLoop_length (now : Z) (blocks : list str) :
  (List.length (parseLoop now blocks) +
   List.length (filter (dropped now) blocks) = List.length blocks)%nat.
Proof.
  induction blocks as [|blk blocks IH]; cbn [parseLoop filter]; [reflexivity|].
  unfold dropped at 1. destruct (parseBlock now blk); simpl; lia.
Qed.

Lemma parseBlock_no_anchor (now : Z) (block : str) :
  FindStringSubmatch reAnchor (TrimSpace block) = [] ->
  parseBlock now block = None.
Proof.
  intros H. unfold parseBlock. rewrite H.
  destruct (isEmpty (TrimSpace block)); reflexivity.
Qed.

Lemma parseBlock_no_href (now : Z) (block : str) :
  firstAttr "HREF" (notByte dquote) (anchorAttrs block) = None ->
  parseBlock now block = None.
Proof.
  intros H. unfold parseBlock.
  destruct (isEmpty (TrimSpace block)); [reflexivity|].
  destruct (List.length _ <? 3)%nat; [reflexivity|].
  fold (anchorAttrs block). rewrite extractHref_spec, H. reflexivity.
Qed.


Lemma firstAttr_before (name : string) (cls : ascii -> bool) (a1 R : str) :
  Index (a1 ++ attrOpen name) (attrOpen name) = Some (List.length a1) ->
  firstAttr name cls (a1 ++ attrOpen name ++ R) = firstAttr name cls (attrOpen name ++ R).
Proof.
  intros Hi. induction a1 as [|c a1 IH]; [reflexivity|].
  cbn [app Index List.length] in Hi.
  destruct (HasPrefix (c :: a1 ++ attrOpen name) (attrOpen name)) eqn:Ep;
    [discriminate|].
  destruct (Index (a1 ++ attrOpen name) (attrOpen name)) as [n|] eqn:En;
    [|discriminate].
  cbn [option_map] in Hi. injection Hi as Hn. subst n.
  cbn [app firstAttr].
  assert (E : attrAt name cls (c :: a1 ++ attrOpen name ++ R) = None).
  { unfold attrAt.
    pose proof (HasPrefix_stripPrefix (attrOpen name)
                  (c :: a1 ++ attrOpen name ++ R)) as P.
    change (c :: a1 ++ attrOpen name ++ R)
      with ((c :: a1) ++ attrOpen name ++ R) in P.
    rewrite app_assoc in P.
    rewrite HasPrefix_app in P by (rewrite length_app; lia).
    cbn [app] in P. rewrite Ep in P.
    change (c :: a1 ++ attrOpen name ++ R)
      with ((c :: a1) ++ attrOpen name ++ R).
    rewrite app_assoc. cbn [app].
    destruct (stripPrefix (attrOpen name) _); [discriminate | reflexivity]. }
  rewrite E. apply IH. reflexivity.
Qed.

Lemma Exists_first (cls : ascii -> bool) (v : str) :
  Exists (fun c => cls c = false) v ->
  exists p c r, v = p ++ c :: r /\ Forall (fun x => cls x = true) p /\ cls c = false.
Proof.
  induction v as [|x v IH]; intros H; [inversion H|].
  destruct (cls x) eqn:Ex.
  - assert (H' : Exists (fun c => cls c = false) v).
    { inversion H as [? ? Hx | ? ? Hv]; subst; [congruence | exact Hv]. }
    destruct (IH H') as (p & c & r & -> & Fp & Hc).
    exists (x :: p), c, r. split; [reflexivity|]. split; [constructor|]; assumption.
  - exists [], x, v. split; [reflexivity|]. split; [constructor | exact Ex].
Qed.

Lemma attrAt_refused (name : string) (cls : ascii -> bool) (v a2 : str) :
  cls dquote = false ->
  Forall (fun c => notByte dquote c = true) v ->
  v = [] \/ Exists (fun c => cls c = false) v ->
  attrAt name cls (attrOpen name ++ v ++ dquote :: a2) = None.
Proof.
  intros Hq Fv [-> | Hx]; unfold attrAt; rewrite stripPrefix_app.
  - cbn [app takeWhile dropWhile]. rewrite Hq. reflexivity.
  - destruct (Exists_first cls v Hx) as (p & c & r & -> & Fp & Hc).
    rewrite <- app_assoc. cbn [app].
    destruct (takeWhile_app cls p (c :: r ++ dquote :: a2) Fp Hc) as [-> ->].
    assert (Hn : Ascii.eqb dquote c = false).
    { rewrite Forall_forall in Fv.
      specialize (Fv c (in_elt c p r)).
      unfold notByte in Fv. destruct (Ascii.eqb dquote c); [discriminate | reflexivity]. }
    rewrite Hn. destruct p; reflexivity.
Qed.

Lemma firstAttr_refused (name : string) (cls : ascii -> bool) (a1 v a2 : str) :
  cls dquote = false ->
  Index (a1 ++ attrOpen name) (attrOpen name) = Some (List.length a1) ->
  Index (tl (attrOpen name ++ v ++ dquote :: a2)) (attrOpen name) = None ->
  Forall (fun c => notByte dquote c = true) v ->
  v = [] \/ Exists (fun c => cls c = false) v ->
  firstAttr name cls (a1 ++ attrOpen name ++ v ++ dquote :: a2) = None.
Proof.
  intros Hq Hi Hl Fv Hv. rewrite (firstAttr_before name cls a1 _ Hi).
  pose proof (attrAt_refused name cls v a2 Hq Fv Hv) as E.
  destruct (attrOpen name ++ v ++ dquote :: a2) as [|x R];
    cbn [firstAttr]; rewrite E; [reflexivity|].
  apply firstAttr_absent. exact Hl.
Qed.

Lemma timeField_extract (name : string) (attrStr : str) (dflt : Z) :
  timeField name attrStr dflt (extractTimestamp (reAttr name isDigit) attrStr dflt).
Proof.
  rewrite extractTimestamp_spec. unfold timeField, timeAttr.
  split; [reflexivity|]. split; [|split].
  - intros H. rewrite (firstAttr_absent _ _ _ H). reflexivity.
  - intros a1 ds a2 -> Hi Hne F.
    rewrite (firstAttr_at name isDigit a1 ds a2); try assumption; [|reflexivity].
    destruct (decimalValue ds <=? maxInt64); reflexivity.
  - intros a1 v a2 -> Hi Hl Fv Hv.
    rewrite (firstAttr_refused name isDigit a1 v a2); try assumption; reflexivity.
Qed.

(* ================================================================== *)
(** * The parser: main results *)
(* ================================================================== *)

(** C4: the block
    [<A HREF="https://example.com" ADD_DATE="1000" TAGS="a, b">Example</A><DD>a note]
    yields exactly one candidate, with address [https://example.com], title
    [Example], creation time 1000, modification time 1000 (the default, the
    creation time), labels [a] and [b], and note [a note]; whatever the
    clock says. *)
Theorem example_block_candidate (clk : clock) :
  fst (parseBlocks [exampleBlock] clk) = [exampleJob].
Proof. vm_compute. reflexivity. Qed.

(** C6 as it is written fails: the time [-86400] is an integer
    that [strconv.ParseInt] reads, yet the pattern of [ADD_DATE] takes
    digits only, so the candidate of the block gets the current time. *)
Lemma signed_time_not_taken :
  ParseInt (b "-86400") = Some (-86400) /\
  (exists job,
      parseBlock 5 signedTimeBlock = Some job /\
      anchorAttrs signedTimeBlock =
      (b "HREF=" ++ [dquote] ++ b "https://example.com" ++ [dquote] ++ b " ") ++
      attrOpen "ADD_DATE" ++ b "-86400" ++ dquote :: [] /\
      CreatedAt job = 5) /\
  ~ (forall now block job,
        parseBlock now block = Some job ->
        parsableTaken "ADD_DATE" (anchorAttrs block) (CreatedAt job)).
Proof.
  split; [reflexivity|]. split.
  - eexists. split; [vm_compute; reflexivity|]. split; reflexivity.
  - intros H.
    assert (E : parseBlock 5 signedTimeBlock
                = Some (mkJob (b "https://example.com") (b "Example") [] 5 5 []))
      by (vm_compute; reflexivity).
    specialize (H 5 signedTimeBlock _ E
                  (b "HREF=" ++ [dquote] ++ b "https://example.com" ++ [dquote]
                     ++ b " ")
                  (b "-86400") [] (-86400)).
    cbn [CreatedAt] in H.
    assert (X : 5 = -86400); [|discriminate X].
    apply H; [reflexivity | reflexivity | repeat constructor | reflexivity].
Qed.

(** C6, amended: for every parsed block, the creation time of the
    candidate is the value of [ADD_DATE] when that attribute is present
    with a value that is a run of decimal digits, not empty, that reads as
    a number up to the largest 64-bit integer, taken as it is; it is the
    current time when the attribute is absent or not parsable: a run of
    digits that is too large, or an attribute written once whose value is
    empty, has a sign or holds any other byte that is no digit.  The
    modification time is the value of [LAST_MODIFIED] under the same
    conditions, and the candidate's creation time otherwise. *)
Theorem timestamps_default_or_verbatim (now : Z) (block : str) (job : Job) :
  parseBlock now block = Some job ->
  timeField "ADD_DATE" (anchorAttrs block) now (CreatedAt job) /\
  timeField "LAST_MODIFIED" (anchorAttrs block) (CreatedAt job) (UpdatedAt job).
Proof.
  intros H. apply parseBlock_Some in H. cbv zeta in H.
  destruct H as (_ & _ & _ & _ & Hc & Hu & _).
  rewrite Hu, Hc at 1. split; apply timeField_extract.
Qed.

Lemma timestamps_default_or_verbatim_witness :
  timeField "ADD_DATE" (anchorAttrs exampleBlock) 5 (CreatedAt exampleJob) /\
  timeField "LAST_MODIFIED" (anchorAttrs exampleBlock)
            (CreatedAt exampleJob) (UpdatedAt exampleJob).
Proof.
  apply (timestamps_default_or_verbatim 5 exampleBlock exampleJob).
  vm_compute. reflexivity.
Defined.

(** C10: one call of the parser reads the clock exactly once, before the
    loop; every candidate comes from a block parsed with that one reading,
    so every candidate whose [ADD_DATE] is absent or not parsable has the
    same creation time, the reading. *)
Theorem clock_read_once (blocks : list str) (clk : clock) :
  let now := reading clk (reads clk) in
  let jobs := fst (parseBlocks blocks clk) in
  let clk' := snd (parseBlocks blocks clk) in
  reads clk' = S (reads clk) /\
  (forall job, In job jobs <->
               exists block, In block blocks /\ parseBlock now block = Some job) /\
  (forall block job,
      parseBlock now block = Some job ->
      timeAttr "ADD_DATE" (anchorAttrs block) = None ->
      CreatedAt job = now).
Proof.
  cbv zeta. unfold parseBlocks, time_Now_Unix. cbn [fst snd reads].
  split; [reflexivity|]. split.
  - intros job. apply parseLoop_In.
  - intros block job H Hn.
    apply parseBlock_Some in H. cbv zeta in H.
    destruct H as (_ & _ & _ & _ & Hc & _).
    unfold reAddDate in Hc. rewrite extractTimestamp_spec, Hn in Hc. exact Hc.
Qed.


(** ** Escaping and number formatting *)

Lemma escapeByte_cases (c : ascii) :
  (escapable c = false /\ escapeByte c = [c]) \/
  (escapable c = true /\ (4 <= List.length (escapeByte c))%nat /\
   incl (escapeByte c) entityBytes).
Proof.
  unfold escapable, escapeByte.
  destruct (Ascii.eqb c "&").
  { right. split; [reflexivity|]. split; [simpl; lia|].
    intros x Hx. simpl in Hx. unfold entityBytes. simpl. tauto. }
  destruct (Ascii.eqb c "'").
  { right. split; [reflexivity|]. split; [simpl; lia|].
    intros x Hx. simpl in Hx. unfold entityBytes. simpl. tauto. }
  destruct (Ascii.eqb c "<").
  { right. split; [reflexivity|]. split; [simpl; lia|].
    intros x Hx. simpl in Hx. unfold entityBytes. simpl. tauto. }
  destruct (Ascii.eqb c ">").
  { right. split; [reflexivity|]. split; [simpl; lia|].
    intros x Hx. simpl in Hx. unfold entityBytes. simpl. tauto. }
  destruct (Ascii.eqb c dquote).
  { right. split; [reflexivity|]. split; [simpl; lia|].
    intros x Hx. simpl in Hx. unfold entityBytes. simpl. tauto. }
  left. split; reflexivity.
Qed.

Lemma EscapeString_Forall (P : ascii -> Prop) (s : str) :
  Forall P entityBytes ->
  Forall (fun c => escapable c = false -> P c) s ->
  Forall P (EscapeString s).
Proof.
  intros He Hs. unfold EscapeString.
  induction Hs as [|c s Hc Hs IH]; cbn [flat_map]; [constructor|].
  apply Forall_app. split; [|exact IH].
  destruct (escapeByte_cases c) as [[E ->] | (E & _ & Hi)].
  - constructor; [auto | constructor].
  - rewrite Forall_forall in He |- *. intros x Hx. apply He, Hi, Hx.
Qed.

(** An escaped text holds none of [<], [>] and the quote. *)
Lemma EscapeString_free (x : ascii) (s : str) :
  escapable x = true -> x <> "&"%char ->
  Forall (fun c => notByte x c = true) (EscapeString s).
Proof.
  intros Hx Hamp. apply EscapeString_Forall.
  - unfold escapable in Hx. rewrite !orb_true_iff, !Ascii.eqb_eq in Hx.
    decompose [or] Hx; subst x; try congruence; repeat constructor.
  - rewrite Forall_forall. intros c _ Hc. unfold notByte.
    destruct (Ascii.eqb x c) eqn:E; [|reflexivity].
    apply Ascii.eqb_eq in E; subst c. congruence.
Qed.

Lemma EscapeString_keeps (x : ascii) (s : str) :
  Forall (fun c => notByte x c = true) entityBytes ->
  Forall (fun c => notByte x c = true) s ->
  Forall (fun c => notByte x c = true) (EscapeString s).
Proof.
  intros He Hs. apply EscapeString_Forall; [exact He|].
  eapply Forall_impl; [|exact Hs]. auto.
Qed.

Lemma EscapeString_length (s : str) :
  (List.length s <= List.length (EscapeString s))%nat /\
  (existsb escapable s = true ->
   (List.length s < List.length (EscapeString s))%nat).
Proof.
  unfold EscapeString. induction s as [|c s [IH1 IH2]]; cbn [flat_map existsb List.length].
  - split; [lia | discriminate].
  - rewrite length_app.
    destruct (escapeByte_cases c) as [[E ->] | (E & Hl & _)]; rewrite E; cbn [orb List.length].
    + split; [lia|]. intros H. specialize (IH2 H). lia.
    + split; [lia|]. intros _. lia.
Qed.

Lemma EscapeString_changes (s : str) :
  existsb escapable s = true -> EscapeString s <> s.
Proof.
  intros H E. apply EscapeString_length in H. rewrite E in H. lia.
Qed.

Lemma digitChar_digit (d : Z) : 0 <= d < 10 -> In (digitChar d) digitBytes.
Proof.
  intros H.
  assert (C : d = 0 \/ d = 1 \/ d = 2 \/ d = 3 \/ d = 4 \/ d = 5 \/ d = 6 \/
              d = 7 \/ d = 8 \/ d = 9) by lia.
  decompose [or] C; subst d; vm_compute; tauto.
Qed.

Lemma digitsFuel_Forall (P : ascii -> Prop) (fuel : nat) (n : Z) (acc : str) :
  Forall P digitBytes -> Forall P acc -> Forall P (digitsFuel fuel n acc).
Proof.
  intros Hd. revert n acc. induction fuel as [|fuel IH]; intros n acc Ha;
    cbn [digitsFuel]; [exact Ha|].
  assert (Hc : P (digitChar (n mod 10))).
  { rewrite Forall_forall in Hd. apply Hd, digitChar_digit.
    apply Z.mod_pos_bound. lia. }
  destruct (n / 10 =? 0); [constructor; assumption|].
  apply IH. constructor; assumption.
Qed.

Lemma formatInt_Forall (P : ascii -> Prop) (n : Z) :
  Forall P digitBytes -> P "-"%char -> Forall P (formatInt n).
Proof.
  intros Hd Hm. unfold formatInt, digitsOf.
  destruct (n <? 0); [constructor; [exact Hm|]|];
    apply digitsFuel_Forall; auto.
Qed.


(** ** The shape of an exported entry *)

Ltac app_norm :=
  repeat (rewrite <- ?app_assoc; cbn [app b list_ascii_of_string]; f_equal).

Lemma exportRow_shape (s : store) (r : bookmarkRow) (title note : str) :
  bm_title r = Some title -> bm_note r = Some note ->
  exportRow s r =
  Some (b "<DT>" ++
        dialectBlock (b " ") [] (EscapeString (bm_url r)) (exportedAttrsTail s r)
                     (EscapeString title) (exportedTail note)).
Proof.
  intros Ht Hn. unfold exportRow. rewrite Ht, Hn. f_equal.
  unfold dialectBlock, exportedAttrsTail, exportedTail, attrOpen.
  destruct (negb (isEmpty match groupConcat (joinedTags s (bm_id r)) with
                          | Some t => EscapeString t
                          | None => []
                          end));
    destruct (negb (isEmpty (EscapeString note))); app_norm.
Qed.

Lemma exportedAttrsTail_gt (s : store) (r : bookmarkRow) :
  Forall (fun c => notByte gt c = true) (exportedAttrsTail s r).
Proof.
  unfold exportedAttrsTail.
  assert (F : forall n, Forall (fun c => notByte gt c = true) (formatInt n)).
  { intros n. apply formatInt_Forall; [repeat constructor | reflexivity]. }
  rewrite !Forall_app. repeat split; try apply F; try (repeat constructor; fail).
  destruct (negb (isEmpty _)); [|constructor].
  rewrite !Forall_app. repeat split; try (repeat constructor; fail).
  destruct (groupConcat _); [|constructor].
  apply EscapeString_free; [reflexivity | discriminate].
Qed.

Lemma exported_dialectOK (s : store) (r : bookmarkRow) (title : str) :
  bm_url r <> [] ->
  Forall (fun c => notByte newline c = true) title ->
  dialectOK (b " ") [] (EscapeString (bm_url r)) (exportedAttrsTail s r)
            (EscapeString title).
Proof.
  intros Hu Ft. unfold dialectOK. cbv zeta.
  split; [discriminate|]. split; [repeat constructor|]. split.
  { cbn [app]. rewrite !Forall_app. repeat split.
    - repeat constructor.
    - apply EscapeString_free; [reflexivity | discriminate].
    - constructor; [reflexivity | apply exportedAttrsTail_gt]. }
  split; [reflexivity|]. split; [reflexivity|]. split.
  { pose proof (EscapeString_length (bm_url r)) as [L _].
    destruct (bm_url r); [congruence|].
    destruct (EscapeString _); [simpl in L; lia | discriminate]. }
  split.
  - apply EscapeString_free; [reflexivity | discriminate].
  - apply EscapeString_keeps; [repeat constructor | exact Ft].
Qed.

Lemma EscapeString_no_lt (s : str) : Forall (fun c => c <> lt) (EscapeString s).
Proof.
  pose proof (EscapeString_free lt s eq_refl) as F.
  eapply Forall_impl; [|apply F; discriminate].
  intros c Hc E. subst c. discriminate.
Qed.

(** An exported entry, read back as a block. *)
Lemma parseBlock_exported (now : Z) (s : store) (r : bookmarkRow)
      (title note post : str) :
  bm_title r = Some title -> bm_note r = Some note ->
  bm_url r <> [] ->
  Forall (fun c => notByte newline c = true) title ->
  exists line job,
    exportRow s r = Some (b "<DT>" ++ line) /\
    parseBlock now (line ++ post) = Some job /\
    URI job = EscapeString (bm_url r) /\
    Title job = htmlUnescape (TrimSpace (EscapeString title)).
Proof.
  intros Ht Hn Hu Ft.
  pose proof (exported_dialectOK s r title Hu Ft) as OK.
  destruct (parseBlock_dialect now _ _ _ _ _ (exportedTail note ++ post) OK)
    as (job & t1 & t2 & Hp & Ha & Huri & Et & Hat & Hl).
  exists (dialectBlock (b " ") [] (EscapeString (bm_url r)) (exportedAttrsTail s r)
                       (EscapeString title) (exportedTail note)), job.
  split; [apply exportRow_shape; assumption|].
  assert (Eb : dialectBlock (b " ") [] (EscapeString (bm_url r))
                 (exportedAttrsTail s r) (EscapeString title) (exportedTail note)
               ++ post
             = dialectBlock (b " ") [] (EscapeString (bm_url r))
                 (exportedAttrsTail s r) (EscapeString title)
                 (exportedTail note ++ post)).
  { unfold dialectBlock. rewrite <- !app_assoc. reflexivity. }
  rewrite Eb. split; [exact Hp|]. split; [exact Huri|].
  apply parseBlock_Some in Hp. cbv zeta in Hp.
  destruct Hp as (_ & _ & Hti & _). rewrite Hti, Hat.
  rewrite (Hl (EscapeString_no_lt title)). reflexivity.
Qed.

Lemma extractDescription_spec (block : str) :
  extractDescription reDesc (TrimSpace block) =
  htmlUnescape (TrimSpace (descText block)).
Proof.
  unfold extractDescription, descText.
  destruct (FindStringSubmatch reDesc (TrimSpace block)); reflexivity.
Qed.

(** C9: the address of a candidate is the text of the [HREF] attribute as
    it stands in the block, while title and note go through
    [htmlUnescape]; the writer escapes the stored address, so a stored
    address with one of the five escaped characters comes back from its
    exported entry as the escaped text, which is another string. *)
Theorem address_kept_raw :
  (forall now block job,
      parseBlock now block = Some job ->
      firstAttr "HREF" (notByte dquote) (anchorAttrs block) = Some (URI job) /\
      Title job = htmlUnescape (TrimSpace (anchorText block)) /\
      Note job = htmlUnescape (TrimSpace (descText block))) /\
  (forall now s r title note post,
      bm_title r = Some title -> bm_note r = Some note ->
      Forall (fun c => notByte newline c = true) title ->
      existsb escapable (bm_url r) = true ->
      exists line job,
        exportRow s r = Some (b "<DT>" ++ line) /\
        parseBlock now (line ++ post) = Some job /\
        URI job = EscapeString (bm_url r) /\
        URI job <> bm_url r).
Proof.
  split.
  - intros now block job H. apply parseBlock_Some in H. cbv zeta in H.
    destruct H as (Hu & Hne & Ht & Hn & _).
    rewrite extractHref_spec in Hu. rewrite extractDescription_spec in Hn.
    split; [|split; assumption].
    destruct (firstAttr _ _ (anchorAttrs block)); congruence.
  - intros now s r title note post Ht Hn Ft He.
    assert (Hu : bm_url r <> []) by (intros E; rewrite E in He; discriminate).
    destruct (parseBlock_exported now s r title note post Ht Hn Hu Ft)
      as (line & job & Hx & Hp & Huri & _).
    exists line, job. repeat split; try assumption.
    rewrite Huri. apply EscapeString_changes. exact He.
Qed.

Lemma address_kept_raw_witness :
  (firstAttr "HREF" (notByte dquote) (anchorAttrs escapedBlock)
   = Some (b "http://h/?a=1&amp;b=2") /\
   b "Q&A" = htmlUnescape (TrimSpace (anchorText escapedBlock)) /\
   [] = htmlUnescape (TrimSpace (descText escapedBlock))) /\
  (exists line job,
      exportRow emptyStore ampRow = Some (b "<DT>" ++ line) /\
      parseBlock 7 (line ++ []) = Some job /\
      URI job = EscapeString (b "http://h/?a=1&b=2") /\
      URI job <> b "http://h/?a=1&b=2").
Proof.
  split.
  - apply (proj1 address_kept_raw 7 escapedBlock
             (mkJob (b "http://h/?a=1&amp;b=2") (b "Q&A") [] 7 7 [])).
    vm_compute. reflexivity.
  - apply (proj2 address_kept_raw 7 emptyStore ampRow (b "Q&A") [] []);
      try reflexivity. repeat constructor.
Defined.


(* ================================================================== *)
(** * Facts about the store *)
(* ================================================================== *)

Lemma fold_max_ge (x : Z) (l : list Z) :
  x <= fold_right Z.max x l /\ forall y, In y l -> y <= fold_right Z.max x l.
Proof.
  induction l as [|a l [IH1 IH2]]; cbn [fold_right In].
  - split; [lia | tauto].
  - split; [lia|]. intros y [<- | H]; [lia|]. specialize (IH2 y H). lia.
Qed.

Lemma nextRowid_fresh (ids : list Z) : ~ In (nextRowid ids) ids.
Proof.
  destruct ids as [|x l]; [intros []|]. unfold nextRowid.
  destruct (fold_max_ge x l) as [H1 H2].
  intros [E | E]; [lia|]. specialize (H2 _ E). lia.
Qed.

Lemma existsb_find {A} (p : A -> bool) (l : list A) :
  existsb p l = true -> exists x, find p l = Some x /\ In x l /\ p x = true.
Proof.
  induction l as [|a l IH]; cbn [existsb find]; [discriminate|].
  destruct (p a) eqn:E.
  - intros _. exists a. repeat split; [left; reflexivity | exact E].
  - cbn [orb]. intros H. destruct (IH H) as (x & Hf & Hi & Hp).
    exists x. repeat split; [exact Hf | right; exact Hi | exact Hp].
Qed.

Lemma find_existsb {A} (p : A -> bool) (l : list A) :
  find p l = None -> existsb p l = false.
Proof.
  induction l as [|a l IH]; cbn [existsb find]; [reflexivity|].
  destruct (p a); [discriminate|]. exact IH.
Qed.

Lemma existsb_url (uri : str) (l : list bookmarkRow) :
  existsb (fun r => str_eqb (bm_url r) uri) l = true <-> In uri (map bm_url l).
Proof.
  rewrite existsb_exists, in_map_iff. split.
  - intros (x & Hi & He). apply str_eqb_eq in He. exists x; auto.
  - intros (x & He & Hi). exists x. split; [exact Hi|].
    apply str_eqb_eq; exact He.
Qed.

Lemma existsb_tag (tag : str) (l : list tagRow) :
  existsb (fun r => str_eqb (tg_tag r) tag) l = true <-> In tag (map tg_tag l).
Proof.
  rewrite existsb_exists, in_map_iff. split.
  - intros (x & Hi & He). apply str_eqb_eq in He. exists x; auto.
  - intros (x & He & Hi). exists x. split; [exact Hi|].
    apply str_eqb_eq; exact He.
Qed.

Lemma pair_eqb_eq (x y : Z * Z) : pair_eqb x y = true <-> x = y.
Proof.
  unfold pair_eqb. destruct x, y; cbn [fst snd].
  rewrite andb_true_iff, !Z.eqb_eq. split; [intros [-> ->]; reflexivity|].
  intros H; injection H; auto.
Qed.

Lemma existsb_link (x : Z * Z) (l : list (Z * Z)) :
  existsb (pair_eqb x) l = true <-> In x l.
Proof.
  rewrite existsb_exists. split.
  - intros (y & Hi & He). apply pair_eqb_eq in He. subst; exact Hi.
  - intros H. exists x. split; [exact H | apply pair_eqb_eq; reflexivity].
Qed.

Lemma NoDup_snoc {A} (l : list A) (x : A) :
  NoDup l -> ~ In x l -> NoDup (l ++ [x]).
Proof.
  intros Hl Hx. apply NoDup_app; [exact Hl | repeat constructor; intros [] |].
  intros y Hy [<- | []]. exact (Hx Hy).
Qed.

Lemma storeGrows_refl (s : store) : storeGrows s s.
Proof. repeat split; apply incl_refl. Qed.

Lemma storeGrows_trans (s1 s2 s3 : store) :
  storeGrows s1 s2 -> storeGrows s2 s3 -> storeGrows s1 s3.
Proof.
  intros (A1 & B1 & C1) (A2 & B2 & C2).
  repeat split; eapply incl_tran; eassumption.
Qed.

(** ** [insertBookmark] *)

Ltac db_unfold :=
  unfold insertBookmark, bind, orErrorf, deferRollback, Begin,
    execInsertBookmark, RowsAffected, LastInsertId, selectBookmarkID,
    Commit, Rollback, ret, setLive.

Lemma insertBookmark_spec (f : site -> bool) (uri title note : str)
      (createdAt updatedAt : Z) (c : conn) :
  journal c = None ->
  exists r c',
    insertBookmark f uri title note createdAt updatedAt c = (r, c') /\
    journal c' = None /\
    match r with
    | Err _ =>
      live c' = live c /\ (exists s, f s = true) /\
      (txlog c' = txlog c \/ txlog c' = txlog c ++ [TxBegin; TxRollback])
    | Ok id =>
      txlog c' = txlog c ++ [TxBegin; TxCommit] /\
      bookmarkStored uri id (live c') /\
      (if existsb (fun r => str_eqb (bm_url r) uri) (bookmarks (live c))
       then live c' = live c
       else live c' =
            mkStore (bookmarks (live c) ++
                     [mkBookmark (nextRowid (map bm_id (bookmarks (live c))))
                                 uri (Some title) (Some note) createdAt updatedAt])
                    (tags (live c)) (bookmark_tags (live c)))
    end.
Proof.
  intros Hj. db_unfold. rewrite Hj.
  destruct (f BeginBookmark) eqn:F1.
  { do 2 eexists. split; [reflexivity|]. cbn. rewrite Hj.
    repeat split; eauto. }
  cbn [live journal lastRowid txlog].
  destruct (f ExecBookmark) eqn:F2.
  { do 2 eexists. split; [reflexivity|]. cbn.
    repeat split; eauto. right. rewrite <- app_assoc. reflexivity. }
  destruct (existsb _ (bookmarks (live c))) eqn:Ex.
  - destruct (f RowsAffectedBookmark) eqn:F3.
    { do 2 eexists. split; [reflexivity|]. cbn.
      repeat split; eauto. right. rewrite <- app_assoc. reflexivity. }
    cbn [resRowsAffected Z.gtb Z.compare live journal lastRowid txlog].
    destruct (f SelectBookmark) eqn:F4.
    { do 2 eexists. split; [reflexivity|]. cbn.
      repeat split; eauto. right. rewrite <- app_assoc. reflexivity. }
    destruct (existsb_find _ _ Ex) as (row & Hf & Hi & Hp). rewrite Hf.
    apply str_eqb_eq in Hp.
    cbn [live journal lastRowid txlog].
    destruct (f CommitBookmark) eqn:F5.
    { do 2 eexists. split; [reflexivity|]. cbn.
      repeat split; eauto. right. rewrite <- app_assoc. reflexivity. }
    do 2 eexists. split; [reflexivity|]. cbn.
    repeat split; eauto.
    + rewrite <- app_assoc. reflexivity.
    + exists row. auto.
  - destruct (f RowsAffectedBookmark) eqn:F3.
    { do 2 eexists. split; [reflexivity|]. cbn.
      repeat split; eauto. right. rewrite <- app_assoc. reflexivity. }
    cbn [resRowsAffected Z.gtb Z.compare live journal lastRowid txlog].
    destruct (f LastInsertIdBookmark) eqn:F4.
    { do 2 eexists. split; [reflexivity|]. cbn.
      repeat split; eauto. right. rewrite <- app_assoc. reflexivity. }
    cbn [resLastInsertId live journal lastRowid txlog].
    destruct (f CommitBookmark) eqn:F5.
    { do 2 eexists. split; [reflexivity|]. cbn.
      repeat split; eauto. right. rewrite <- app_assoc. reflexivity. }
    do 2 eexists. split; [reflexivity|]. cbn.
    repeat split; eauto.
    + rewrite <- app_assoc. reflexivity.
    + eexists. split; [apply in_or_app; right; left; reflexivity|].
      split; reflexivity.
Qed.

(** ** [insertTags] *)

Lemma constraints_add_tag (s : store) (tag : str) :
  constraints s -> ~ In tag (map tg_tag (tags s)) ->
  constraints (mkStore (bookmarks s)
                       (tags s ++ [mkTag (nextRowid (map tg_id (tags s))) tag])
                       (bookmark_tags s)).
Proof.
  intros [C1 C2 C3 C4 C5] Hn. constructor; cbn [bookmarks tags bookmark_tags];
    try assumption; rewrite map_app; cbn [map tg_id tg_tag];
    apply NoDup_snoc; try assumption.
  apply nextRowid_fresh.
Qed.

Lemma constraints_add_link (s : store) (l : Z * Z) :
  constraints s -> ~ In l (bookmark_tags s) ->
  constraints (mkStore (bookmarks s) (tags s) (bookmark_tags s ++ [l])).
Proof.
  intros [C1 C2 C3 C4 C5] Hn. constructor; cbn [bookmarks tags bookmark_tags];
    try assumption. apply NoDup_snoc; assumption.
Qed.

Lemma constraints_add_bookmark (s : store) (uri : str) (t n : option str) (cr up : Z) :
  constraints s -> ~ In uri (map bm_url (bookmarks s)) ->
  constraints (mkStore (bookmarks s ++
                        [mkBookmark (nextRowid (map bm_id (bookmarks s))) uri t n cr up])
                       (tags s) (bookmark_tags s)).
Proof.
  intros [C1 C2 C3 C4 C5] Hn. constructor; cbn [bookmarks tags bookmark_tags];
    try assumption; rewrite map_app; cbn [map bm_id bm_url];
    apply NoDup_snoc; try assumption.
  apply nextRowid_fresh.
Qed.

Lemma find_tag_snoc (tag : str) (id : Z) (l : list tagRow) :
  find (fun r => str_eqb (tg_tag r) tag) l = None ->
  find (fun r => str_eqb (tg_tag r) tag) (l ++ [mkTag id tag])
  = Some (mkTag id tag).
Proof.
  induction l as [|a l IH]; cbn [app find].
  - intros _. cbn [tg_tag]. rewrite str_eqb_refl. reflexivity.
  - destruct (str_eqb (tg_tag a) tag); [discriminate|]. exact IH.
Qed.

Lemma resolveTagID_spec (f : site -> bool) (i : nat) (tag : str) (c : conn) :
  exists r c',
    resolveTagID f i tag c = (r, c') /\
    journal c' = journal c /\ txlog c' = txlog c /\
    bookmarks (live c') = bookmarks (live c) /\
    bookmark_tags (live c') = bookmark_tags (live c) /\
    (tags (live c') = tags (live c) \/
     (~ In tag (map tg_tag (tags (live c))) /\
      tags (live c') =
      tags (live c) ++ [mkTag (nextRowid (map tg_id (tags (live c)))) tag])) /\
    match r with
    | Ok tid => tagStored tag tid (live c')
    | Err _ => exists k, f (TagCall i k) = true
    end.
Proof.
  unfold resolveTagID, selectTagID.
  destruct (f (TagCall i SelectTag)) eqn:F1.
  { do 2 eexists. split; [reflexivity|]. repeat split; eauto. }
  destruct (find _ (tags (live c))) as [row|] eqn:Ef.
  { do 2 eexists. split; [reflexivity|]. repeat split; eauto.
    apply find_some in Ef. destruct Ef as [Hi Hp]. apply str_eqb_eq in Hp.
    exists row. auto. }
  pose proof (find_existsb _ _ Ef) as Ex.
  assert (Hn : ~ In tag (map tg_tag (tags (live c)))).
  { intros H. apply existsb_tag in H. congruence. }
  unfold bind, orErrorf, execInsertTag, LastInsertId, selectTagID, ret, setLive.
  destruct (f (TagCall i ExecTag)) eqn:F2.
  { do 2 eexists. split; [reflexivity|]. repeat split; eauto. }
  rewrite Ex.
  destruct (f (TagCall i LastInsertIdTag)) eqn:F3.
  { do 2 eexists. split; [reflexivity|]. cbn. repeat split; eauto. }
  cbn [resLastInsertId].
  set (id := nextRowid (map tg_id (tags (live c)))).
  assert (St : tagStored tag id
                 (mkStore (bookmarks (live c)) (tags (live c) ++ [mkTag id tag])
                          (bookmark_tags (live c)))).
  { exists (mkTag id tag). cbn. split; [apply in_or_app; right; left|]; auto. }
  destruct (id =? 0) eqn:E0.
  - destruct (f (TagCall i ReselectTag)) eqn:F4.
    { do 2 eexists. split; [reflexivity|]. cbn. repeat split; eauto. }
    cbn [live tags].
    assert (Ef' : find (fun r => str_eqb (tg_tag r) tag)
                       (tags (live c) ++ [mkTag id tag]) = Some (mkTag id tag)).
    { apply find_tag_snoc. exact Ef. }
    rewrite Ef'.
    do 2 eexists. split; [reflexivity|]. cbn. repeat split; eauto.
  - do 2 eexists. split; [reflexivity|]. cbn. repeat split; eauto.
Qed.

Lemma execInsertLink_spec (site_ : site) (f : site -> bool) (bid tid : Z)
      (format : string) (args : list str) (c : conn) :
  exists r c',
    orErrorf (execInsertLink site_ f bid tid) format args c = (r, c') /\
    journal c' = journal c /\ txlog c' = txlog c /\
    bookmarks (live c') = bookmarks (live c) /\
    tags (live c') = tags (live c) /\
    (bookmark_tags (live c') = bookmark_tags (live c) \/
     (~ In (bid, tid) (bookmark_tags (live c)) /\
      bookmark_tags (live c') = bookmark_tags (live c) ++ [(bid, tid)])) /\
    match r with
    | Ok _ => In (bid, tid) (bookmark_tags (live c'))
    | Err _ => f site_ = true
    end.
Proof.
  unfold orErrorf, execInsertLink, setLive.
  destruct (f site_) eqn:F1.
  { do 2 eexists. split; [reflexivity|]. repeat split; eauto. }
  destruct (existsb _ (bookmark_tags (live c))) eqn:Ex.
  - do 2 eexists. split; [reflexivity|]. repeat split; eauto.
    apply existsb_link. exact Ex.
  - do 2 eexists. split; [reflexivity|]. cbn. repeat split; eauto.
    + right. split; [|reflexivity]. intros H. apply existsb_link in H. congruence.
    + apply in_or_app; right; left; reflexivity.
Qed.


Ltac splits := repeat match goal with |- _ /\ _ => split end.

Lemma tagStored_grows (t : str) (id : Z) (s s' : store) :
  storeGrows s s' -> tagStored t id s -> tagStored t id s'.
Proof.
  intros (_ & G & _) (row & Hi & Hr). exists row. split; [apply G; exact Hi | exact Hr].
Qed.

Lemma tagsStep_weaken (bid : Z) (t : str) (rest : list str) (s s' : store) :
  tagsStep bid rest s s' -> tagsStep bid (t :: rest) s s'.
Proof.
  intros (C & B & G & T & L). unfold tagsStep. splits; try assumption; try reflexivity.
  - intros row Hr. destruct (T row Hr) as [H | [H1 H2]]; [left; exact H|].
    right. split; [right; exact H1 | exact H2].
  - intros x Hx. destruct (L x Hx) as [H | (H1 & t0 & H2 & H3)]; [left; exact H|].
    right. split; [exact H1|]. exists t0. split; [right; exact H2 | exact H3].
Qed.

Lemma tagsStep_trans (bid : Z) (l : list str) (s1 s2 s3 : store) :
  tagsStep bid l s1 s2 -> tagsStep bid l s2 s3 -> tagsStep bid l s1 s3.
Proof.
  intros (C1 & B1 & G1 & T1 & L1) (C2 & B2 & G2 & T2 & L2).
  unfold tagsStep. splits; try assumption; try reflexivity.
  - congruence.
  - eapply storeGrows_trans; eassumption.
  - intros row Hr. destruct (T2 row Hr) as [H | H]; [apply T1; exact H | right; exact H].
  - intros x Hx. destruct (L2 x Hx) as [H | H]; [|right; exact H].
    destruct (L1 x H) as [H1 | (H1 & t0 & H2 & H3)]; [left; exact H1|].
    right. split; [exact H1|]. exists t0. split; [exact H2|].
    eapply tagStored_grows; eassumption.
Qed.

(** One turn of the loop: resolve the label, link it. *)
Lemma tagTurn_spec (f : site -> bool) (bid : Z) (i : nat) (tag : str) (c : conn) :
  constraints (live c) -> tag <> [] ->
  exists r c',
    (tagID <- resolveTagID f i tag ;;
     orErrorf (execInsertLink (TagCall i ExecLink) f bid tagID)
       "failed to link bookmark to tag" [formatInt bid; formatInt tagID]) c
    = (r, c') /\
    journal c' = journal c /\ txlog c' = txlog c /\
    tagsStep bid [tag] (live c) (live c') /\
    match r with
    | Ok _ => labelsLinked bid [tag] (live c')
    | Err _ => exists s, f s = true
    end.
Proof.
  intros C Ne. unfold bind.
  destruct (resolveTagID_spec f i tag c)
    as (r1 & c1 & E1 & J1 & X1 & B1 & L1 & T1 & R1).
  rewrite E1.
  assert (S1 : tagsStep bid [tag] (live c) (live c1)).
  { unfold tagsStep, storeGrows. rewrite B1, L1.
    destruct T1 as [T1 | [Hn T1]]; rewrite T1.
    - splits; auto using incl_refl.
      destruct C; constructor; rewrite ?B1, ?L1, ?T1; assumption.
    - splits; auto using incl_refl, incl_appl.
      + pose proof (constraints_add_tag _ _ C Hn) as C'.
        destruct C'; constructor; rewrite ?B1, ?L1, ?T1; assumption.
      + intros row Hr. apply in_app_or in Hr.
        destruct Hr as [Hr | [<- | []]]; [left; exact Hr|].
        right. cbn [tg_tag]. split; [left; reflexivity | exact Ne]. }
  destruct r1 as [tid | e1].
  2:{ exists (Err e1), c1. splits; try assumption; try reflexivity.
      destruct R1 as [k Hk]. eauto. }
  destruct (execInsertLink_spec (TagCall i ExecLink) f bid tid
              "failed to link bookmark to tag"
              [formatInt bid; formatInt tid] c1)
    as (r2 & c2 & E2 & J2 & X2 & B2 & T2 & L2 & R2).
  rewrite E2.
  assert (S2 : tagsStep bid [tag] (live c1) (live c2)).
  { unfold tagsStep, storeGrows. rewrite B2, T2.
    destruct S1 as (C1 & _).
    destruct L2 as [L2 | [Hn L2]]; rewrite L2.
    - splits; auto using incl_refl.
      destruct C1; constructor; rewrite ?B2, ?L2, ?T2; assumption.
    - splits; auto using incl_refl, incl_appl.
      + pose proof (constraints_add_link _ _ C1 Hn) as C'.
        destruct C'; constructor; rewrite ?B2, ?L2, ?T2; assumption.
      + intros x Hx. apply in_app_or in Hx.
        destruct Hx as [Hx | [<- | []]]; [left; exact Hx|].
        right. split; [reflexivity|]. exists tag. split; [left; reflexivity|].
        pose proof R1 as (row & Hi & Hr1 & Hr2). exists row.
        split; [rewrite T2; exact Hi | auto]. }
  exists r2, c2. splits; try congruence.
  - eapply tagsStep_trans; eassumption.
  - destruct r2 as [u | e2]; [|eauto].
    intros t [<- | []] _. exists tid. split; [|exact R2].
    destruct R1 as (row & Hi & Hr1 & Hr2). exists row.
    split; [rewrite T2; exact Hi | auto].
Qed.

Lemma tagsStep_mono (bid : Z) (l l' : list str) (s s' : store) :
  incl l l' -> tagsStep bid l s s' -> tagsStep bid l' s s'.
Proof.
  intros Hi (C & B & G & T & L). unfold tagsStep. splits; try assumption; try reflexivity.
  - intros row Hr. destruct (T row Hr) as [H | [H1 H2]]; [left; exact H|].
    right. split; [apply Hi; exact H1 | exact H2].
  - intros x Hx. destruct (L x Hx) as [H | (H1 & t0 & H2 & H3)]; [left; exact H|].
    right. split; [exact H1|]. exists t0. split; [apply Hi; exact H2 | exact H3].
Qed.

Lemma tagsStep_refl (bid : Z) (l : list str) (s : store) :
  constraints s -> tagsStep bid l s s.
Proof.
  intros C. unfold tagsStep. splits; auto using storeGrows_refl.
Qed.

Lemma labelsLinked_grows (bid : Z) (l : list str) (s s' : store) :
  storeGrows s s' -> labelsLinked bid l s -> labelsLinked bid l s'.
Proof.
  intros (_ & G2 & G3) H t Ht Hne.
  destruct (H t Ht Hne) as (tid & (row & Hi & Hr) & Hl).
  exists tid. split; [exists row; split; [apply G2; exact Hi | exact Hr]|].
  apply G3; exact Hl.
Qed.

Lemma tagsLoop_spec (f : site -> bool) (bid : Z) (tagList : list str) :
  forall (i : nat) (c : conn),
    constraints (live c) ->
    exists r c',
      tagsLoop f bid i tagList c = (r, c') /\
      journal c' = journal c /\ txlog c' = txlog c /\
      tagsStep bid tagList (live c) (live c') /\
      match r with
      | Ok _ => labelsLinked bid tagList (live c')
      | Err _ => exists s, f s = true
      end.
Proof.
  induction tagList as [|tag rest IH]; intros i c C.
  - exists (Ok tt), c. cbn [tagsLoop ret]. splits; auto using tagsStep_refl.
    intros t [].
  - cbn [tagsLoop].
    destruct (isEmpty tag) eqn:Etag.
    { destruct (IH (S i) c C) as (r & c' & E & J & X & St & R).
      exists r, c'. splits; try assumption; try reflexivity.
      - apply tagsStep_weaken; exact St.
      - destruct r; [|exact R]. intros t [Et | Ht] Hne.
        + subst t. destruct tag; [congruence | discriminate].
        + apply R; assumption. }
    assert (Ne : tag <> []) by (intros ->; discriminate).
    destruct (tagTurn_spec f bid i tag c C Ne) as (r1 & c1 & E1 & J1 & X1 & S1 & R1).
    assert (Eb : tagsLoop f bid i (tag :: rest) c =
                 match r1 with
                 | Ok _ => tagsLoop f bid (S i) rest c1
                 | Err e => (Err e, c1)
                 end).
    { cbn [tagsLoop]. rewrite Etag. unfold bind in E1 |- *.
      destruct (resolveTagID f i tag c) as [[tid | e] cx];
        [|injection E1 as <- <-; reflexivity].
      rewrite E1. destruct r1; reflexivity. }
    cbn [tagsLoop] in Eb. rewrite Etag in Eb. rewrite Eb.
    assert (S1' : tagsStep bid (tag :: rest) (live c) (live c1)).
    { eapply tagsStep_mono; [|exact S1]. intros x [<- | []]; left; reflexivity. }
    destruct r1 as [u | e1].
    2:{ exists (Err e1), c1. splits; try assumption; try reflexivity. }
    destruct (IH (S i) c1 (proj1 S1)) as (r & c' & E & J & X & St & R).
    exists r, c'. splits; try congruence.
    + eapply tagsStep_trans; [exact S1' | apply tagsStep_weaken; exact St].
    + destruct r; [|exact R].
      intros t [Et | Ht] Hne; [|apply R; assumption].
      apply (labelsLinked_grows bid [tag] (live c1));
        [apply St | exact R1 | left; exact Et | exact Hne].
Qed.

Lemma insertTags_spec (f : site -> bool) (bid : Z) (tagList : list str) (c : conn) :
  journal c = None -> constraints (live c) ->
  exists r c',
    insertTags f bid tagList c = (r, c') /\
    journal c' = None /\
    match r with
    | Err _ =>
      live c' = live c /\ (exists s, f s = true) /\
      (txlog c' = txlog c \/ txlog c' = txlog c ++ [TxBegin; TxRollback])
    | Ok _ =>
      txlog c' = txlog c ++ [TxBegin; TxCommit] /\
      tagsStep bid tagList (live c) (live c') /\
      labelsLinked bid tagList (live c')
    end.
Proof.
  intros Hj C. unfold insertTags, bind at 1, orErrorf at 1, Begin.
  destruct (f BeginTags) eqn:F1.
  { do 2 eexists. split; [reflexivity|]. splits; eauto. }
  rewrite Hj. unfold deferRollback, bind.
  set (c0 := mkConn (live c) (Some (live c)) (lastRowid c) (txlog c ++ [TxBegin])).
  destruct (tagsLoop_spec f bid tagList 0%nat c0 C)
    as (r & c1 & E & J & X & St & R).
  rewrite E. unfold c0 in J, X, St. cbn [journal txlog live] in J, X, St.
  destruct r as [u | e].
  2:{ do 2 eexists. split; [reflexivity|]. unfold Rollback. rewrite J.
      cbn [live journal txlog]. splits; eauto.
      right. rewrite X, <- app_assoc. reflexivity. }
  unfold orErrorf, Commit. rewrite J.
  destruct (f CommitTags) eqn:F2.
  - do 2 eexists. split; [reflexivity|]. unfold Rollback. rewrite J.
    cbn [live journal txlog]. splits; eauto.
    right. rewrite X, <- app_assoc. reflexivity.
  - do 2 eexists. split; [reflexivity|]. unfold Rollback.
    cbn [live journal txlog]. splits; auto.
    rewrite X, <- app_assoc. reflexivity.
Qed.

Lemma insertBookmark_constraints (f : site -> bool) (uri title note : str)
      (createdAt updatedAt : Z) (c : conn) :
  journal c = None -> constraints (live c) ->
  constraints (live (snd (insertBookmark f uri title note createdAt updatedAt c))) /\
  storeGrows (live c)
             (live (snd (insertBookmark f uri title note createdAt updatedAt c))) /\
  tags (live (snd (insertBookmark f uri title note createdAt updatedAt c)))
  = tags (live c) /\
  bookmark_tags (live (snd (insertBookmark f uri title note createdAt updatedAt c)))
  = bookmark_tags (live c) /\
  (In uri (map bm_url (bookmarks (live c))) ->
   live (snd (insertBookmark f uri title note createdAt updatedAt c)) = live c).
Proof.
  intros Hj C.
  destruct (insertBookmark_spec f uri title note createdAt updatedAt c Hj)
    as (r & c' & E & J & R).
  rewrite E. cbn [snd].
  destruct r as [id | e].
  - destruct R as (_ & _ & R).
    destruct (existsb _ (bookmarks (live c))) eqn:Ex.
    + rewrite R. splits; auto using storeGrows_refl.
    + rewrite R. cbn [tags bookmark_tags]. splits; auto.
      * apply constraints_add_bookmark; [exact C|].
        intros H. apply existsb_url in H. congruence.
      * unfold storeGrows. cbn [bookmarks tags bookmark_tags].
        splits; auto using incl_refl, incl_appl.
      * intros H. apply existsb_url in H. congruence.
  - destruct R as (R & _). rewrite R. splits; auto using storeGrows_refl.
Qed.


Lemma constraints_empty : constraints emptyStore.
Proof. constructor; constructor. Qed.

(* ================================================================== *)
(** * Transactions: main results *)
(* ================================================================== *)

(** Against C2 as it is written: the driver fails the commit of the label
    transaction of the example candidate; the worker reports the failure,
    and yet the entry of the candidate is in the store, committed by an
    earlier transaction of its own. *)
Lemma entry_persists_when_labels_fail :
  ~ nothingPersistedOnError failCommitTags exampleJob (openConn emptyStore).
Proof.
  unfold nothingPersistedOnError. intros H.
  assert (E : fst (workerJob failCommitTags exampleJob (openConn emptyStore))
              <> None) by (vm_compute; discriminate).
  specialize (H E). vm_compute in H. discriminate.
Qed.

(** C2, as the code has it: a worker runs two transactions for a
    candidate, one after the other, the first for the entry and the second
    for all its labels and links.  Each is atomic: when a step fails the
    store is as it was when that transaction began, and it commits only
    when all its steps succeeded.  So a failure in the label transaction
    leaves the entry of the first transaction in the store.  No
    transaction is open before or after a candidate. *)
Theorem two_transactions_per_candidate (f : site -> bool) (job : Job) (c : conn) :
  journal c = None -> constraints (live c) ->
  exists r1 c1,
    insertBookmark f (URI job) (Title job) (Note job)
                   (CreatedAt job) (UpdatedAt job) c = (r1, c1) /\
    journal c1 = None /\
    match r1 with
    | Err e =>
      workerJob f job c
      = (Some (Errorf "failed to insert bookmark" [URI job] e), c1) /\
      live c1 = live c /\
      (txlog c1 = txlog c \/ txlog c1 = txlog c ++ [TxBegin; TxRollback])
    | Ok id =>
      txlog c1 = txlog c ++ [TxBegin; TxCommit] /\
      bookmarkStored (URI job) id (live c1) /\
      exists r2 c2,
        insertTags f id (Tags job) c1 = (r2, c2) /\
        journal c2 = None /\
        match r2 with
        | Err e =>
          workerJob f job c
          = (Some (Errorf "failed to insert tags for bookmark" [URI job] e), c2) /\
          live c2 = live c1 /\
          (txlog c2 = txlog c1 \/ txlog c2 = txlog c1 ++ [TxBegin; TxRollback])
        | Ok _ =>
          workerJob f job c = (None, c2) /\
          txlog c2 = txlog c1 ++ [TxBegin; TxCommit] /\
          labelsLinked id (Tags job) (live c2)
        end
    end.
Proof.
  intros Hj C.
  destruct (insertBookmark_spec f (URI job) (Title job) (Note job)
              (CreatedAt job) (UpdatedAt job) c Hj) as (r1 & c1 & E1 & J1 & R1).
  pose proof (insertBookmark_constraints f (URI job) (Title job) (Note job)
                (CreatedAt job) (UpdatedAt job) c Hj C) as (C1 & _).
  rewrite E1 in C1. cbn [snd] in C1.
  exists r1, c1. split; [exact E1|]. split; [exact J1|].
  unfold workerJob. rewrite E1.
  destruct r1 as [id | e].
  - destruct R1 as (X1 & S1 & _). split; [exact X1|]. split; [exact S1|].
    destruct (insertTags_spec f id (Tags job) c1 J1 C1) as (r2 & c2 & E2 & J2 & R2).
    exists r2, c2. split; [exact E2|]. split; [exact J2|]. rewrite E2.
    destruct r2 as [u | e].
    + destruct R2 as (X2 & _ & L2). auto.
    + destruct R2 as (L2 & _ & X2). auto.
  - destruct R1 as (L1 & _ & X1). auto.
Qed.

Lemma two_transactions_per_candidate_witness :
  exists r1 c1,
    insertBookmark failCommitTags (URI exampleJob) (Title exampleJob)
      (Note exampleJob) (CreatedAt exampleJob) (UpdatedAt exampleJob)
      (openConn emptyStore) = (r1, c1) /\
    journal c1 = None /\
    match r1 with
    | Err e =>
      workerJob failCommitTags exampleJob (openConn emptyStore)
      = (Some (Errorf "failed to insert bookmark" [URI exampleJob] e), c1) /\
      live c1 = live (openConn emptyStore) /\
      (txlog c1 = txlog (openConn emptyStore) \/
       txlog c1 = txlog (openConn emptyStore) ++ [TxBegin; TxRollback])
    | Ok id =>
      txlog c1 = txlog (openConn emptyStore) ++ [TxBegin; TxCommit] /\
      bookmarkStored (URI exampleJob) id (live c1) /\
      exists r2 c2,
        insertTags failCommitTags id (Tags exampleJob) c1 = (r2, c2) /\
        journal c2 = None /\
        match r2 with
        | Err e =>
          workerJob failCommitTags exampleJob (openConn emptyStore)
          = (Some (Errorf "failed to insert tags for bookmark" [URI exampleJob] e), c2) /\
          live c2 = live c1 /\
          (txlog c2 = txlog c1 \/ txlog c2 = txlog c1 ++ [TxBegin; TxRollback])
        | Ok _ =>
          workerJob failCommitTags exampleJob (openConn emptyStore) = (None, c2) /\
          txlog c2 = txlog c1 ++ [TxBegin; TxCommit] /\
          labelsLinked id (Tags exampleJob) (live c2)
        end
    end.
Proof.
  apply (two_transactions_per_candidate failCommitTags exampleJob
           (openConn emptyStore)).
  - reflexivity.
  - constructor; constructor.
Defined.


(* ================================================================== *)
(** * Facts about the pool *)
(* ================================================================== *)

Lemma setNth_split {A} (l : list A) (w : nat) (y : A) :
  nth_error l w = Some y ->
  exists l1 l2, l = l1 ++ y :: l2 /\ forall x, setNth w x l = l1 ++ x :: l2.
Proof.
  revert w; induction l as [|a l IH]; intros [|w]; cbn [nth_error]; try discriminate.
  - intros H; injection H as ->. exists [], l. split; reflexivity.
  - intros H. destruct (IH w H) as (l1 & l2 & E & S).
    exists (a :: l1), l2. split; [rewrite E; reflexivity|].
    intros x. cbn [setNth app]. rewrite S. reflexivity.
Qed.

Lemma bookmarkStored_grows (uri : str) (id : Z) (s s' : store) :
  storeGrows s s' -> bookmarkStored uri id s -> bookmarkStored uri id s'.
Proof.
  intros (G & _) (row & Hi & Hr). exists row. split; [apply G; exact Hi | exact Hr].
Qed.

Lemma outcomeOK_grows (f : site -> bool) (job : Job) (o : outcome) (s s' : store) :
  storeGrows s s' -> outcomeOK f job o s -> outcomeOK f job o s'.
Proof.
  intros G. destruct o as [e|]; cbn [outcomeOK]; [auto|].
  intros (id & Hb & Hl). exists id.
  split; [eapply bookmarkStored_grows | eapply labelsLinked_grows]; eassumption.
Qed.

Lemma pending_split (l1 l2 : list wstate) (y : wstate) (q : list (nat * Job)) :
  flat_map inflight (l1 ++ y :: l2) ++ q =
  flat_map inflight l1 ++ inflight y ++ flat_map inflight l2 ++ q.
Proof.
  rewrite flat_map_app. cbn [flat_map]. rewrite <- !app_assoc. reflexivity.
Qed.

Lemma weight_split (l1 l2 : list wstate) (y : wstate) :
  list_sum (map weight (l1 ++ y :: l2)) =
  (list_sum (map weight l1) + weight y + list_sum (map weight l2))%nat.
Proof.
  rewrite map_app, list_sum_app. simpl. lia.
Qed.

(** The store moved from [s] to [s'] by a step for a job of the run. *)
Lemma poolInv_move (faults : nat -> site -> bool) (jobs : list Job) (c0 : conn)
      (p p' : pool) :
  poolInv faults jobs c0 p ->
  journal (pconn p') = None ->
  constraints (live (pconn p')) ->
  storeGrows (live (pconn p)) (live (pconn p')) ->
  (forall n job, In (n, job) (pending p') -> In (n, job) (pending p)) ->
  (forall n, In n (map fst (presults p)) \/ In n (map fst (pending p)) ->
             In n (map fst (presults p')) \/ In n (map fst (pending p'))) ->
  (List.length (presults p') + List.length (pending p')
   = List.length (presults p) + List.length (pending p))%nat ->
  (forall n job id, In (Inserted n job id) (pworkers p') ->
                    In (Inserted n job id) (pworkers p) \/
                    (In (n, job) (pending p) /\
                     bookmarkStored (URI job) id (live (pconn p')))) ->
  (forall n o, In (n, o) (presults p') ->
               In (n, o) (presults p) \/
               exists job, In (n, job) (pending p) /\
                           outcomeOK (faults n) job o (live (pconn p'))) ->
  (forall row, In row (tags (live (pconn p'))) ->
               In row (tags (live (pconn p))) \/
               exists n job, In (n, job) (pending p) /\
                             In (tg_tag row) (Tags job) /\ tg_tag row <> []) ->
  (bookmarks (live (pconn p')) = bookmarks (live (pconn p)) \/
   exists n job, In (n, job) (pending p) /\
                 (In (URI job) (map bm_url (bookmarks (live (pconn p)))) ->
                  bookmarks (live (pconn p')) = bookmarks (live (pconn p)))) ->
  poolInv faults jobs c0 p'.
Proof.
  intros [I1 I2 I3 I4 I5 I6 I7 I8 I9 I10] J C G Hp Ha Hc Hi Hr Ht Hk.
  constructor.
  - exact J.
  - exact C.
  - eapply storeGrows_trans; eassumption.
  - intros n job H. apply I4, Hp, H.
  - intros n H. apply Ha, I5, H.
  - lia.
  - intros n job id H. destruct (Hi n job id H) as [H1 | [_ H1]]; [|exact H1].
    eapply bookmarkStored_grows; [exact G | exact (I7 n job id H1)].
  - intros n o H. destruct (Hr n o H) as [H1 | (job & H1 & H2)].
    + destruct (I8 n o H1) as (job & Hj & Ho). exists job. split; [exact Hj|].
      eapply outcomeOK_grows; eassumption.
    + exists job. split; [apply I4; exact H1 | exact H2].
  - intros row H. destruct (Ht row H) as [H1 | (n & job & H1 & H2)].
    + apply I9; exact H1.
    + right. exists job. split; [|exact H2].
      eapply nth_error_In; eapply I4; exact H1.
  - intros K. rewrite <- (I10 K).
    destruct Hk as [Hk | (n & job & H1 & H2)]; [exact Hk|].
    apply H2. rewrite (I10 K). apply K. eapply nth_error_In; eapply I4; exact H1.
Qed.

Ltac pool_norm :=
  unfold pending; cbn [pconn pjobs pworkers presults];
  rewrite ?pending_split; cbn [inflight app].

Ltac in_solve :=
  rewrite ?map_app, ?in_app_iff in *; cbn [In map fst] in *;
  rewrite ?map_app, ?in_app_iff in *; cbn [In map fst] in *;
  intuition (subst; auto; try congruence).

Ltac pool_goal :=
  pool_norm;
  match goal with
  | Es : forall x, setNth _ x _ = _, El : pworkers _ = _ |- _ =>
    rewrite ?Es, ?El
  end;
  rewrite ?pending_split; cbn [inflight app].

Ltac len_solve :=
  rewrite ?length_app; cbn [List.length]; rewrite ?length_app;
  cbn [List.length]; lia.

Lemma poolStep_inv (faults : nat -> site -> bool) (jobs : list Job) (c0 : conn)
      (w : nat) (p p' : pool) :
  poolInv faults jobs c0 p ->
  poolStep faults w p = Some p' ->
  poolInv faults jobs c0 p' /\
  (movesLeft p' < movesLeft p)%nat /\
  List.length (pworkers p') = List.length (pworkers p).
Proof.
  intros I. unfold poolStep.
  destruct (nth_error (pworkers p) w) as [y|] eqn:En; [|discriminate].
  destruct (setNth_split _ _ _ En) as (l1 & l2 & El & Es).
  assert (Len : forall x, List.length (setNth w x (pworkers p))
                          = List.length (pworkers p)).
  { intros x. rewrite Es, El, !length_app. reflexivity. }
  destruct y as [|n job|n job id].
  - (* receive *)
    destruct (pjobs p) as [|[n job] rest] eqn:Eq; [discriminate|].
    intros H; injection H as <-. split; [|split].
    + apply (poolInv_move faults jobs c0 p _ I).
      * apply I.
      * apply I.
      * apply storeGrows_refl.
      * pool_goal. rewrite Eq. intros n0 job0. in_solve.
      * pool_goal. rewrite Eq. intros n0. in_solve.
      * pool_goal. rewrite Eq. len_solve.
      * pool_goal. intros n0 job0 id0 H. apply in_app_or in H.
        destruct H as [H | [H | H]]; [left | discriminate | left]; in_solve.
      * intros n0 o H; left; exact H.
      * intros row H; left; exact H.
      * left; reflexivity.
    + unfold movesLeft. cbn [pjobs pworkers]. rewrite Es, El, Eq, !weight_split.
      cbn [weight List.length]. lia.
    + apply Len.
  - (* the entry transaction *)
    destruct (insertBookmark_spec (faults n) (URI job) (Title job) (Note job)
                (CreatedAt job) (UpdatedAt job) (pconn p) (inv_journal _ _ _ _ I))
      as (r & c & E & J & R).
    pose proof (insertBookmark_constraints (faults n) (URI job) (Title job)
                  (Note job) (CreatedAt job) (UpdatedAt job) (pconn p)
                  (inv_journal _ _ _ _ I) (inv_constraints _ _ _ _ I))
      as (C & G & T & L & K).
    rewrite E in C, G, T, L, K. cbn [snd] in C, G, T, L, K. rewrite E.
    assert (Hin : In (n, job) (pending p)).
    { unfold pending. rewrite El, pending_split. cbn [inflight]. in_solve. }
    destruct r as [id | e]; intros H; injection H as <-; (split; [|split]).
    + apply (poolInv_move faults jobs c0 p _ I).
      * exact J.
      * exact C.
      * exact G.
      * pool_goal. intros n0 job0. in_solve.
      * pool_goal. intros n0. in_solve.
      * pool_goal. len_solve.
      * pool_goal. intros n0 job0 id0 H. apply in_app_or in H.
        destruct H as [H | [H | H]].
        -- left. in_solve.
        -- injection H as <- <- <-. right. split; [|apply R].
           pose proof Hin as Hin'. unfold pending in Hin'.
           rewrite El, pending_split in Hin'. exact Hin'.
        -- left. in_solve.
      * intros n0 o H; left; exact H.
      * intros row H; left. cbn [pconn] in H. rewrite <- T. exact H.
      * right. exists n, job. split; [exact Hin|]. intros Hk. cbn [pconn].
        rewrite (K Hk). reflexivity.
    + unfold movesLeft. cbn [pjobs pworkers]. rewrite Es, El, !weight_split.
      cbn [weight]. lia.
    + apply Len.
    + apply (poolInv_move faults jobs c0 p _ I).
      * exact J.
      * exact C.
      * exact G.
      * pool_goal. intros n0 job0. in_solve.
      * pool_goal. intros n0. in_solve.
      * pool_goal. len_solve.
      * pool_goal. intros n0 job0 id0 H. apply in_app_or in H.
        destruct H as [H | [H | H]]; [left | discriminate | left]; in_solve.
      * cbn [presults pconn]. intros n0 o H. apply in_app_or in H.
        destruct H as [H | [H | []]].
        -- left; exact H.
        -- injection H as <- <-. right. exists job. split; [exact Hin|].
           cbn [outcomeOK]. split; [eauto | apply R].
      * intros row H; left. cbn [pconn] in H. rewrite <- T. exact H.
      * left. cbn [pconn]. destruct R as (R & _). rewrite R. reflexivity.
    + unfold movesLeft. cbn [pjobs pworkers]. rewrite Es, El, !weight_split.
      cbn [weight]. lia.
    + apply Len.
  - (* the label transaction *)
    destruct (insertTags_spec (faults n) id (Tags job) (pconn p)
                (inv_journal _ _ _ _ I) (inv_constraints _ _ _ _ I))
      as (r & c & E & J & R).
    rewrite E.
    assert (Hin : In (n, job) (pending p)).
    { unfold pending. rewrite El, pending_split. cbn [inflight]. in_solve. }
    assert (Hst : bookmarkStored (URI job) id (live (pconn p))).
    { apply (inv_inserted _ _ _ _ I n job id). rewrite El. in_solve. }
    destruct r as [u | e]; intros H; injection H as <-; (split; [|split]).
    + destruct R as (X & (C & B & G & T & L) & LL).
      apply (poolInv_move faults jobs c0 p _ I).
      * exact J.
      * exact C.
      * exact G.
      * pool_goal. intros n0 job0. in_solve.
      * pool_goal. intros n0. in_solve.
      * pool_goal. len_solve.
      * pool_goal. intros n0 job0 id0 H. apply in_app_or in H.
        destruct H as [H | [H | H]]; [left | discriminate | left]; in_solve.
      * cbn [presults pconn]. intros n0 o H. apply in_app_or in H.
        destruct H as [H | [H | []]].
        -- left; exact H.
        -- injection H as <- <-. right. exists job. split; [exact Hin|].
           cbn [outcomeOK]. exists id. split; [|exact LL].
           eapply bookmarkStored_grows; eassumption.
      * cbn [pconn]. intros row H. destruct (T row H) as [H1 | H1]; [left; exact H1|].
        right. exists n, job. split; [exact Hin | exact H1].
      * left. exact B.
    + unfold movesLeft. cbn [pjobs pworkers]. rewrite Es, El, !weight_split.
      cbn [weight]. lia.
    + apply Len.
    + destruct R as (Lv & Fl & X).
      apply (poolInv_move faults jobs c0 p _ I).
      * exact J.
      * cbn [pconn]. rewrite Lv. apply I.
      * cbn [pconn]. rewrite Lv. apply storeGrows_refl.
      * pool_goal. intros n0 job0. in_solve.
      * pool_goal. intros n0. in_solve.
      * pool_goal. len_solve.
      * pool_goal. intros n0 job0 id0 H. apply in_app_or in H.
        destruct H as [H | [H | H]]; [left | discriminate | left]; in_solve.
      * cbn [presults pconn]. intros n0 o H. apply in_app_or in H.
        destruct H as [H | [H | []]].
        -- left; exact H.
        -- injection H as <- <-. right. exists job. split; [exact Hin|].
           cbn [outcomeOK]. split; [eauto | exact Fl].
      * cbn [pconn]. rewrite Lv. intros row H; left; exact H.
      * left. cbn [pconn]. rewrite Lv. reflexivity.
    + unfold movesLeft. cbn [pjobs pworkers]. rewrite Es, El, !weight_split.
      cbn [weight]. lia.
    + apply Len.
Qed.

Lemma canMove_step (faults : nat -> site -> bool) (p : pool) (w : nat) :
  canMove p w = true -> exists p', poolStep faults w p = Some p'.
Proof.
  unfold canMove, poolStep.
  destruct (nth_error (pworkers p) w) as [[|n job|n job id]|]; [| | |discriminate].
  - destruct (pjobs p) as [|[n job] rest]; [discriminate|]. eauto.
  - intros _. destruct (insertBookmark _ _ _ _ _ _ _) as [[id | e] c]; eauto.
  - intros _. destruct (insertTags _ _ _ _) as [[u | e] c]; eauto.
Qed.

Lemma enabled_In (p : pool) (w : nat) :
  In w (enabled p) <-> (w < List.length (pworkers p))%nat /\ canMove p w = true.
Proof.
  unfold enabled. rewrite filter_In, in_seq. intuition lia.
Qed.

Lemma enabled_nil (p : pool) :
  enabled p = [] -> pworkers p <> [] -> pending p = [].
Proof.
  intros He Hw.
  assert (A : forall w, (w < List.length (pworkers p))%nat -> canMove p w = false).
  { intros w Hl. destruct (canMove p w) eqn:E; [|reflexivity].
    assert (In w (enabled p)) by (apply enabled_In; auto).
    rewrite He in H. destruct H. }
  assert (B : forall y, In y (pworkers p) -> y = Idle /\ pjobs p = []).
  { intros y Hy. apply In_nth_error in Hy. destruct Hy as [w Hw'].
    assert (Hl : (w < List.length (pworkers p))%nat)
      by (apply nth_error_Some; congruence).
    specialize (A w Hl). unfold canMove in A. rewrite Hw' in A.
    destruct y; [|discriminate|discriminate].
    destruct (pjobs p); [auto | discriminate]. }
  unfold pending.
  assert (Q : pjobs p = []).
  { destruct (pworkers p) as [|y l]; [congruence|].
    apply (B y). left; reflexivity. }
  rewrite Q, app_nil_r.
  clear - B. induction (pworkers p) as [|y l IH]; [reflexivity|].
  cbn [flat_map]. rewrite (proj1 (B y (or_introl eq_refl))). cbn [inflight app].
  apply IH. intros z Hz. apply B. right; exact Hz.
Qed.

Lemma movesLeft_zero (p : pool) : movesLeft p = O -> enabled p = [].
Proof.
  unfold movesLeft. intros H.
  assert (Q : pjobs p = []) by (destruct (pjobs p); [reflexivity | simpl in H; lia]).
  assert (W : list_sum (map weight (pworkers p)) = O) by lia.
  destruct (enabled p) as [|w l] eqn:E; [reflexivity|].
  assert (Hw : In w (enabled p)) by (rewrite E; left; reflexivity).
  apply enabled_In in Hw. destruct Hw as [Hl Hc]. unfold canMove in Hc.
  destruct (nth_error (pworkers p) w) as [y|] eqn:En; [|discriminate].
  destruct (setNth_split _ _ _ En) as (l1 & l2 & El & _).
  rewrite El, weight_split in W.
  destruct y; cbn [weight] in W; try lia. rewrite Q in Hc. discriminate.
Qed.

Lemma runPool_inv (faults : nat -> site -> bool) (sched : nat -> nat)
      (jobs : list Job) (c0 : conn) (fuel : nat) :
  forall (t : nat) (p : pool),
    poolInv faults jobs c0 p ->
    (movesLeft p <= fuel)%nat ->
    poolInv faults jobs c0 (runPool faults sched fuel t p) /\
    enabled (runPool faults sched fuel t p) = [] /\
    List.length (pworkers (runPool faults sched fuel t p))
    = List.length (pworkers p).
Proof.
  induction fuel as [|fuel IH]; intros t p I Hm; cbn [runPool].
  - split; [exact I|]. split; [|reflexivity]. apply movesLeft_zero. lia.
  - destruct (enabled p) as [|w0 ws] eqn:E; [auto|].
    set (w := nth (sched t mod List.length (w0 :: ws)) (w0 :: ws) w0).
    assert (Hw : In w (enabled p)).
    { rewrite E. apply nth_In. apply Nat.mod_upper_bound. discriminate. }
    apply enabled_In in Hw. destruct Hw as [_ Hc].
    destruct (canMove_step faults p w Hc) as [p' Hs]. rewrite Hs.
    destruct (poolStep_inv faults jobs c0 w p p' I Hs) as (I' & Hlt & Hlen).
    destruct (IH (S t) p' I' ltac:(lia)) as (I'' & He & Hl).
    split; [exact I''|]. split; [exact He|]. congruence.
Qed.

Lemma number_In {A} (l : list A) (i n : nat) (x : A) :
  In (n, x) (number i l) <-> (i <= n)%nat /\ nth_error l (n - i) = Some x.
Proof.
  revert i; induction l as [|a l IH]; intros i; cbn [number In].
  - split; [intros [] | intros [_ H]]. destruct (n - i)%nat; discriminate.
  - rewrite IH. split.
    + intros [H | [H1 H2]].
      * injection H as <- <-. rewrite Nat.sub_diag. auto.
      * split; [lia|]. replace (n - i)%nat with (S (n - S i)) by lia. exact H2.
    + intros [H1 H2]. destruct (Nat.eq_dec i n) as [<- | Hne].
      * rewrite Nat.sub_diag in H2. injection H2 as <-. left; reflexivity.
      * right. split; [lia|].
        replace (n - i)%nat with (S (n - S i)) in H2 by lia. exact H2.
Qed.

Lemma number_fst {A} (l : list A) (i : nat) :
  map fst (number i l) = seq i (List.length l).
Proof.
  revert i; induction l as [|a l IH]; intros i; cbn [number map seq List.length fst];
    [reflexivity|]. rewrite IH. reflexivity.
Qed.

Lemma flat_map_idle (k : nat) : flat_map inflight (repeat Idle k) = [].
Proof. induction k; [reflexivity | exact IHk]. Qed.

Lemma poolInv_init (faults : nat -> site -> bool) (jobs : list Job) (c : conn) :
  journal c = None -> constraints (live c) ->
  poolInv faults jobs c (mkPool c (number 0 jobs) (repeat Idle workerCount) []).
Proof.
  intros J C.
  assert (P : pending (mkPool c (number 0 jobs) (repeat Idle workerCount) [])
              = number 0 jobs).
  { unfold pending. cbn [pworkers pjobs]. rewrite flat_map_idle. reflexivity. }
  constructor; rewrite ?P; cbn [pconn presults pworkers pjobs].
  - exact J.
  - exact C.
  - apply storeGrows_refl.
  - intros n job H. apply number_In in H. destruct H as [_ H].
    rewrite Nat.sub_0_r in H. exact H.
  - intros n H. right. rewrite number_fst. apply in_seq. lia.
  - cbn [List.length]. rewrite <- (length_map fst), number_fst, length_seq.
    reflexivity.
  - intros n job id H. apply repeat_spec in H. discriminate.
  - intros n o [].
  - intros row H; left; exact H.
  - intros _; reflexivity.
Qed.

(** What a run of [importBookmarks] ends in. *)
Lemma importBookmarks_inv (e : env) (content : str) (c : conn) :
  journal c = None -> constraints (live c) ->
  let r := importBookmarks e content c in
  exists p,
    poolInv (envFaults e) (importJobs r) c p /\
    pending p = [] /\
    importResults r = presults p /\ importConn r = pconn p /\
    importJobs r = fst (parseBlocks (Split content (b "<DT>")) (envClock e)) /\
    successCount r = List.length (filter isNil (presults p)).
Proof.
  intros J C. cbv zeta. unfold importBookmarks.
  destruct (parseBlocks (Split content (b "<DT>")) (envClock e)) as [jobs clk].
  cbn [importResults importConn importJobs successCount fst].
  set (p0 := mkPool c (number 0 jobs) (repeat Idle workerCount) []).
  assert (M : (movesLeft p0 <= 3 * List.length jobs)%nat).
  { unfold movesLeft, p0. cbn [pjobs pworkers].
    rewrite <- (length_map fst), number_fst, length_seq. simpl. lia. }
  destruct (runPool_inv (envFaults e) (envSched e) jobs c (3 * List.length jobs)
              0%nat p0 (poolInv_init _ _ _ J C) M) as (I & He & Hl).
  eexists. split; [exact I|]. split; [|auto].
  apply enabled_nil; [exact He|]. intros E. rewrite E in Hl. discriminate.
Qed.


Lemma parseBlock_URI (now1 now2 : Z) (block : str) :
  option_map URI (parseBlock now1 block) = option_map URI (parseBlock now2 block).
Proof.
  unfold parseBlock.
  destruct (isEmpty (TrimSpace block)); [reflexivity|].
  destruct (List.length _ <? 3)%nat; [reflexivity|].
  destruct (isEmpty (extractHref reHref _)); reflexivity.
Qed.

Lemma parseLoop_URI (now1 now2 : Z) (blocks : list str) :
  map URI (parseLoop now1 blocks) = map URI (parseLoop now2 blocks).
Proof.
  induction blocks as [|blk blocks IH]; cbn [parseLoop]; [reflexivity|].
  pose proof (parseBlock_URI now1 now2 blk) as H.
  destruct (parseBlock now1 blk), (parseBlock now2 blk); cbn [option_map] in H;
    try discriminate; cbn [map]; congruence.
Qed.

Lemma filter_all {A} (f : A -> bool) (l : list A) :
  List.length (filter f l) = List.length l -> forall x, In x l -> f x = true.
Proof.
  induction l as [|a l IH]; cbn [filter List.length]; [intros _ x []|].
  pose proof (filter_length_le f l) as Hle.
  destruct (f a) eqn:E; cbn [List.length]; intros H x [<- | Hx]; auto; try lia.
Qed.

Lemma results_complete (faults : nat -> site -> bool) (jobs : list Job)
      (c0 : conn) (p : pool) :
  poolInv faults jobs c0 p -> pending p = [] ->
  Permutation (map fst (presults p)) (seq 0 (List.length jobs)).
Proof.
  intros I P. apply Permutation_sym, NoDup_Permutation_bis.
  - apply seq_NoDup.
  - rewrite length_map, length_seq.
    pose proof (inv_count _ _ _ _ I) as H. rewrite P in H. cbn in H. lia.
  - intros n Hn. apply in_seq in Hn.
    destruct (inv_all _ _ _ _ I n ltac:(lia)) as [H | H]; [exact H|].
    rewrite P in H. destruct H.
Qed.

(* ================================================================== *)
(** * The import: main results *)
(* ================================================================== *)

(** With a driver that fails no call, every candidate ends up stored. *)
Lemma import_all_persisted (e : env) (content : str) (c : conn) :
  journal c = None -> constraints (live c) ->
  (forall n, noFaults (envFaults e n)) ->
  let r := importBookmarks e content c in
  (forall job, In job (importJobs r) -> persisted job (live (importConn r))) /\
  successCount r = List.length (importJobs r) /\
  constraints (live (importConn r)).
Proof.
  intros J C Hf. cbv zeta.
  destruct (importBookmarks_inv e content c J C)
    as (p & I & Pe & Er & Ec & Ej & Es).
  set (r := importBookmarks e content c) in *.
  assert (Nil : forall n o, In (n, o) (presults p) -> o = None).
  { intros n o H. destruct (inv_results _ _ _ _ I n o H) as (job & _ & Ho).
    destruct o as [err|]; [|reflexivity].
    destruct Ho as (_ & x & Hx). rewrite (Hf n x) in Hx. discriminate. }
  split; [|split].
  - intros job Hj. apply In_nth_error in Hj. destruct Hj as [n Hn].
    assert (Hl : (n < List.length (importJobs r))%nat)
      by (apply nth_error_Some; congruence).
    destruct (inv_all _ _ _ _ I n Hl) as [H | H]; [|rewrite Pe in H; destruct H].
    apply in_map_iff in H. destruct H as ([n' o] & En & H). cbn [fst] in En.
    subst n'. rewrite Ec.
    destruct (inv_results _ _ _ _ I n o H) as (job' & Hn' & Ho).
    rewrite (Nil n o H) in Ho. cbn [outcomeOK] in Ho.
    replace job with job' by congruence. exact Ho.
  - rewrite Es. pose proof (inv_count _ _ _ _ I) as Hc. rewrite Pe in Hc.
    cbn [List.length] in Hc. rewrite Nat.add_0_r in Hc. rewrite <- Hc.
    clear - Nil. induction (presults p) as [|[n o] l IH]; [reflexivity|].
    cbn [filter]. unfold isNil at 1. cbn [snd].
    rewrite (Nil n o (or_introl eq_refl)). cbn [List.length]. f_equal.
    apply IH. intros n' o' H. apply (Nil n' o'). right; exact H.
  - rewrite Ec. apply I.
Qed.



(** C3: every run leaves the constraints of the schema in force: no two
    entries share an address and no (entry, label) link is stored twice,
    whatever the workers and their order.  After a first import of a
    document that reported every candidate as imported, a second import of
    the same document, under any schedule, clock and driver failures,
    leaves the table of entries as it is, so their count is unchanged;
    the first import reports every candidate as imported whenever the
    driver fails none of its calls. *)
Theorem reimport_adds_no_entry (e1 e2 : env) (content : str) (c : conn) :
  journal c = None -> constraints (live c) ->
  let r1 := importBookmarks e1 content c in
  let r2 := importBookmarks e2 content (importConn r1) in
  NoDup (map bm_url (bookmarks (live (importConn r1)))) /\
  NoDup (bookmark_tags (live (importConn r1))) /\
  NoDup (map bm_url (bookmarks (live (importConn r2)))) /\
  NoDup (bookmark_tags (live (importConn r2))) /\
  (successCount r1 = List.length (importJobs r1) ->
   bookmarks (live (importConn r2)) = bookmarks (live (importConn r1)) /\
   List.length (bookmarks (live (importConn r2)))
   = List.length (bookmarks (live (importConn r1)))) /\
  ((forall n, noFaults (envFaults e1 n)) ->
   successCount r1 = List.length (importJobs r1)).
Proof.
  intros J C. cbv zeta.
  assert (Calm : (forall n, noFaults (envFaults e1 n)) ->
                 successCount (importBookmarks e1 content c)
                 = List.length (importJobs (importBookmarks e1 content c))).
  { intros Hf. apply (import_all_persisted e1 content c J C Hf). }
  destruct (importBookmarks_inv e1 content c J C)
    as (p1 & I1 & P1 & Er1 & Ec1 & Ej1 & Es1).
  assert (J1 : journal (importConn (importBookmarks e1 content c)) = None)
    by (rewrite Ec1; apply I1).
  assert (C1 : constraints (live (importConn (importBookmarks e1 content c))))
    by (rewrite Ec1; apply I1).
  destruct (importBookmarks_inv e2 content _ J1 C1)
    as (p2 & I2 & P2 & Er2 & Ec2 & Ej2 & Es2).
  assert (C2 : constraints (live (pconn p2))) by apply I2.
  rewrite Ec2. destruct C1, C2.
  split; [assumption|]. split; [assumption|]. split; [assumption|].
  split; [assumption|]. split; [|exact Calm].
  intros Hall.
  assert (E : bookmarks (live (pconn p2))
              = bookmarks (live (importConn (importBookmarks e1 content c)))).
  { apply (inv_known _ _ _ _ I2). intros job2 Hj2.
    rewrite Ej2 in Hj2.
    assert (Hu : In (URI job2) (map URI (importJobs (importBookmarks e1 content c)))).
    { rewrite Ej1. unfold parseBlocks, time_Now_Unix in Hj2 |- *. cbn [fst] in Hj2 |- *.
      rewrite (parseLoop_URI _ (reading (envClock e2) (reads (envClock e2)))).
      apply in_map. exact Hj2. }
    apply in_map_iff in Hu. destruct Hu as (job1 & Eu & Hj1).
    apply In_nth_error in Hj1. destruct Hj1 as [n Hn].
    pose proof (results_complete _ _ _ _ I1 P1) as Perm.
    assert (Hin : In n (map fst (presults p1))).
    { eapply Permutation_in; [apply Permutation_sym; exact Perm|].
      apply in_seq. split; [lia|]. apply nth_error_Some. congruence. }
    apply in_map_iff in Hin. destruct Hin as ([n' o] & Hf & Hin). cbn [fst] in Hf.
    subst n'.
    assert (Ho : o = None).
    { rewrite Es1 in Hall.
      assert (Hlen : List.length (presults p1)
                     = List.length (importJobs (importBookmarks e1 content c))).
      { pose proof (inv_count _ _ _ _ I1) as Hc. rewrite P1 in Hc.
        cbn [List.length] in Hc. rewrite Nat.add_0_r in Hc. exact Hc. }
      rewrite <- Hlen in Hall.
      pose proof (filter_all isNil _ Hall (n, o) Hin) as Hn'.
      unfold isNil in Hn'. cbn [snd] in Hn'. destruct o; [discriminate | reflexivity]. }
    subst o. destruct (inv_results _ _ _ _ I1 n None Hin) as (job' & Hj' & Hp).
    assert (job' = job1) by congruence. subst job'.
    destruct Hp as (id & (row & Hr & Hurl & _) & _).
    rewrite Ec1, <- Eu. apply in_map_iff. exists row. auto. }
  rewrite E. split; reflexivity.
Qed.

Lemma reimport_adds_no_entry_witness :
  let r1 := importBookmarks calmEnv exampleDocument (openConn emptyStore) in
  let r2 := importBookmarks exampleEnv exampleDocument (importConn r1) in
  NoDup (map bm_url (bookmarks (live (importConn r1)))) /\
  NoDup (bookmark_tags (live (importConn r1))) /\
  NoDup (map bm_url (bookmarks (live (importConn r2)))) /\
  NoDup (bookmark_tags (live (importConn r2))) /\
  (successCount r1 = List.length (importJobs r1) ->
   bookmarks (live (importConn r2)) = bookmarks (live (importConn r1)) /\
   List.length (bookmarks (live (importConn r2)))
   = List.length (bookmarks (live (importConn r1)))) /\
  ((forall n, noFaults (envFaults calmEnv n)) ->
   successCount r1 = List.length (importJobs r1)).
Proof.
  apply (reimport_adds_no_entry calmEnv exampleEnv exampleDocument
           (openConn emptyStore)).
  - reflexivity.
  - constructor; constructor.
Defined.

Example reimport_example :
  successCount (importBookmarks calmEnv exampleDocument (openConn emptyStore))
  = 2%nat /\
  List.length (importJobs (importBookmarks calmEnv exampleDocument
                                           (openConn emptyStore))) = 2%nat.
Proof. vm_compute. split; reflexivity. Qed.





(** ** [htmlUnescape] after [html.EscapeString] *)

Lemma escapable_cases (c : ascii) :
  escapable c = true ->
  c = amp \/ c = "'"%char \/ c = lt \/ c = gt \/ c = dquote.
Proof.
  unfold escapable. rewrite !orb_true_iff, !Ascii.eqb_eq. tauto.
Qed.

Lemma escapeByte_plain (c : ascii) : escapable c = false -> escapeByte c = [c].
Proof.
  intros H. destruct (escapeByte_cases c) as [[_ E] | [E _]]; congruence.
Qed.

(** Every character reference opens with [&] and goes on without it. *)
Lemma escapeByte_entity (c : ascii) :
  escapable c = true -> exists body, escapeByte c = amp :: body.
Proof.
  intros H.
  destruct (escapable_cases c H) as [-> | [-> | [-> | [-> | ->]]]];
    eexists; reflexivity.
Qed.

Lemma EscapeString_escapeIn (s : str) : EscapeString s = escapeIn escapable s.
Proof.
  unfold EscapeString, escapeIn. induction s as [|c s IH]; cbn [flat_map];
    [reflexivity|]. rewrite IH.
  destruct (escapable c) eqn:E; [reflexivity|].
  rewrite (escapeByte_plain c E). reflexivity.
Qed.

Lemma escapeIn_none (S : ascii -> bool) (s : str) :
  (forall c, In c s -> S c = false) -> escapeIn S s = s.
Proof.
  unfold escapeIn. induction s as [|c s IH]; intros H; cbn [flat_map];
    [reflexivity|].
  rewrite (H c (or_introl eq_refl)). cbn [app]. f_equal.
  apply IH. intros x Hx. apply H. right; exact Hx.
Qed.

Lemma escapeIn_ext (S S' : ascii -> bool) (s : str) :
  (forall c, In c s -> S c = S' c) -> escapeIn S s = escapeIn S' s.
Proof.
  unfold escapeIn. induction s as [|c s IH]; intros H; cbn [flat_map];
    [reflexivity|].
  rewrite (H c (or_introl eq_refl)). f_equal.
  apply IH. intros x Hx. apply H. right; exact Hx.
Qed.

Lemma replaceFrom_skip (old new p r : str) :
  replaceFrom old new (p ++ r) (List.length p) = replaceFrom old new r 0.
Proof.
  induction p as [|c p IH]; cbn [app List.length replaceFrom]; [reflexivity|].
  exact IH.
Qed.

Lemma HasPrefix_self (p r : str) : HasPrefix (p ++ r) p = true.
Proof.
  induction p as [|c p IH]; cbn [app HasPrefix]; [reflexivity|].
  rewrite Ascii.eqb_refl. exact IH.
Qed.

Lemma replaceFrom_hit (c : ascii) (old new r : str) :
  replaceFrom (c :: old) new ((c :: old) ++ r) 0
  = new ++ replaceFrom (c :: old) new r 0.
Proof.
  cbn [app replaceFrom].
  change (c :: old ++ r) with ((c :: old) ++ r). rewrite HasPrefix_self.
  cbn [List.length pred]. rewrite replaceFrom_skip. reflexivity.
Qed.

(** Bytes other than [&] are copied by a pass that looks for a character
    reference. *)
Lemma replaceFrom_copy (old new q r : str) :
  Forall (fun c => c <> amp) q ->
  replaceFrom (amp :: old) new (q ++ r) 0
  = q ++ replaceFrom (amp :: old) new r 0.
Proof.
  intros F. induction F as [|c q Hc F IH]; cbn [app]; [reflexivity|].
  cbn [replaceFrom HasPrefix].
  destruct (Ascii.eqb amp c) eqn:E.
  - apply Ascii.eqb_eq in E. congruence.
  - cbn [andb]. rewrite IH. reflexivity.
Qed.

Lemma HasPrefix_escapeIn (S : ascii -> bool) (q u : str) :
  (forall c, S c = true -> escapable c = true) ->
  Forall (fun c => escapable c = false) q ->
  HasPrefix (escapeIn S u) q = HasPrefix u q.
Proof.
  intros HS Fq. revert u. induction Fq as [|x q Hx Fq IH]; intros u.
  - reflexivity.
  - destruct u as [|c u]; [reflexivity|].
    unfold escapeIn. cbn [flat_map]. fold (escapeIn S u).
    destruct (S c) eqn:Sc.
    + assert (Ec : escapable c = true) by (apply HS; exact Sc).
      assert (Exc : Ascii.eqb x c = false).
      { apply Ascii.eqb_neq. intros ->. congruence. }
      assert (Xamp : Ascii.eqb x amp = false).
      { apply Ascii.eqb_neq. intros ->. discriminate. }
      cbn [HasPrefix]. rewrite Exc. cbn [andb].
      destruct (escapeByte_entity c Ec) as (body & Eb). rewrite Eb.
      cbn [app HasPrefix]. rewrite Xamp. reflexivity.
    + cbn [app HasPrefix]. rewrite IH. reflexivity.
Qed.

Lemma Index_cons_None (c : ascii) (s pat : str) :
  Index (c :: s) pat = None ->
  HasPrefix (c :: s) pat = false /\ Index s pat = None.
Proof.
  cbn [Index]. destruct (HasPrefix (c :: s) pat); [discriminate|].
  destruct (Index s pat); [discriminate | auto].
Qed.

(** One pass of [htmlUnescape] over a partly escaped text: the reference
    [&body] of [x] is decoded, the others stay. *)
Lemma unescape_pass (S : ascii -> bool) (x : ascii) (body new : str) :
  (forall c, S c = true -> escapable c = true) ->
  Forall (fun c => escapable c = false) body ->
  (S x = true -> escapeByte x = amp :: body /\ new = [x]) ->
  (forall c r, S c = true -> c <> x ->
               replaceFrom (amp :: body) new (escapeByte c ++ r) 0
               = escapeByte c ++ replaceFrom (amp :: body) new r 0) ->
  forall t,
    (S amp = false -> Index t (amp :: body) = None) ->
    replaceFrom (amp :: body) new (escapeIn S t) 0
    = escapeIn (fun c => S c && negb (Ascii.eqb c x)) t.
Proof.
  intros HS Fb Hx Hmiss. induction t as [|c t IH]; intros Hi; [reflexivity|].
  assert (Hi' : S amp = false -> Index t (amp :: body) = None).
  { intros H. apply (Index_cons_None c). apply Hi, H. }
  unfold escapeIn. cbn [flat_map]. fold (escapeIn S t).
  fold (escapeIn (fun c => S c && negb (Ascii.eqb c x)) t).
  destruct (S c) eqn:Sc; cbn [andb].
  - destruct (Ascii.eqb c x) eqn:Ecx; cbn [negb].
    + apply Ascii.eqb_eq in Ecx. subst c. destruct (Hx Sc) as [-> ->].
      rewrite replaceFrom_hit, IH by exact Hi'. reflexivity.
    + apply Ascii.eqb_neq in Ecx. rewrite Hmiss, IH by assumption. reflexivity.
  - destruct (Ascii.eqb amp c) eqn:Ec.
    + apply Ascii.eqb_eq in Ec. subst c.
      destruct (Index_cons_None _ _ _ (Hi Sc)) as [Hp _].
      cbn [HasPrefix] in Hp. rewrite Ascii.eqb_refl in Hp. cbn [andb] in Hp.
      cbn [app replaceFrom HasPrefix]. rewrite Ascii.eqb_refl. cbn [andb].
      rewrite (HasPrefix_escapeIn S body t HS Fb), Hp, IH by exact Hi'.
      reflexivity.
    + apply Ascii.eqb_neq in Ec.
      assert (Fc : Forall (fun c0 => c0 <> amp) [c])
        by (constructor; [congruence | constructor]).
      rewrite (replaceFrom_copy body new [c] _ Fc), (IH Hi').
      reflexivity.
Qed.


Ltac miss_cases :=
  let c := fresh "c" in
  let r := fresh "r" in
  let Sc := fresh "Sc" in
  let Hc := fresh "Hc" in
  intros c r Sc Hc;
  rewrite ?andb_true_iff, ?negb_true_iff in Sc;
  let E := fresh "E" in
  assert (E : escapable c = true) by tauto;
  destruct (escapable_cases c E) as [-> | [-> | [-> | [-> | ->]]]];
  try congruence; try reflexivity;
  exfalso; decompose [and] Sc;
  repeat match goal with
         | H : Ascii.eqb _ _ = false |- _ => vm_compute in H; try discriminate H
         end.

Theorem htmlUnescape_EscapeString (t : str) :
  decodable t -> htmlUnescape (EscapeString t) = t.
Proof.
  intros (Hq & Hlt & Hgt & Hquot & Hapos).
  rewrite EscapeString_escapeIn.
  unfold htmlUnescape. cbn [fold_left fst snd]. unfold ReplaceAll.
  set (S1 := fun c => escapable c && negb (Ascii.eqb c amp)).
  set (S2 := fun c => S1 c && negb (Ascii.eqb c lt)).
  set (S3 := fun c => S2 c && negb (Ascii.eqb c gt)).
  set (S4 := fun c => S3 c && negb (Ascii.eqb c amp)).
  set (S5 := fun c => S4 c && negb (Ascii.eqb c "'"%char)).
  assert (H1 : replaceFrom (b "&amp;") (b "&") (escapeIn escapable t) 0
               = escapeIn S1 t).
  { apply (unescape_pass escapable amp (b "amp;") (b "&")); auto.
    - repeat constructor.
    - miss_cases.
    - discriminate. }
  assert (H2 : replaceFrom (b "&lt;") (b "<") (escapeIn S1 t) 0 = escapeIn S2 t).
  { apply (unescape_pass S1 lt (b "lt;") (b "<")); auto.
    - unfold S1. intros c H. apply andb_true_iff in H. tauto.
    - repeat constructor.
    - unfold S1. miss_cases. }
  assert (H3 : replaceFrom (b "&gt;") (b ">") (escapeIn S2 t) 0 = escapeIn S3 t).
  { apply (unescape_pass S2 gt (b "gt;") (b ">")); auto.
    - unfold S2, S1. intros c H. rewrite !andb_true_iff in H. tauto.
    - repeat constructor.
    - unfold S2, S1. miss_cases. }
  assert (H4 : replaceFrom (b "&quot;") [dquote] (escapeIn S3 t) 0 = escapeIn S4 t).
  { apply (unescape_pass S3 amp (b "quot;") [dquote]); auto.
    - unfold S3, S2, S1. intros c H. rewrite !andb_true_iff in H. tauto.
    - repeat constructor.
    - discriminate.
    - unfold S3, S2, S1. miss_cases. }
  assert (H5 : replaceFrom (b "&#39;") (b "'") (escapeIn S4 t) 0 = escapeIn S5 t).
  { apply (unescape_pass S4 "'"%char (b "#39;") (b "'")); auto.
    - unfold S4, S3, S2, S1. intros c H. rewrite !andb_true_iff in H. tauto.
    - repeat constructor.
    - unfold S4, S3, S2, S1. miss_cases. }
  rewrite H1, H2, H3, H4, H5.
  apply escapeIn_none. intros c Hc.
  rewrite Forall_forall in Hq. specialize (Hq c Hc). unfold notByte in Hq.
  unfold S5, S4, S3, S2, S1.
  destruct (escapable c) eqn:E; [|reflexivity].
  destruct (escapable_cases c E) as [-> | [-> | [-> | [-> | ->]]]];
    try reflexivity. rewrite Ascii.eqb_refl in Hq. discriminate.
Qed.


(** ** Trimming an escaped text *)

Lemma trimHead_eq sp2 sp3 (s : str) :
  trimHead sp2 sp3 s =
  match s with
  | [] => []
  | c1 :: s1 =>
    if asciiSpace c1 then trimHead sp2 sp3 s1
    else match s1 with
         | [] => s
         | c2 :: s2 =>
           if sp2 c1 c2 then trimHead sp2 sp3 s2
           else match s2 with
                | [] => s
                | c3 :: s3 =>
                  if sp3 c1 c2 c3 then trimHead sp2 sp3 s3 else s
                end
         end
  end.
Proof. destruct s; reflexivity. Qed.

Lemma trimHead_fix sp2 sp3 (s : str) :
  trimHead sp2 sp3 s = s <-> headClean sp2 sp3 s.
Proof.
  assert (L : forall x y : str, trimHead sp2 sp3 x = y ->
                                (List.length x < List.length y)%nat -> False).
  { intros x y E Hl. pose proof (trimHead_length sp2 sp3 x). rewrite E in *. lia. }
  rewrite trimHead_eq. unfold headClean.
  destruct s as [|c1 s1]; [tauto|].
  destruct (asciiSpace c1).
  { split; [|intros [H _]; discriminate].
    intros H. exfalso. eapply L; [exact H | simpl; lia]. }
  destruct s1 as [|c2 s2]; [tauto|].
  destruct (sp2 c1 c2).
  { split; [|intros (_ & H & _); discriminate].
    intros H. exfalso. eapply L; [exact H | simpl; lia]. }
  destruct s2 as [|c3 s3]; [tauto|].
  destruct (sp3 c1 c2 c3); [|tauto].
  split; [|intros (_ & _ & H); discriminate].
  intros H. exfalso. eapply L; [exact H | simpl; lia].
Qed.

Lemma space2_high (x y : ascii) :
  space2 x y = true -> (128 <= code x /\ 128 <= code y)%nat.
Proof.
  unfold space2, oneOf. cbn [existsb].
  repeat rewrite ?orb_true_iff, ?andb_true_iff, ?Nat.eqb_eq.
  intros H. decompose [and or] H; try discriminate; lia.
Qed.

Lemma highOnly_space : highOnly space2 space3.
Proof. split; [apply space2_high | apply space3_high]. Qed.

Lemma highOnly_spacer : highOnly space2r space3r.
Proof.
  split.
  - intros x y H. apply space2_high in H. tauto.
  - intros x y z H. apply space3_high in H. tauto.
Qed.

Lemma TrimRightSpace_rev (s : str) :
  TrimRightSpace s = rev (trimHead space2r space3r (rev s)).
Proof. reflexivity. Qed.

Lemma TrimSpace_fix (s : str) :
  TrimSpace s = s <->
  headClean space2 space3 s /\ headClean space2r space3r (rev s).
Proof.
  rewrite <- !trimHead_fix. unfold TrimSpace. rewrite TrimRightSpace_rev.
  unfold TrimLeftSpace. split.
  - intros H.
    pose proof (trimHead_length space2 space3 s) as L1.
    pose proof (trimHead_length space2r space3r (rev (trimHead space2 space3 s))) as L2.
    apply (f_equal (@rev ascii)) in H. rewrite rev_involutive in H.
    rewrite H, !length_rev in L2.
    destruct (trimHead_suffix space2 space3 s) as [w Hw].
    assert (Hl : List.length s
                 = (List.length w + List.length (trimHead space2 space3 s))%nat).
    { rewrite Hw at 1. apply length_app. }
    destruct w; [|simpl in Hl; lia]. cbn [app] in Hw.
    rewrite <- Hw in H. split; [symmetry; exact Hw | exact H].
  - intros [H1 H2]. rewrite H1, H2. apply rev_involutive.
Qed.

Lemma headClean_pieces sp2 sp3 (g : ascii -> str) (u : str) :
  highOnly sp2 sp3 ->
  (forall c, g c = [c] \/ exists a rest, g c = a :: rest /\ stopper a) ->
  headClean sp2 sp3 u -> headClean sp2 sp3 (flat_map g u).
Proof.
  intros [H2 H3] Hg.
  assert (S2l : forall a x, stopper a -> sp2 a x = false).
  { intros a x [Ha _]. destruct (sp2 a x) eqn:E; [|reflexivity].
    apply H2 in E. lia. }
  assert (S2r : forall a x, stopper a -> sp2 x a = false).
  { intros a x [Ha _]. destruct (sp2 x a) eqn:E; [|reflexivity].
    apply H2 in E. lia. }
  assert (S31 : forall a x y, stopper a -> sp3 a x y = false).
  { intros a x y [Ha _]. destruct (sp3 a x y) eqn:E; [|reflexivity].
    apply H3 in E. lia. }
  assert (S32 : forall a x y, stopper a -> sp3 x a y = false).
  { intros a x y [Ha _]. destruct (sp3 x a y) eqn:E; [|reflexivity].
    apply H3 in E. lia. }
  assert (S33 : forall a x y, stopper a -> sp3 x y a = false).
  { intros a x y [Ha _]. destruct (sp3 x y a) eqn:E; [|reflexivity].
    apply H3 in E. lia. }
  assert (Stop : forall a r, stopper a -> headClean sp2 sp3 (a :: r)).
  { intros a r Ha. cbn [headClean]. split; [apply Ha|].
    destruct r as [|x r]; [exact I|]. split; [apply S2l; exact Ha|].
    destruct r as [|y r]; [exact I|]. apply S31; exact Ha. }
  destruct u as [|c1 u]; [exact (fun _ => I)|]. cbn [flat_map].
  destruct (Hg c1) as [E1 | (a1 & r1 & E1 & St1)]; rewrite E1;
    [|intros _; apply Stop; exact St1].
  cbn [app headClean]. intros [A1 B1]. split; [exact A1|].
  destruct u as [|c2 u]; [exact I|]. cbn [flat_map].
  destruct (Hg c2) as [E2 | (a2 & r2 & E2 & St2)]; rewrite E2; cbn [app].
  2:{ split; [apply S2r; exact St2|].
      destruct (r2 ++ flat_map g u); [exact I|]. apply S32; exact St2. }
  destruct B1 as [B1 C1]. split; [exact B1|].
  destruct u as [|c3 u]; [exact I|]. cbn [flat_map].
  destruct (Hg c3) as [E3 | (a3 & r3 & E3 & St3)]; rewrite E3; cbn [app].
  - exact C1.
  - apply S33; exact St3.
Qed.

Lemma headClean_app_low sp2 sp3 (s : str) (c : ascii) (y : str) :
  highOnly sp2 sp3 -> (code c < 128)%nat ->
  s <> [] -> headClean sp2 sp3 s -> headClean sp2 sp3 (s ++ c :: y).
Proof.
  intros [H2 H3] Hc Hne.
  assert (S2r : forall x, sp2 x c = false).
  { intros x. destruct (sp2 x c) eqn:E; [|reflexivity]. apply H2 in E. lia. }
  assert (S32 : forall x z, sp3 x c z = false).
  { intros x z. destruct (sp3 x c z) eqn:E; [|reflexivity]. apply H3 in E. lia. }
  assert (S33 : forall x z, sp3 x z c = false).
  { intros x z. destruct (sp3 x z c) eqn:E; [|reflexivity]. apply H3 in E. lia. }
  destruct s as [|c1 [|c2 [|c3 s3]]]; [congruence| | |]; cbn [app headClean].
  - intros [A _]. split; [exact A|]. split; [apply S2r|].
    destruct y; [exact I | apply S32].
  - intros (A & B & _). split; [exact A|]. split; [exact B | apply S33].
  - tauto.
Qed.

Lemma flat_map_rev {A B} (g : A -> list B) (l : list A) :
  rev (flat_map g l) = flat_map (fun x => rev (g x)) (rev l).
Proof.
  induction l as [|a l IH]; cbn [flat_map rev]; [reflexivity|].
  rewrite rev_app_distr, IH, flat_map_app. cbn [flat_map].
  rewrite app_nil_r. reflexivity.
Qed.

Lemma escapeByte_pieces (c : ascii) :
  escapeByte c = [c] \/ exists a rest, escapeByte c = a :: rest /\ stopper a.
Proof.
  destruct (escapable c) eqn:E.
  - right. destruct (escapeByte_entity c E) as [body Eb].
    exists amp, body. split; [exact Eb|]. split; [apply Nat.ltb_lt|]; reflexivity.
  - left. apply escapeByte_plain. exact E.
Qed.

Lemma escapeByte_rev_pieces (c : ascii) :
  rev (escapeByte c) = [c] \/
  exists a rest, rev (escapeByte c) = a :: rest /\ stopper a.
Proof.
  destruct (escapable c) eqn:E.
  - right. exists ";"%char.
    assert (St : stopper ";"%char) by (split; [apply Nat.ltb_lt|]; reflexivity).
    destruct (escapable_cases c E) as [-> | [-> | [-> | [-> | ->]]]];
      eexists; (split; [reflexivity | exact St]).
  - left. rewrite (escapeByte_plain c E). reflexivity.
Qed.

(** An escaped text has white space at its ends only if the text has. *)
Lemma TrimSpace_EscapeString (t : str) :
  TrimSpace t = t -> TrimSpace (EscapeString t) = EscapeString t.
Proof.
  rewrite !TrimSpace_fix. intros [H1 H2]. unfold EscapeString. split.
  - apply headClean_pieces;
      [apply highOnly_space | apply escapeByte_pieces | exact H1].
  - rewrite flat_map_rev. apply headClean_pieces;
      [apply highOnly_spacer | apply escapeByte_rev_pieces | exact H2].
Qed.

Lemma EscapeString_nil (t : str) : EscapeString t = [] -> t = [].
Proof.
  intros H. pose proof (EscapeString_length t) as [L _]. rewrite H in L.
  destruct t; [reflexivity | simpl in L; lia].
Qed.

(** The same with the line feed the writer puts after a note. *)
Lemma TrimSpace_EscapeString_lf (n : str) :
  TrimSpace n = n -> n <> [] ->
  TrimSpace (EscapeString n ++ lf) = EscapeString n.
Proof.
  intros Hn Hne. pose proof (TrimSpace_EscapeString n Hn) as He.
  apply TrimSpace_fix in He. destruct He as [H1 H2].
  assert (Ene : EscapeString n <> []).
  { intros E. apply Hne, EscapeString_nil, E. }
  unfold TrimSpace.
  assert (L : TrimLeftSpace (EscapeString n ++ lf) = EscapeString n ++ lf).
  { apply trimHead_fix. apply headClean_app_low;
      [apply highOnly_space | apply Nat.ltb_lt; reflexivity | exact Ene | exact H1]. }
  rewrite L, TrimRightSpace_rev, rev_app_distr.
  change (rev lf ++ rev (EscapeString n)) with (newline :: rev (EscapeString n)).
  change (trimHead space2r space3r (newline :: rev (EscapeString n)))
    with (trimHead space2r space3r (rev (EscapeString n))).
  apply trimHead_fix in H2. rewrite H2. apply rev_involutive.
Qed.

(** ** Numbers written and read back *)

Lemma digitChar_code (d : Z) : 0 <= d <= 9 -> code (digitChar d) = Z.to_nat (48 + d).
Proof.
  intros H. unfold code, digitChar. apply nat_ascii_embedding. lia.
Qed.

Lemma digitChar_isDigit (d : Z) : 0 <= d <= 9 -> isDigit (digitChar d) = true.
Proof.
  intros H. unfold isDigit. rewrite digitChar_code by exact H.
  apply andb_true_iff. split; apply Nat.leb_le; lia.
Qed.

Lemma digitVal_digitChar (d : Z) : 0 <= d <= 9 -> digitVal (digitChar d) = d.
Proof.
  intros H. unfold digitVal. rewrite digitChar_code by exact H. lia.
Qed.

Lemma decimalValue_snoc (ds : str) (c : ascii) :
  decimalValue (ds ++ [c]) = 10 * decimalValue ds + digitVal c.
Proof. unfold decimalValue. rewrite fold_left_app. reflexivity. Qed.

Lemma digitsFuel_spec (fuel : nat) :
  forall (n : Z) (acc : str),
    0 <= n < 2 ^ Z.of_nat fuel -> fuel <> O ->
    exists ds,
      digitsFuel fuel n acc = ds ++ acc /\ ds <> [] /\
      Forall (fun c => isDigit c = true) ds /\ decimalValue ds = n.
Proof.
  induction fuel as [|fuel IH]; intros n acc Hn Hf; [congruence|].
  cbn [digitsFuel]. clear Hf.
    assert (Hm : 0 <= n mod 10 <= 9) by (pose proof (Z.mod_pos_bound n 10); lia).
  destruct (n / 10 =? 0) eqn:E.
  - apply Z.eqb_eq in E. exists [digitChar (n mod 10)].
      split; [reflexivity|]. split; [discriminate|]. split.
      * constructor; [apply digitChar_isDigit; exact Hm | constructor].
      * unfold decimalValue. cbn [fold_left]. rewrite digitVal_digitChar by exact Hm.
        pose proof (Z.div_mod n 10). lia.
  - apply Z.eqb_neq in E.
    assert (Hq : 0 <= n / 10 < 2 ^ Z.of_nat fuel).
    { split; [apply Z.div_pos; lia|].
      rewrite Nat2Z.inj_succ, Z.pow_succ_r in Hn by lia.
      apply Z.div_lt_upper_bound; lia. }
    assert (Hf : fuel <> O).
    { intros ->. change (2 ^ Z.of_nat 0) with 1 in Hq. lia. }
    destruct (IH (n / 10) (digitChar (n mod 10) :: acc) Hq Hf)
      as (ds & Ed & Hne & F & V).
      exists (ds ++ [digitChar (n mod 10)]). split.
      { rewrite Ed, <- app_assoc. reflexivity. }
      split; [destruct ds; discriminate|]. split.
      * apply Forall_app. split; [exact F|].
        constructor; [apply digitChar_isDigit; exact Hm | constructor].
      * rewrite decimalValue_snoc, V, digitVal_digitChar by exact Hm.
        pose proof (Z.div_mod n 10). lia.
Qed.

Lemma formatInt_spec (n : Z) :
  0 <= n ->
  formatInt n <> [] /\ Forall (fun c => isDigit c = true) (formatInt n) /\
  decimalValue (formatInt n) = n.
Proof.
  intros Hn. unfold formatInt.
  replace (n <? 0) with false by (symmetry; apply Z.ltb_ge; lia).
  unfold digitsOf.
  assert (Hb : 0 <= n < 2 ^ Z.of_nat (S (Z.to_nat (Z.log2 n)))).
  { split; [exact Hn|]. rewrite Nat2Z.inj_succ, Z2Nat.id by apply Z.log2_nonneg.
    destruct (Z.eq_dec n 0) as [-> | Hne]; [reflexivity|].
    apply Z.log2_spec. lia. }
  destruct (digitsFuel_spec _ n [] Hb ltac:(discriminate)) as (ds & E & Hne & F & V).
  rewrite E, app_nil_r. auto.
Qed.

(** A time the writer wrote is the time the parser reads. *)
Lemma timeAttr_written (name : string) (a1 a2 : str) (n : Z) :
  Index (a1 ++ attrOpen name) (attrOpen name) = Some (List.length a1) ->
  0 <= n <= maxInt64 ->
  timeAttr name (a1 ++ attrOpen name ++ formatInt n ++ dquote :: a2) = Some n.
Proof.
  intros Hi Hn. destruct (formatInt_spec n (proj1 Hn)) as (Hne & F & V).
  unfold timeAttr.
  rewrite (firstAttr_at name isDigit a1 (formatInt n) a2); try assumption;
    [|reflexivity].
  rewrite V. replace (n <=? maxInt64) with true by (symmetry; apply Z.leb_le; lia).
  reflexivity.
Qed.

(** ** Labels joined and split *)

Lemma splitFrom_comma_free (x : str) :
  Forall (fun c => notByte "," c = true) x -> splitFrom (b ",") x 0 = [x].
Proof.
  intros F. induction F as [|c x Hc F IH]; [reflexivity|].
  cbn [splitFrom].
  change (HasPrefix (c :: x) (b ",")) with (Ascii.eqb "," c && true).
  unfold notByte in Hc. destruct (Ascii.eqb "," c); [discriminate|].
  cbn [andb]. rewrite IH. reflexivity.
Qed.

Lemma splitFrom_comma (x r : str) :
  Forall (fun c => notByte "," c = true) x ->
  splitFrom (b ",") (x ++ b "," ++ r) 0 = x :: splitFrom (b ",") r 0.
Proof.
  intros F. induction F as [|c x Hc F IH].
  - cbn [app b list_ascii_of_string splitFrom HasPrefix List.length pred].
    rewrite Ascii.eqb_refl. reflexivity.
  - cbn [app splitFrom].
    change (HasPrefix (c :: x ++ b "," ++ r) (b ","))
      with (Ascii.eqb "," c && true).
    unfold notByte in Hc. destruct (Ascii.eqb "," c); [discriminate|].
    cbn [andb]. rewrite IH. reflexivity.
Qed.


Lemma joinComma_cons (x y : str) (l : list str) :
  joinComma (x :: y :: l) = x ++ b "," ++ joinComma (y :: l).
Proof. reflexivity. Qed.

Lemma Split_joinComma (l : list str) :
  l <> [] -> Forall cleanLabel l -> Split (joinComma l) (b ",") = l.
Proof.
  intros Hne F. unfold Split. induction F as [|x l Hx F IH]; [congruence|].
  destruct l as [|y l].
  - cbn [joinComma]. apply splitFrom_comma_free. apply Hx.
  - rewrite joinComma_cons.
    rewrite splitFrom_comma by apply Hx. rewrite IH by discriminate.
    reflexivity.
Qed.

Lemma labelsOf_joinComma (l : list str) :
  l <> [] -> Forall cleanLabel l -> labelsOf (joinComma l) = l.
Proof.
  intros Hne F. unfold labelsOf. rewrite Split_joinComma by assumption.
  clear Hne. induction F as [|x l Hx F IH]; [reflexivity|].
  cbn [map filter]. destruct Hx as (Hx & _ & _ & Ht). rewrite Ht.
  destruct x; [congruence|]. cbn [isEmpty negb]. rewrite IH. reflexivity.
Qed.

Lemma joinComma_plain (l : list str) :
  Forall cleanLabel l ->
  Forall (fun c => escapable c = false) (joinComma l).
Proof.
  intros F. induction F as [|x l Hx F IH]; [constructor|].
  destruct l as [|y l]; [apply Hx|].
  rewrite joinComma_cons, !Forall_app. split; [apply Hx|].
  split; [repeat constructor | exact IH].
Qed.

Lemma joinComma_nonempty (l : list str) :
  l <> [] -> Forall cleanLabel l -> joinComma l <> [].
Proof.
  intros Hne F. destruct F as [|x l Hx F]; [congruence|].
  destruct Hx as (Hx & _). destruct l; [exact Hx|].
  rewrite joinComma_cons. destruct x; [congruence | discriminate].
Qed.

Lemma EscapeString_plain (s : str) :
  Forall (fun c => escapable c = false) s -> EscapeString s = s.
Proof.
  intros F. rewrite EscapeString_escapeIn. apply escapeIn_none.
  rewrite Forall_forall in F. exact F.
Qed.


(** ** Scanning an attribute text chunk by chunk *)

Lemma stripPrefix_chunk (N p R r : str) :
  Forall (fun c => notByte dquote c = true) N ->
  Forall (fun c => notByte dquote c = true) p ->
  stripPrefix (N ++ [dquote]) (p ++ dquote :: R) = Some r ->
  p = N /\ r = R.
Proof.
  intros FN. revert p. induction FN as [|n N Hn FN IH]; intros p Fp.
  - destruct Fp as [|c p Hc Fp]; cbn [app stripPrefix].
    + rewrite Ascii.eqb_refl. intros H; injection H as <-. auto.
    + unfold notByte in Hc. destruct (Ascii.eqb dquote c); [discriminate|].
      discriminate.
  - destruct Fp as [|c p Hc Fp]; cbn [app stripPrefix].
    + unfold notByte in Hn. rewrite Ascii.eqb_sym in Hn.
      destruct (Ascii.eqb n dquote); [discriminate|]. discriminate.
    + destruct (Ascii.eqb n c) eqn:E; [|discriminate].
      apply Ascii.eqb_eq in E. subst c. intros H.
      destruct (IH p Fp H) as [-> ->]. auto.
Qed.

Lemma HasSuffix_refl (s : str) : HasSuffix s s = true.
Proof.
  unfold HasSuffix. rewrite <- (app_nil_r (rev s)) at 1. apply HasPrefix_self.
Qed.

Lemma HasPrefix_app_true (x y p : str) :
  HasPrefix x p = true -> HasPrefix (x ++ y) p = true.
Proof.
  revert x; induction p as [|c p IH]; intros x; [reflexivity|].
  destruct x as [|d x]; cbn [app HasPrefix]; [discriminate|].
  rewrite !andb_true_iff. intros [H1 H2]. split; [exact H1 | apply IH, H2].
Qed.

Lemma HasSuffix_cons (c : ascii) (s x : str) :
  HasSuffix (c :: s) x = false -> HasSuffix s x = false.
Proof.
  unfold HasSuffix. cbn [rev]. intros H.
  destruct (HasPrefix (rev s) (rev x)) eqn:E; [|reflexivity].
  rewrite (HasPrefix_app_true _ [c] _ E) in H. discriminate.
Qed.

Lemma attrAt_chunk (name : string) (cls : ascii -> bool) (p R : str) :
  Forall (fun c => notByte dquote c = true) (b name ++ b "=") ->
  Forall (fun c => notByte dquote c = true) p ->
  HasSuffix p (b name ++ b "=") = false \/
  match R with [] => True | c :: _ => cls c = false end ->
  attrAt name cls (p ++ dquote :: R) = None.
Proof.
  intros FN Fp Hc. unfold attrAt, attrOpen. rewrite app_assoc.
  destruct (stripPrefix ((b name ++ b "=") ++ [dquote]) (p ++ dquote :: R))
    as [r|] eqn:E; [|reflexivity].
  destruct (stripPrefix_chunk _ _ _ _ FN Fp E) as [-> ->].
  destruct Hc as [Hc | Hc].
  - rewrite HasSuffix_refl in Hc. discriminate.
  - destruct R as [|c R]; [reflexivity|]. cbn [takeWhile]. rewrite Hc. reflexivity.
Qed.

Lemma attrAt_quote (name : string) (cls : ascii -> bool) (R : str) :
  Forall (fun c => notByte dquote c = true) (b name ++ b "=") ->
  attrAt name cls (dquote :: R) = None.
Proof.
  intros FN. apply (attrAt_chunk name cls [] R FN); [constructor|].
  left. unfold HasSuffix. cbn [rev].
  destruct (rev (b name ++ b "=")) eqn:E; [|reflexivity].
  apply (f_equal (@rev ascii)) in E. rewrite rev_involutive in E.
  destruct (b name); discriminate.
Qed.

(** A quoted chunk that is not the value of attribute [name] is passed
    over by the scan for it. *)
Lemma firstAttr_skip (name : string) (cls : ascii -> bool) (p R : str) :
  Forall (fun c => notByte dquote c = true) (b name ++ b "=") ->
  Forall (fun c => notByte dquote c = true) p ->
  HasSuffix p (b name ++ b "=") = false \/
  match R with [] => True | c :: _ => cls c = false end ->
  firstAttr name cls (p ++ dquote :: R) = firstAttr name cls R.
Proof.
  intros FN Fp. induction Fp as [|c p Hp Fp IH]; intros Hc.
  - cbn [app firstAttr]. rewrite attrAt_quote by exact FN. reflexivity.
  - cbn [app firstAttr].
    change (c :: p ++ dquote :: R) with ((c :: p) ++ dquote :: R).
    rewrite attrAt_chunk; [| exact FN | constructor; assumption | exact Hc].
    apply IH. destruct Hc as [Hc | Hc]; [left | right; exact Hc].
    apply (HasSuffix_cons c). exact Hc.
Qed.

Lemma digits_no_suffix (ds x : str) (c : ascii) :
  Forall (fun d => isDigit d = true) ds -> isDigit c = false ->
  HasSuffix ds (x ++ [c]) = false.
Proof.
  intros F Hc. unfold HasSuffix. rewrite rev_app_distr. cbn [rev app].
  destruct (rev ds) as [|d r] eqn:E; [reflexivity|].
  cbn [HasPrefix].
  assert (Hd : isDigit d = true).
  { rewrite Forall_forall in F. apply F. apply in_rev. rewrite E. left; reflexivity. }
  destruct (Ascii.eqb c d) eqn:Ecd; [|reflexivity].
  apply Ascii.eqb_eq in Ecd. congruence.
Qed.

Lemma digits_no_quote (ds : str) :
  Forall (fun d => isDigit d = true) ds ->
  Forall (fun c => notByte dquote c = true) ds.
Proof.
  intros F. eapply Forall_impl; [|exact F]. intros c Hc. unfold notByte.
  destruct (Ascii.eqb dquote c) eqn:E; [|reflexivity].
  apply Ascii.eqb_eq in E. subst c. discriminate.
Qed.

Lemma plain_no_quote (s : str) :
  Forall (fun c => escapable c = false) s ->
  Forall (fun c => notByte dquote c = true) s.
Proof.
  intros F. eapply Forall_impl; [|exact F]. intros c Hc. unfold notByte.
  destruct (Ascii.eqb dquote c) eqn:E; [|reflexivity].
  apply Ascii.eqb_eq in E. subst c. discriminate.
Qed.


(** ** Reading back the attributes the writer wrote *)

Ltac quote_free :=
  first [ apply digits_no_quote; assumption
        | apply plain_no_quote; assumption
        | repeat constructor ].

Lemma exportedAttrs_times (s : store) (r : bookmarkRow) (title note : str) :
  cleanRow s r title note ->
  timeAttr "ADD_DATE" (exportedAttrs s r) = Some (bm_created r) /\
  timeAttr "LAST_MODIFIED" (exportedAttrs s r) = Some (bm_updated r).
Proof.
  intros [_ _ (Hu & Pu & Su) _ _ _ Hc Hm _].
  destruct (formatInt_spec _ (proj1 Hc)) as (_ & Fc & _).
  unfold exportedAttrs, exportedAttrsTail, attrOpen at 1.
  rewrite (EscapeString_plain _ Pu).
  set (tagsPart := if negb (isEmpty _) then _ else _).
  split.
  - unfold timeAttr.
    replace (firstAttr "ADD_DATE" isDigit _)
      with (firstAttr "ADD_DATE" isDigit
              (b " " ++ attrOpen "ADD_DATE" ++ formatInt (bm_created r) ++
               dquote :: b " LAST_MODIFIED=" ++ [dquote] ++
               formatInt (bm_updated r) ++ [dquote] ++ tagsPart)).
    + fold (timeAttr "ADD_DATE"
              (b " " ++ attrOpen "ADD_DATE" ++ formatInt (bm_created r) ++
               dquote :: b " LAST_MODIFIED=" ++ [dquote] ++
               formatInt (bm_updated r) ++ [dquote] ++ tagsPart)).
      apply timeAttr_written; [reflexivity | exact Hc].
    + symmetry.
      replace ((b "HREF" ++ b "=" ++ [dquote]) ++ bm_url r ++ [dquote] ++
               b " ADD_DATE=" ++ [dquote] ++ formatInt (bm_created r) ++ [dquote] ++
               b " LAST_MODIFIED=" ++ [dquote] ++ formatInt (bm_updated r) ++
               [dquote] ++ tagsPart)
        with (b "HREF=" ++ dquote :: bm_url r ++ dquote ::
              b " " ++ attrOpen "ADD_DATE" ++ formatInt (bm_created r) ++
              dquote :: b " LAST_MODIFIED=" ++ [dquote] ++
              formatInt (bm_updated r) ++ [dquote] ++ tagsPart)
        by (unfold attrOpen; app_norm).
      rewrite (firstAttr_skip "ADD_DATE" isDigit (b "HREF=")); [| quote_free | quote_free | left; reflexivity].
      rewrite (firstAttr_skip "ADD_DATE" isDigit (bm_url r)); [| quote_free | quote_free | right; reflexivity].
      reflexivity.
  - unfold timeAttr.
    replace (firstAttr "LAST_MODIFIED" isDigit _)
      with (firstAttr "LAST_MODIFIED" isDigit
              (b " " ++ attrOpen "LAST_MODIFIED" ++ formatInt (bm_updated r) ++
               dquote :: tagsPart)).
    + fold (timeAttr "LAST_MODIFIED"
              (b " " ++ attrOpen "LAST_MODIFIED" ++ formatInt (bm_updated r) ++
               dquote :: tagsPart)).
      apply timeAttr_written; [reflexivity | exact Hm].
    + symmetry.
      replace (attrOpen "HREF" ++ bm_url r ++ [dquote] ++
               b " ADD_DATE=" ++ [dquote] ++ formatInt (bm_created r) ++ [dquote] ++
               b " LAST_MODIFIED=" ++ [dquote] ++ formatInt (bm_updated r) ++
               [dquote] ++ tagsPart)
        with (b "HREF=" ++ dquote :: bm_url r ++ dquote ::
              b " ADD_DATE=" ++ dquote :: formatInt (bm_created r) ++ dquote ::
              b " " ++ attrOpen "LAST_MODIFIED" ++ formatInt (bm_updated r) ++
              dquote :: tagsPart)
        by (unfold attrOpen; app_norm).
      rewrite (firstAttr_skip "LAST_MODIFIED" isDigit (b "HREF=")); [| quote_free | quote_free | left; reflexivity].
      rewrite (firstAttr_skip "LAST_MODIFIED" isDigit (bm_url r)); [| quote_free | quote_free | right; reflexivity].
      rewrite (firstAttr_skip "LAST_MODIFIED" isDigit (b " ADD_DATE=")); [| quote_free | quote_free | left; reflexivity].
      rewrite (firstAttr_skip "LAST_MODIFIED" isDigit (formatInt (bm_created r))); [| quote_free | quote_free | right; reflexivity].
      reflexivity.
Qed.

Lemma exportedAttrs_tags (s : store) (r : bookmarkRow) (title note : str) :
  cleanRow s r title note ->
  match firstAttr "TAGS" (notByte dquote) (exportedAttrs s r) with
  | Some v => labelsOf v
  | None => []
  end = joinedTags s (bm_id r).
Proof.
  intros [_ _ (Hu & Pu & Su) _ _ _ Hc Hm Hl].
  destruct (formatInt_spec _ (proj1 Hc)) as (_ & Fc & _).
  destruct (formatInt_spec _ (proj1 Hm)) as (_ & Fm & _).
  unfold exportedAttrs, exportedAttrsTail, attrOpen.
  rewrite (EscapeString_plain _ Pu).
  set (tagsPart := if negb (isEmpty _) then _ else _).
  replace ((b "HREF" ++ b "=" ++ [dquote]) ++ bm_url r ++ [dquote] ++
           b " ADD_DATE=" ++ [dquote] ++ formatInt (bm_created r) ++ [dquote] ++
           b " LAST_MODIFIED=" ++ [dquote] ++ formatInt (bm_updated r) ++
           [dquote] ++ tagsPart)
    with (b "HREF=" ++ dquote :: bm_url r ++ dquote ::
          b " ADD_DATE=" ++ dquote :: formatInt (bm_created r) ++ dquote ::
          b " LAST_MODIFIED=" ++ dquote :: formatInt (bm_updated r) ++
          dquote :: tagsPart)
    by app_norm.
  rewrite (firstAttr_skip "TAGS" (notByte dquote) (b "HREF="));
    [| quote_free | quote_free | left; reflexivity].
  rewrite (firstAttr_skip "TAGS" (notByte dquote) (bm_url r));
    [| quote_free | quote_free | left; exact Su].
  rewrite (firstAttr_skip "TAGS" (notByte dquote) (b " ADD_DATE="));
    [| quote_free | quote_free | left; reflexivity].
  rewrite (firstAttr_skip "TAGS" (notByte dquote) (formatInt (bm_created r)));
    [| quote_free | quote_free
     | left; apply (digits_no_suffix _ (b "TAGS") "="); [exact Fc | reflexivity]].
  rewrite (firstAttr_skip "TAGS" (notByte dquote) (b " LAST_MODIFIED="));
    [| quote_free | quote_free | left; reflexivity].
  rewrite (firstAttr_skip "TAGS" (notByte dquote) (formatInt (bm_updated r)));
    [| quote_free | quote_free
     | left; apply (digits_no_suffix _ (b "TAGS") "="); [exact Fm | reflexivity]].
  subst tagsPart.
  destruct (joinedTags s (bm_id r)) as [|l0 ls] eqn:El.
  - reflexivity.
  - assert (Ne : l0 :: ls <> []) by discriminate.
    cbn [groupConcat].
    rewrite (EscapeString_plain _ (joinComma_plain _ Hl)).
    pose proof (joinComma_nonempty _ Ne Hl) as Hj.
    destruct (joinComma (l0 :: ls)) as [|j0 js] eqn:Ej; [congruence|].
    cbn [isEmpty negb].
    change (b " TAGS=" ++ [dquote] ++ (j0 :: js) ++ [dquote])
      with (b " " ++ attrOpen "TAGS" ++ (j0 :: js) ++ dquote :: []).
    rewrite firstAttr_at.
    + rewrite <- Ej. apply labelsOf_joinComma; assumption.
    + reflexivity.
    + reflexivity.
    + discriminate.
    + rewrite <- Ej. apply plain_no_quote, joinComma_plain, Hl.
Qed.


(** ** The description pattern *)

Lemma reDesc_pass (c : ascii) (s : str) :
  c <> lt ->
  FindStringSubmatch reDesc (c :: s) = FindStringSubmatch reDesc s.
Proof.
  intros Hc. cbn [FindStringSubmatch]. unfold matchHere, reDesc.
  cbn [rmatch]. destruct (Ascii.eqb lt c) eqn:E; [|reflexivity].
  apply Ascii.eqb_eq in E. congruence.
Qed.

Lemma reDesc_skip (p s : str) :
  Forall (fun c => c <> lt) p ->
  FindStringSubmatch reDesc (p ++ s) = FindStringSubmatch reDesc s.
Proof.
  induction 1 as [|c p Hc F IH]; [reflexivity|].
  cbn [app]. rewrite reDesc_pass by exact Hc. exact IH.
Qed.

Lemma reDesc_tag (c : ascii) (s : str) :
  Ascii.eqb (toLower "D") (toLower c) = false ->
  FindStringSubmatch reDesc (lt :: c :: s) = FindStringSubmatch reDesc (c :: s).
Proof.
  intros Hc. cbn [FindStringSubmatch]. unfold matchHere at 1, reDesc at 1.
  cbn [rmatch]. change (Ascii.eqb lt lt) with true. cbn match. rewrite Hc.
  reflexivity.
Qed.

Lemma FindStringSubmatch_here (r : regex) (s s' : str) (caps : list str) :
  matchHere r s = Some (s', caps) ->
  FindStringSubmatch r s = firstn (List.length s - List.length s') s :: caps.
Proof.
  intros H. destruct s; cbn [FindStringSubmatch]; rewrite H; reflexivity.
Qed.

Lemma reDesc_hit (v rest : str) :
  v <> [] -> Forall (fun c => c <> lt) v ->
  match rest with [] => True | c :: _ => c = lt end ->
  FindStringSubmatch reDesc (b "<DD>" ++ v ++ rest) = [b "<DD>" ++ v; v].
Proof.
  intros Hv F Hr.
  destruct v as [|c v]; [congruence|].
  inversion F as [|? ? Hc F']; subst.
  assert (Hg : notByte lt c = true).
  { unfold notByte. destruct (Ascii.eqb lt c) eqn:E; [|reflexivity].
    apply Ascii.eqb_eq in E. congruence. }
  assert (Fg : Forall (fun c => notByte lt c = true) v).
  { eapply Forall_impl; [|exact F']. intros a Ha. unfold notByte.
    destruct (Ascii.eqb lt a) eqn:E; [|reflexivity].
    apply Ascii.eqb_eq in E. congruence. }
  assert (Hm : matchHere reDesc (b "<DD>" ++ (c :: v) ++ rest)
               = Some (rest, [c :: v])).
  { unfold matchHere, reDesc.
    cbn [rmatch b list_ascii_of_string app].
    change (Ascii.eqb lt lt) with true.
    change (Ascii.eqb (toLower "D") (toLower "D")) with true.
    change (Ascii.eqb gt gt) with true. cbn match.
    rewrite Hg.
    apply greedy_all.
    - exact Fg.
    - cbn [app]. f_equal. f_equal. f_equal.
      change (c :: v ++ rest) with ((c :: v) ++ rest).
      apply firstn_length_app.
    - destruct rest as [|x rest]; [exact I|]. subst x. reflexivity. }
  rewrite (FindStringSubmatch_here _ _ _ _ Hm). f_equal.
  rewrite app_assoc. apply firstn_length_app.
Qed.

Lemma notByte_neq (x : ascii) (l : str) :
  Forall (fun c => notByte x c = true) l <-> Forall (fun c => c <> x) l.
Proof.
  split; apply Forall_impl; intros c; unfold notByte;
    destruct (Ascii.eqb x c) eqn:E.
  - discriminate.
  - intros _ H. subst c. rewrite Ascii.eqb_refl in E. discriminate.
  - apply Ascii.eqb_eq in E. congruence.
  - reflexivity.
Qed.

Lemma exportedAttrsTail_lt (s : store) (r : bookmarkRow) :
  Forall (fun c => c <> lt) (exportedAttrsTail s r).
Proof.
  apply notByte_neq. unfold exportedAttrsTail.
  assert (F : forall n, Forall (fun c => notByte lt c = true) (formatInt n)).
  { intros n. apply formatInt_Forall; [repeat constructor | reflexivity]. }
  rewrite !Forall_app. repeat split; try apply F; try (repeat constructor; fail).
  destruct (negb (isEmpty _)); [|constructor].
  rewrite !Forall_app. repeat split; try (repeat constructor; fail).
  destruct (groupConcat _); [|constructor].
  apply EscapeString_free; [reflexivity | discriminate].
Qed.

Lemma TrimRightSpace_EscapeString_lf (n : str) :
  TrimSpace n = n -> TrimRightSpace (EscapeString n ++ lf) = EscapeString n.
Proof.
  intros Hn. pose proof (TrimSpace_EscapeString n Hn) as He.
  apply TrimSpace_fix in He. destruct He as [_ H2].
  rewrite TrimRightSpace_rev, rev_app_distr.
  change (rev lf ++ rev (EscapeString n)) with (newline :: rev (EscapeString n)).
  change (trimHead space2r space3r (newline :: rev (EscapeString n)))
    with (trimHead space2r space3r (rev (EscapeString n))).
  apply trimHead_fix in H2. rewrite H2. apply rev_involutive.
Qed.

(** What is left of the text after the anchor once the block is trimmed. *)
Lemma TrimRightSpace_exportedTail (note post : str) :
  TrimSpace note = note -> post = [] \/ post = closing ->
  TrimRightSpace (exportedTail note ++ post) =
  (if negb (isEmpty (EscapeString note)) then b "<DD>" ++ EscapeString note
   else []) ++
  (match post with [] => [] | _ => lf ++ b "</DL><p>" end).
Proof.
  intros Hn Hp. unfold exportedTail.
  destruct (EscapeString note) as [|e es] eqn:Ee; cbn [isEmpty negb].
  - destruct Hp as [-> | ->]; reflexivity.
  - rewrite <- Ee. destruct Hp as [-> | ->].
    + rewrite !app_nil_r.
      change (b "<DD>" ++ EscapeString note)
        with (b "<DD" ++ gt :: EscapeString note).
      rewrite <- !app_assoc.
      change ((gt :: EscapeString note) ++ lf) with (gt :: EscapeString note ++ lf).
      rewrite (TrimRightSpace_stop _ gt) by apply stopper_gt.
      rewrite TrimRightSpace_EscapeString_lf by exact Hn. reflexivity.
    + unfold closing. rewrite Ee.
      replace (((b "<DD>" ++ e :: es) ++ lf) ++ b "</DL><p>" ++ lf)
        with ((b "<DD>" ++ (e :: es) ++ lf ++ b "</DL><p") ++ gt :: lf)
        by (rewrite <- !app_assoc; reflexivity).
      rewrite (TrimRightSpace_stop _ gt) by apply stopper_gt.
      change (TrimRightSpace lf) with (@nil ascii).
      rewrite <- !app_assoc. reflexivity.
Qed.

Lemma exported_description (s : store) (r : bookmarkRow) (title note post : str) :
  TrimSpace note = note -> post = [] \/ post = closing ->
  extractDescription reDesc
    (TrimSpace (dialectBlock (b " ") [] (EscapeString (bm_url r))
                             (exportedAttrsTail s r) (EscapeString title)
                             (exportedTail note ++ post)))
  = htmlUnescape (EscapeString note).
Proof.
  intros Hn Hp.
  rewrite dialectBlock_shape, TrimSpace_tag, TrimRightSpace_exportedTail
    by assumption.
  set (rest := _ ++ match post with [] => [] | _ => _ end).
  set (attrs := [] ++ attrOpen "HREF" ++ _).
  assert (Fa : Forall (fun c => c <> lt) attrs).
  { unfold attrs. cbn [app]. rewrite !Forall_app. repeat split.
    - repeat constructor; discriminate.
    - apply EscapeString_no_lt.
    - constructor; [discriminate | apply exportedAttrsTail_lt]. }
  assert (E : FindStringSubmatch reDesc
                (lt :: ("A"%char :: b " " ++ attrs ++ gt :: EscapeString title ++ b "</A")
                    ++ gt :: rest)
              = FindStringSubmatch reDesc rest).
  { cbn [app]. rewrite reDesc_tag by reflexivity.
    replace ("A"%char :: (b " " ++ attrs ++ gt :: EscapeString title ++ b "</A")
             ++ gt :: rest)
      with (("A"%char :: b " " ++ attrs ++ gt :: EscapeString title) ++
            lt :: "/"%char :: b "A>" ++ rest)
      by (cbn [app b list_ascii_of_string]; rewrite <- !app_assoc; cbn [app];
          rewrite <- !app_assoc; reflexivity).
    rewrite reDesc_skip.
    2:{ constructor; [discriminate|]. constructor; [discriminate|].
        rewrite Forall_app. split; [exact Fa|].
        constructor; [discriminate | apply EscapeString_no_lt]. }
    rewrite reDesc_tag by reflexivity.
    apply (reDesc_skip ("/"%char :: b "A>")).
    repeat constructor; discriminate. }
  unfold extractDescription. rewrite E. unfold rest.
  destruct (EscapeString note) as [|e es] eqn:Ee; cbn [isEmpty negb].
  - destruct Hp as [-> | ->]; reflexivity.
  - pose proof (EscapeString_no_lt note) as Fl. rewrite Ee in Fl.
    destruct Hp as [-> | ->].
    + rewrite <- app_assoc.
      rewrite (reDesc_hit (e :: es) []); [| discriminate | exact Fl | exact I].
      cbn [sub nth]. rewrite <- Ee. rewrite TrimSpace_EscapeString by exact Hn.
      reflexivity.
    + change (match closing with [] => [] | _ :: _ => lf ++ b "</DL><p>" end)
        with (lf ++ b "</DL><p>").
      replace ((b "<DD>" ++ e :: es) ++ lf ++ b "</DL><p>")
        with (b "<DD>" ++ ((e :: es) ++ lf) ++ b "</DL><p>")
        by (rewrite <- !app_assoc; reflexivity).
      rewrite reDesc_hit.
      * cbn [sub nth]. rewrite <- Ee. rewrite TrimSpace_EscapeString_lf.
        -- reflexivity.
        -- exact Hn.
        -- intros ->. discriminate.
      * discriminate.
      * rewrite Forall_app. split; [exact Fl | repeat constructor; discriminate].
      * reflexivity.
Qed.

(** ** An exported entry parses to the candidate of its row *)

Lemma parseBlock_cleanRow (now : Z) (s : store) (r : bookmarkRow)
      (title note post : str) :
  cleanRow s r title note -> post = [] \/ post = closing ->
  parseBlock now
    (dialectBlock (b " ") [] (EscapeString (bm_url r)) (exportedAttrsTail s r)
                  (EscapeString title) (exportedTail note ++ post))
  = Some (rowJob s r title note).
Proof.
  intros Hc Hp.
  pose proof (exportedAttrs_times s r title note Hc) as [Tc Tm].
  pose proof (exportedAttrs_tags s r title note Hc) as Tg.
  destruct Hc as [Et En (Hu & Pu & Su) [Dt Wt] Lt [Dn Wn] Hcr Hup Hl].
  destruct (parseBlock_dialect now (b " ") [] (EscapeString (bm_url r))
              (exportedAttrsTail s r) (EscapeString title)
              (exportedTail note ++ post)
              (exported_dialectOK s r title Hu Lt))
    as (job & t1 & t2 & Hj & Ha & Huri & _ & Hat & Hall).
  rewrite Hj. f_equal.
  apply parseBlock_Some in Hj. cbv zeta in Hj.
  destruct Hj as (_ & _ & Jt & Jn & Jc & Jm & Jg).
  change ([] ++ attrOpen "HREF" ++ EscapeString (bm_url r) ++ [dquote] ++
          exportedAttrsTail s r) with (exportedAttrs s r) in Ha.
  rewrite Ha in Jc, Jm, Jg.
  unfold reAddDate in Jc. unfold reLastMod in Jm.
  rewrite extractTimestamp_spec in Jc, Jm. rewrite Tc in Jc. rewrite Tm in Jm.
  rewrite extractTags_spec, Tg in Jg.
  rewrite exported_description in Jn by assumption.
  rewrite htmlUnescape_EscapeString in Jn by exact Dn.
  rewrite Hat, (Hall (EscapeString_no_lt title)) in Jt.
  rewrite TrimSpace_EscapeString, htmlUnescape_EscapeString in Jt by assumption.
  rewrite (EscapeString_plain _ Pu) in Huri.
  destruct job as [u t n c m g]. cbn [URI Title Note CreatedAt UpdatedAt Tags] in *.
  unfold rowJob. congruence.
Qed.


(** ** Splitting an exported document *)

Lemma splitFrom_nonempty (sep s : str) (k : nat) : splitFrom sep s k <> [].
Proof.
  revert k. induction s as [|c s IH]; intros k; cbn [splitFrom]; [discriminate|].
  destruct k; [|apply IH].
  destruct (HasPrefix (c :: s) sep); [discriminate|].
  specialize (IH O). destruct (splitFrom sep s 0); [congruence | discriminate].
Qed.

Lemma splitFrom_free (p s : str) :
  sepFree p s ->
  splitFrom (b "<DT>") (p ++ s) 0 = prependPiece p (splitFrom (b "<DT>") s 0).
Proof.
  induction p as [|c p IH]; intros H.
  - cbn [app]. pose proof (splitFrom_nonempty (b "<DT>") s 0) as Hn.
    destruct (splitFrom (b "<DT>") s 0); [congruence | reflexivity].
  - destruct H as [H1 H2]. cbn [app splitFrom]. cbn [app] in H1. rewrite H1.
    rewrite (IH H2). destruct (splitFrom (b "<DT>") s 0); reflexivity.
Qed.

Lemma splitFrom_hit (s : str) :
  splitFrom (b "<DT>") (b "<DT>" ++ s) 0 = [] :: splitFrom (b "<DT>") s 0.
Proof. reflexivity. Qed.

Lemma sepFree_app (p q s : str) :
  sepFree p (q ++ s) -> sepFree q s -> sepFree (p ++ q) s.
Proof.
  induction p as [|c p IH]; intros Hp Hq; [exact Hq|].
  destruct Hp as [H1 H2]. cbn [app sepFree]. split.
  - cbn [app] in H1 |- *. rewrite <- app_assoc. exact H1.
  - apply IH; assumption.
Qed.

Lemma sepFree_plain (p s : str) :
  Forall (fun c => c <> lt) p -> sepFree p s.
Proof.
  induction 1 as [|c p Hc F IH]; [exact I|].
  cbn [sepFree]. split; [|exact IH].
  cbn [app b list_ascii_of_string HasPrefix].
  destruct (Ascii.eqb "<" c) eqn:E; [|reflexivity].
  apply Ascii.eqb_eq in E. subst c. exfalso. apply Hc. reflexivity.
Qed.

Lemma sepFree_tag (c : ascii) (p s : str) :
  Ascii.eqb "D" c = false -> Forall (fun c => c <> lt) (c :: p) ->
  sepFree (lt :: c :: p) s.
Proof.
  intros Hc F. cbn [sepFree]. split; [|apply (sepFree_plain (c :: p)); exact F].
  cbn [app b list_ascii_of_string HasPrefix]. rewrite Hc. reflexivity.
Qed.

Lemma Split_document (p tr : str) (lines : list str) :
  (forall x, sepFree p x) ->
  Forall (fun l => forall x, sepFree l x) lines ->
  splitFrom (b "<DT>") tr 0 = [tr] ->
  Split (p ++ List.concat (map (fun l => b "<DT>" ++ l) lines) ++ tr) (b "<DT>")
  = docBlocks p lines tr.
Proof.
  intros Hp F Ht. unfold Split. revert p Hp.
  induction F as [|l ls Hl F IH]; intros p Hp.
  - cbn [map List.concat app docBlocks]. rewrite splitFrom_free by apply Hp.
    rewrite Ht. reflexivity.
  - cbn [map List.concat docBlocks]. rewrite splitFrom_free by apply Hp.
    rewrite <- !app_assoc. rewrite splitFrom_hit. cbn [prependPiece].
    rewrite app_nil_r. rewrite (IH l Hl). reflexivity.
Qed.

Lemma sepFree_entryLine (s : store) (r : bookmarkRow) (x : str) :
  sepFree (entryLine s r) x.
Proof.
  unfold entryLine, dialectBlock, exportedTail.
  set (attrs := [] ++ attrOpen "HREF" ++ _).
  assert (Fa : Forall (fun c => c <> lt) attrs).
  { unfold attrs. cbn [app]. rewrite !Forall_app. repeat split.
    - repeat constructor; discriminate.
    - apply EscapeString_no_lt.
    - constructor; [discriminate | apply exportedAttrsTail_lt]. }
  pose proof (EscapeString_no_lt (textOf (bm_title r))) as Ft.
  pose proof (EscapeString_no_lt (textOf (bm_note r))) as Fn.
  set (tail := _ ++ lf).
  replace (b "<A" ++ b " " ++ attrs ++ b ">" ++
           EscapeString (textOf (bm_title r)) ++ b "</A>" ++ tail)
    with ((lt :: "A"%char :: b " " ++ attrs ++ b ">" ++
           EscapeString (textOf (bm_title r))) ++
          (lt :: "/"%char :: b "A>") ++ tail)
    by (cbn [app b list_ascii_of_string]; rewrite <- ?app_assoc;
        cbn [app]; rewrite <- ?app_assoc; reflexivity).
  apply sepFree_app; [|apply sepFree_app].
  - apply sepFree_tag; [reflexivity|].
    constructor; [discriminate|]. constructor; [discriminate|].
    rewrite !Forall_app. repeat split; try assumption.
    repeat constructor; discriminate.
  - apply sepFree_tag; [reflexivity | repeat constructor; discriminate].
  - unfold tail. destruct (negb (isEmpty _)).
    + change (b "<DD>" ++ EscapeString (textOf (bm_note r)))
        with (lt :: "D"%char :: "D"%char :: gt :: EscapeString (textOf (bm_note r))).
      cbn [app sepFree]. split; [reflexivity|].
      apply (sepFree_plain ("D"%char :: "D"%char :: gt :: _ ++ lf)).
      constructor; [discriminate|]. constructor; [discriminate|].
      constructor; [discriminate|]. rewrite Forall_app. split; [exact Fn|].
      repeat constructor; discriminate.
    + apply (sepFree_plain lf). repeat constructor; discriminate.
Qed.

Lemma sepFree_preamble (x : str) : sepFree preamble x.
Proof. vm_compute. repeat split. Qed.

Lemma parseBlock_preamble (now : Z) :
  parseBlock now preamble = None /\ parseBlock now (preamble ++ closing) = None.
Proof. split; vm_compute; reflexivity. Qed.

Lemma exportRows_clean (s : store) (rows : list bookmarkRow) :
  Forall (cleanEntry s) rows ->
  exportRows s rows =
  (List.concat (map (fun l => b "<DT>" ++ l) (map (entryLine s) rows)),
   List.length rows).
Proof.
  induction 1 as [|r rows Hr F IH]; [reflexivity|].
  cbn [exportRows map List.concat List.length]. rewrite IH.
  rewrite (exportRow_shape s r _ _ (clean_title _ _ _ _ Hr) (clean_note _ _ _ _ Hr)).
  unfold entryLine. rewrite <- app_assoc. reflexivity.
Qed.

Lemma dialectBlock_app (ws a1 u a2 t post x : str) :
  dialectBlock ws a1 u a2 t post ++ x = dialectBlock ws a1 u a2 t (post ++ x).
Proof. unfold dialectBlock. rewrite <- !app_assoc. reflexivity. Qed.

Lemma parseLoop_docBlocks (now : Z) (s : store) (rows : list bookmarkRow) :
  forall r, Forall (cleanEntry s) (r :: rows) ->
  parseLoop now (docBlocks (entryLine s r) (map (entryLine s) rows) closing)
  = map (entryJob s) (r :: rows).
Proof.
  induction rows as [|r' rows IH]; intros r F; inversion F as [|? ? Hr F']; subst.
  - cbn [map docBlocks parseLoop]. unfold entryLine. rewrite dialectBlock_app.
    rewrite (parseBlock_cleanRow now s r _ _ closing Hr) by (right; reflexivity).
    reflexivity.
  - cbn [map docBlocks parseLoop].
    replace (entryLine s r) with (entryLine s r ++ []) by apply app_nil_r.
    unfold entryLine at 1. rewrite dialectBlock_app.
    rewrite (parseBlock_cleanRow now s r _ _ [] Hr) by (left; reflexivity).
    f_equal. apply (IH r' F').
Qed.

Lemma parseBlocks_exported (s : store) (clk : clock) :
  Forall (cleanEntry s) (bookmarks s) ->
  fst (parseBlocks (Split (fst (exportBookmarks s)) (b "<DT>")) clk)
  = map (entryJob s) (bookmarks s).
Proof.
  intros F. unfold exportBookmarks. rewrite (exportRows_clean s _ F). cbn [fst].
  change (b "</DL><p>" ++ lf) with closing.
  rewrite Split_document.
  - unfold parseBlocks, time_Now_Unix. cbn [fst].
    destruct (parseBlock_preamble (reading clk (reads clk))) as [P1 P2].
    destruct (bookmarks s) as [|r rows].
    + cbn [map docBlocks parseLoop]. rewrite P2. reflexivity.
    + cbn [map docBlocks parseLoop]. rewrite P1.
      apply (parseLoop_docBlocks _ s rows r F).
  - apply sepFree_preamble.
  - rewrite Forall_map. rewrite Forall_forall. intros r _ x.
    apply sepFree_entryLine.
  - reflexivity.
Qed.


(** ** Where the rows of an import come from *)

Lemma provenance_links (jobs : list Job) (s0 s s' : store) :
  storeGrows s s' -> bookmark_tags s' = bookmark_tags s ->
  (forall l, In l (bookmark_tags s) ->
     In l (bookmark_tags s0) \/
     exists job t, In job jobs /\ In t (Tags job) /\
       bookmarkStored (URI job) (fst l) s /\ tagStored t (snd l) s) ->
  forall l, In l (bookmark_tags s') ->
     In l (bookmark_tags s0) \/
     exists job t, In job jobs /\ In t (Tags job) /\
       bookmarkStored (URI job) (fst l) s' /\ tagStored t (snd l) s'.
Proof.
  intros G E H l Hl. rewrite E in Hl.
  destruct (H l Hl) as [H0 | (job & t & H1 & H2 & H3 & H4)]; [left; exact H0|].
  right. exists job, t. splits; try assumption.
  - eapply bookmarkStored_grows; eassumption.
  - eapply tagStored_grows; eassumption.
Qed.

Lemma poolStep_provenance (faults : nat -> site -> bool) (jobs : list Job)
      (c0 : conn) (w : nat) (p p' : pool) :
  poolInv faults jobs c0 p ->
  provenance jobs (live c0) (live (pconn p)) ->
  poolStep faults w p = Some p' ->
  provenance jobs (live c0) (live (pconn p')).
Proof.
  intros I Pv. unfold poolStep.
  destruct (nth_error (pworkers p) w) as [y|] eqn:En; [|discriminate].
  destruct (setNth_split _ _ _ En) as (l1 & l2 & El & Es).
  destruct y as [|n job|n job id].
  - destruct (pjobs p) as [|[n job] rest]; [discriminate|].
    intros H; injection H as <-. exact Pv.
  - assert (Hin : In (n, job) (pending p)).
    { unfold pending. rewrite El, pending_split. cbn [inflight]. in_solve. }
    assert (Hj : In job jobs).
    { eapply nth_error_In. eapply (inv_pending _ _ _ _ I). exact Hin. }
    destruct (insertBookmark_spec (faults n) (URI job) (Title job) (Note job)
                (CreatedAt job) (UpdatedAt job) (pconn p) (inv_journal _ _ _ _ I))
      as (r & c & E & J & R).
    rewrite E.
    assert (Q : provenance jobs (live c0) (live c)).
    { destruct r as [id | e]; [|destruct R as (R & _); rewrite R; exact Pv].
      destruct R as (_ & _ & R).
      destruct (existsb _ (bookmarks (live (pconn p)))); [rewrite R; exact Pv|].
      destruct Pv as [Pr Pl]. split.
      - rewrite R. cbn [bookmarks]. intros row Hr. apply in_app_or in Hr.
        destruct Hr as [Hr | [<- | []]]; [apply Pr; exact Hr|].
        right. exists job. split; [exact Hj | reflexivity].
      - apply (provenance_links jobs (live c0) (live (pconn p))); [| |exact Pl].
        + rewrite R. unfold storeGrows. cbn [bookmarks tags bookmark_tags].
          splits; auto using incl_refl, incl_appl.
        + rewrite R. reflexivity. }
    destruct r; intros H; injection H as <-; exact Q.
  - assert (Hin : In (n, job) (pending p)).
    { unfold pending. rewrite El, pending_split. cbn [inflight]. in_solve. }
    assert (Hj : In job jobs).
    { eapply nth_error_In. eapply (inv_pending _ _ _ _ I). exact Hin. }
    assert (Hst : bookmarkStored (URI job) id (live (pconn p))).
    { apply (inv_inserted _ _ _ _ I n job id). rewrite El. in_solve. }
    destruct (insertTags_spec (faults n) id (Tags job) (pconn p)
                (inv_journal _ _ _ _ I) (inv_constraints _ _ _ _ I))
      as (r & c & E & J & R).
    rewrite E.
    assert (Q : provenance jobs (live c0) (live c)).
    { destruct r as [u | e]; [|destruct R as (R & _); rewrite R; exact Pv].
      destruct R as (_ & (C & B & G & T & L) & _).
      destruct Pv as [Pr Pl]. split.
      - rewrite B. exact Pr.
      - intros l Hl. destruct (L l Hl) as [H0 | (H1 & t & H2 & H3)].
        + destruct (Pl l H0) as [H | (job' & t' & A1 & A2 & A3 & A4)];
            [left; exact H|].
          right. exists job', t'. splits; try assumption.
          * eapply bookmarkStored_grows; eassumption.
          * eapply tagStored_grows; eassumption.
        + right. exists job, t. splits; try assumption.
          rewrite H1. eapply bookmarkStored_grows; eassumption. }
    destruct r; intros H; injection H as <-; exact Q.
Qed.

Lemma runPool_provenance (faults : nat -> site -> bool) (sched : nat -> nat)
      (jobs : list Job) (c0 : conn) (fuel : nat) :
  forall (t : nat) (p : pool),
    poolInv faults jobs c0 p ->
    provenance jobs (live c0) (live (pconn p)) ->
    provenance jobs (live c0) (live (pconn (runPool faults sched fuel t p))).
Proof.
  induction fuel as [|fuel IH]; intros t p I Pv; cbn [runPool]; [exact Pv|].
  destruct (enabled p) as [|w0 ws] eqn:E; [exact Pv|].
  set (w := nth (sched t mod List.length (w0 :: ws)) (w0 :: ws) w0).
  destruct (poolStep faults w p) as [p'|] eqn:Hs; [|exact Pv].
  destruct (poolStep_inv faults jobs c0 w p p' I Hs) as (I' & _ & _).
  apply IH; [exact I'|]. exact (poolStep_provenance faults jobs c0 w p p' I Pv Hs).
Qed.

Lemma importBookmarks_provenance (e : env) (content : str) (c : conn) :
  journal c = None -> constraints (live c) ->
  let r := importBookmarks e content c in
  provenance (importJobs r) (live c) (live (importConn r)).
Proof.
  intros J C. cbv zeta. unfold importBookmarks.
  destruct (parseBlocks (Split content (b "<DT>")) (envClock e)) as [jobs clk].
  cbn [importConn importJobs].
  apply runPool_provenance.
  - apply poolInv_init; assumption.
  - cbn [pconn]. split; intros x Hx; left; exact Hx.
Qed.


(** ** Stores with the same entries *)

Lemma NoDup_map_eq {A B} (f : A -> B) (l : list A) (x y : A) :
  NoDup (map f l) -> In x l -> In y l -> f x = f y -> x = y.
Proof.
  induction l as [|a l IH]; intros N Hx Hy E; [destruct Hx|].
  cbn [map] in N. inversion N as [|? ? Hn N']; subst.
  destruct Hx as [-> | Hx], Hy as [-> | Hy].
  - reflexivity.
  - exfalso. apply Hn. rewrite E. apply in_map. exact Hy.
  - exfalso. apply Hn. rewrite <- E. apply in_map. exact Hx.
  - apply IH; assumption.
Qed.

Lemma joinedTags_In (s : store) (bid : Z) (t : str) :
  In t (joinedTags s bid) <->
  exists tid, In (bid, tid) (bookmark_tags s) /\ tagStored t tid s.
Proof.
  unfold joinedTags, tagStored. rewrite in_flat_map. split.
  - intros ([b0 tid] & Hl & Ht). cbn [fst snd] in Ht.
    destruct (b0 =? bid) eqn:E; [|destruct Ht].
    apply Z.eqb_eq in E. subst b0.
    apply in_map_iff in Ht. destruct Ht as (row & Hr & Hf).
    apply filter_In in Hf. destruct Hf as [Hi He]. apply Z.eqb_eq in He.
    exists tid. split; [exact Hl|]. exists row. auto.
  - intros (tid & Hl & row & Hi & Hr & He).
    exists (bid, tid). split; [exact Hl|]. cbn [fst snd]. rewrite Z.eqb_refl.
    apply in_map_iff. exists row. split; [exact Hr|].
    apply filter_In. split; [exact Hi | apply Z.eqb_eq; exact He].
Qed.

Lemma bookmarkStored_unique (u u' : str) (id : Z) (s : store) :
  constraints s -> bookmarkStored u id s -> bookmarkStored u' id s -> u = u'.
Proof.
  intros C (r1 & H1 & U1 & I1) (r2 & H2 & U2 & I2).
  assert (r1 = r2).
  { apply (NoDup_map_eq bm_id (bookmarks s)); [apply C | | | congruence]; assumption. }
  congruence.
Qed.

Lemma tagStored_unique (t t' : str) (id : Z) (s : store) :
  constraints s -> tagStored t id s -> tagStored t' id s -> t = t'.
Proof.
  intros C (r1 & H1 & U1 & I1) (r2 & H2 & U2 & I2).
  assert (r1 = r2).
  { apply (NoDup_map_eq tg_id (tags s)); [apply C | | | congruence]; assumption. }
  congruence.
Qed.

(** The entries of a clean store are in every store that an import of
    their candidates into an empty store leaves. *)
Lemma clean_entry_kept (s s' : store) (r : bookmarkRow) :
  cleanStore s -> constraints s' ->
  provenance (map (entryJob s) (bookmarks s)) emptyStore s' ->
  (forall job, In job (map (entryJob s) (bookmarks s)) -> persisted job s') ->
  In r (bookmarks s) ->
  exists r', In r' (bookmarks s') /\
    bm_url r' = bm_url r /\ bm_title r' = bm_title r /\ bm_note r' = bm_note r /\
    bm_created r' = bm_created r /\ bm_updated r' = bm_updated r /\
    sameLabels (joinedTags s (bm_id r)) (joinedTags s' (bm_id r')).
Proof.
  intros [C F] C' [Pr Pl] Hp Hr.
  set (jobs := map (entryJob s) (bookmarks s)) in *.
  assert (Hj : In (entryJob s r) jobs) by (apply in_map; exact Hr).
  assert (Nu : NoDup (map URI jobs)).
  { unfold jobs. rewrite map_map. apply C. }
  rewrite Forall_forall in F. pose proof (F r Hr) as Hc.
  destruct (Hp _ Hj) as (id & (r' & Hi & Hu & Hid) & Hl).
  exists r'. split; [exact Hi|].
  destruct (Pr r' Hi) as [[] | (job' & Hj' & Er)].
  assert (job' = entryJob s r).
  { apply (NoDup_map_eq URI jobs); [exact Nu | exact Hj' | exact Hj|].
    rewrite Er in Hu. exact Hu. }
  subst job'. rewrite Er. cbn [bm_url bm_title bm_note bm_created bm_updated bm_id].
  unfold entryJob, rowJob. cbn [URI Title Note CreatedAt UpdatedAt].
  rewrite <- (clean_title _ _ _ _ Hc), <- (clean_note _ _ _ _ Hc).
  splits; try reflexivity.
  intros t. rewrite Hid. split.
  - intros Ht. apply joinedTags_In.
    pose proof (clean_labels _ _ _ _ Hc) as Fl. rewrite Forall_forall in Fl.
    destruct (Hl t Ht (proj1 (Fl t Ht))) as (tid & H1 & H2).
    exists tid. auto.
  - intros Ht. apply joinedTags_In in Ht. destruct Ht as (tid & H1 & H2).
    destruct (Pl _ H1) as [[] | (job' & t' & A1 & A2 & A3 & A4)].
    cbn [fst snd] in A3, A4.
    assert (job' = entryJob s r).
    { apply (NoDup_map_eq URI jobs); [exact Nu | exact A1 | exact Hj|].
      apply (bookmarkStored_unique _ _ id s' C' A3).
      exists r'. auto. }
    subst job'. rewrite (tagStored_unique t t' tid s' C' H2 A4). exact A2.
Qed.

Lemma clean_store_kept (s s' : store) :
  cleanStore s -> constraints s' ->
  provenance (map (entryJob s) (bookmarks s)) emptyStore s' ->
  (forall job, In job (map (entryJob s) (bookmarks s)) -> persisted job s') ->
  sameEntries s s' /\
  List.length (bookmarks s') = List.length (bookmarks s).
Proof.
  intros Hs C' Pv Hp.
  pose proof (fun r => clean_entry_kept s s' r Hs C' Pv Hp) as K.
  assert (B : forall r', In r' (bookmarks s') ->
                exists r, In r (bookmarks s) /\ bm_url r = bm_url r').
  { intros r' Hi. destruct (proj1 Pv r' Hi) as [[] | (job & Hj & Er)].
    apply in_map_iff in Hj. destruct Hj as (r & <- & Hr).
    exists r. split; [exact Hr|]. rewrite Er. reflexivity. }
  split; [split|].
  - exact K.
  - intros r' Hi. destruct (B r' Hi) as (r & Hr & Hu).
    destruct (K r Hr) as (r'' & Hi' & U & T & N & Cr & Up & L).
    assert (r'' = r').
    { apply (NoDup_map_eq bm_url (bookmarks s')); [apply C' | | | congruence];
        assumption. }
    subst r''. exists r. splits; try congruence.
    intros t. symmetry. apply L.
  - apply eq_trans with (List.length (map bm_url (bookmarks s')));
      [symmetry; apply length_map|].
    apply eq_trans with (List.length (map bm_url (bookmarks s)));
      [|apply length_map].
    apply Permutation_length, NoDup_Permutation; [apply C' | apply Hs|].
    intros u. rewrite !in_map_iff. split.
    + intros (r' & <- & Hi). destruct (B r' Hi) as (r & Hr & Hu). eauto.
    + intros (r & <- & Hr). destruct (K r Hr) as (r' & Hi & U & _). eauto.
Qed.

(** * The round trip
    (exportBookmarks, htmlUnescape) *)

(** C1, amended.  For a store that satisfies the schema constraints and
    whose entries are all clean (texts not [NULL]; an address that is not
    empty, has none of the five escaped characters and does not end in
    [TAGS=]; a one-line title and a note that have no white space at
    their ends, no double quote and none of the references [&lt;], [&gt;],
    [&quot;], [&#39;]; times from 0 up to the largest 64-bit integer;
    labels that are not empty, have no comma, none of the escaped
    characters and no white space at their ends), and a driver that fails
    no call: exporting writes one line per entry, and importing the
    document into an empty store, under any schedule of the workers and
    any clock, parses exactly the candidates of the entries, reports them
    all as imported, and leaves a store with the same entries: the same
    addresses, titles, notes, creation and modification times, and for
    each entry the same set of labels. *)
Theorem clean_store_round_trip (e : env) (s : store) :
  cleanStore s ->
  (forall n, noFaults (envFaults e n)) ->
  let r := importBookmarks e (fst (exportBookmarks s)) (openConn emptyStore) in
  snd (exportBookmarks s) = List.length (bookmarks s) /\
  importJobs r = map (entryJob s) (bookmarks s) /\
  successCount r = List.length (bookmarks s) /\
  sameEntries s (live (importConn r)) /\
  List.length (bookmarks (live (importConn r))) = List.length (bookmarks s).
Proof.
  intros Hs Hf. cbv zeta.
  set (doc := fst (exportBookmarks s)).
  set (c0 := openConn emptyStore).
  destruct (import_all_persisted e doc c0 eq_refl constraints_empty Hf)
    as (Hp & Hn & C').
  pose proof (importBookmarks_provenance e doc c0 eq_refl constraints_empty) as Pv.
  cbv zeta in Pv.
  destruct (importBookmarks_inv e doc c0 eq_refl constraints_empty)
    as (_ & _ & _ & _ & _ & Ej & _).
  unfold doc in Ej. rewrite (parseBlocks_exported s _ (proj2 Hs)) in Ej.
  fold doc in Ej. rewrite Ej in Hp, Hn, Pv.
  change (live c0) with emptyStore in Pv.
  destruct (clean_store_kept s _ Hs C' Pv Hp) as [Se Le].
  splits.
  - unfold exportBookmarks. rewrite (exportRows_clean s _ (proj2 Hs)).
    cbn [snd]. reflexivity.
  - exact Ej.
  - rewrite Hn. apply length_map.
  - exact Se.
  - exact Le.
Qed.


(** C1 as it is written fails: the parser trims the title, so the entry
    of [paddedStore], which satisfies the schema constraints, comes back
    with another title. *)
Lemma padded_title_not_kept :
  constraints paddedStore /\ ~ roundTrips calmEnv paddedStore.
Proof.
  split.
  - constructor; cbn; repeat constructor; intros [].
  - unfold roundTrips. intros [H _].
    destruct (H _ (or_introl eq_refl)) as (r' & Hi & _ & Ht & _).
    vm_compute in Hi. destruct Hi as [<- | []]. discriminate Ht.
Qed.

Ltac nodup_solve :=
  cbn; repeat (constructor; [cbn; intuition discriminate|]); constructor.

Ltac text_solve :=
  split; [split; [repeat constructor | repeat split; reflexivity]
         | vm_compute; reflexivity].

Lemma clean_store_round_trip_witness :
  cleanStore titleStore /\
  (forall n, noFaults (envFaults calmEnv n)) /\
  let r := importBookmarks calmEnv (fst (exportBookmarks titleStore))
                           (openConn emptyStore) in
  snd (exportBookmarks titleStore) = List.length (bookmarks titleStore) /\
  importJobs r = map (entryJob titleStore) (bookmarks titleStore) /\
  successCount r = List.length (bookmarks titleStore) /\
  sameEntries titleStore (live (importConn r)) /\
  List.length (bookmarks (live (importConn r)))
  = List.length (bookmarks titleStore).
Proof.
  assert (Hs : cleanStore titleStore).
  { split.
    - constructor; nodup_solve.
    - repeat constructor; try text_solve; try discriminate; try reflexivity;
        try (unfold maxInt64; lia). }
  assert (Hf : forall n, noFaults (envFaults calmEnv n)).
  { intros n x. reflexivity. }
  split; [exact Hs|]. split; [exact Hf|].
  apply (clean_store_round_trip calmEnv titleStore Hs Hf).
Defined.

(** The title [a<b & c] is written with [&lt;] and [&amp;], and the
    candidate parsed from the document has the title as it was stored. *)
Example title_example :
  exportRow titleStore (mkBookmark 1 (b "https://example.com/a?x=1")
                                   (Some (b "a<b & c")) (Some (b "x > y"))
                                   1000 2000)
  = Some (b "<DT><A HREF=" ++ [dquote] ++ b "https://example.com/a?x=1" ++ [dquote] ++
          b " ADD_DATE=" ++ [dquote] ++ b "1000" ++ [dquote] ++
          b " LAST_MODIFIED=" ++ [dquote] ++ b "2000" ++ [dquote] ++
          b " TAGS=" ++ [dquote] ++ b "math,logic" ++ [dquote] ++
          b ">a&lt;b &amp; c</A><DD>x &gt; y" ++ lf) /\
  map Title (importJobs (importBookmarks calmEnv (fst (exportBookmarks titleStore))
                                         (openConn emptyStore)))
  = [b "a<b & c"; b "Rocq"].
Proof. split; vm_compute; reflexivity. Qed.

(** * Further properties of the program *)

(** ** [htmlUnescape] *)

Lemma HasPrefix_length (s p : str) :
  HasPrefix s p = true -> (List.length p <= List.length s)%nat.
Proof.
  revert s. induction p as [|c p IH]; intros s H; cbn [List.length]; [lia|].
  destruct s as [|d s]; cbn [HasPrefix] in H; [discriminate|].
  apply andb_true_iff in H. destruct H as [_ H]. apply IH in H.
  cbn [List.length]. lia.
Qed.

Lemma replaceFrom_length (old new s : str) :
  old <> [] -> (List.length new <= List.length old)%nat ->
  forall k, (List.length (replaceFrom old new s k) + Nat.min k (List.length s)
             <= List.length s)%nat.
Proof.
  intros Ho Hn. induction s as [|c s IH]; intros k; cbn [replaceFrom List.length].
  - rewrite Nat.min_0_r. lia.
  - destruct k as [|k].
    + destruct (HasPrefix (c :: s) old) eqn:E.
      * apply HasPrefix_length in E. cbn [List.length] in E.
        specialize (IH (pred (List.length old))). rewrite length_app.
        destruct old as [|o old]; [congruence|]. cbn [List.length pred] in *.
        rewrite Nat.min_l in IH by lia. cbn [Nat.min]. lia.
      * specialize (IH O). cbn [List.length Nat.min] in *. lia.
    + specialize (IH k). cbn [Nat.min]. lia.
Qed.

Lemma ReplaceAll_length (s old new : str) :
  old <> [] -> (List.length new <= List.length old)%nat ->
  (List.length (ReplaceAll s old new) <= List.length s)%nat.
Proof.
  intros Ho Hn. pose proof (replaceFrom_length old new s Ho Hn O) as H.
  unfold ReplaceAll. cbn [Nat.min] in H. lia.
Qed.

Lemma ReplaceAll_plain (old new s : str) :
  Forall (fun c => c <> amp) s -> ReplaceAll s (amp :: old) new = s.
Proof.
  intros F. unfold ReplaceAll.
  rewrite <- (app_nil_r s) at 1. rewrite (replaceFrom_copy old new s [] F).
  cbn [replaceFrom]. apply app_nil_r.
Qed.

(** X1: decoding undoes escaping.  For a text without a double quote and
    without any of [&lt;], [&gt;], [&quot;], [&#39;] in it, [htmlUnescape]
    applied to what [html.EscapeString] writes gives the text back. *)
Theorem unescape_inverts_escape (t : str) :
  decodable t -> htmlUnescape (EscapeString t) = t.
Proof. exact (htmlUnescape_EscapeString t). Qed.

Lemma unescape_inverts_escape_witness :
  decodable (b "R&D <b> 'x'") /\
  htmlUnescape (EscapeString (b "R&D <b> 'x'")) = b "R&D <b> 'x'".
Proof.
  assert (D : decodable (b "R&D <b> 'x'")).
  { split; [repeat constructor | repeat split; reflexivity]. }
  split; [exact D | exact (unescape_inverts_escape _ D)].
Defined.

(** X2: [htmlUnescape] returns a text without [&] as it is, and never
    returns a text longer than the one it was given. *)
Theorem unescape_plain_and_short (s : str) :
  (Forall (fun c => c <> amp) s -> htmlUnescape s = s) /\
  (List.length (htmlUnescape s) <= List.length s)%nat.
Proof.
  unfold htmlUnescape. cbn [fold_left fst snd]. split.
  - intros F.
    change (b "&amp;") with (amp :: b "amp;").
    change (b "&lt;") with (amp :: b "lt;").
    change (b "&gt;") with (amp :: b "gt;").
    change (b "&quot;") with (amp :: b "quot;").
    change (b "&#39;") with (amp :: b "#39;").
    do 5 (rewrite (ReplaceAll_plain _ _ s) by exact F). reflexivity.
  - repeat (eapply Nat.le_trans;
            [apply ReplaceAll_length; [discriminate | cbn; lia]|]).
    apply Nat.le_refl.
Qed.

Lemma unescape_plain_and_short_witness :
  Forall (fun c => c <> amp) (b "plain text") /\
  htmlUnescape (b "plain text") = b "plain text".
Proof.
  assert (F : Forall (fun c => c <> amp) (b "plain text")).
  { repeat constructor; discriminate. }
  split; [exact F | exact (proj1 (unescape_plain_and_short _) F)].
Defined.


(** ** The exported document *)

Lemma exportRows_scanned (s : store) (rows : list bookmarkRow) :
  exportRows s rows =
  (List.concat (map (fun l => b "<DT>" ++ l)
                    (map (entryLine s) (filter scans rows))),
   List.length (filter scans rows)).
Proof.
  induction rows as [|r rows IH]; [reflexivity|].
  cbn [exportRows filter]. rewrite IH.
  destruct (bm_title r) as [title|] eqn:Et.
  - destruct (bm_note r) as [note|] eqn:En.
    + assert (Hs : scans r = true) by (unfold scans; rewrite Et, En; reflexivity).
      rewrite Hs, (exportRow_shape s r title note Et En).
      cbn [map List.concat List.length]. unfold entryLine at 2. rewrite Et, En.
      cbn [textOf]. rewrite <- app_assoc. reflexivity.
    + assert (Hs : scans r = false) by (unfold scans; rewrite Et, En; reflexivity).
      rewrite Hs. unfold exportRow. rewrite Et, En. reflexivity.
  - assert (Hs : scans r = false) by (unfold scans; rewrite Et; reflexivity).
    rewrite Hs. unfold exportRow. rewrite Et. reflexivity.
Qed.

(** X3: [exportBookmarks] writes the header, one line for every row whose
    title and note are not [NULL], in table order, and the closing line;
    rows with a [NULL] text are left out, and the count it reports is the
    number of lines written. *)
Theorem export_skips_null_rows (s : store) :
  fst (exportBookmarks s) =
  preamble ++
  List.concat (map (fun r => b "<DT>" ++ entryLine s r)
                   (filter scans (bookmarks s))) ++
  closing /\
  snd (exportBookmarks s) = List.length (filter scans (bookmarks s)) /\
  (forall r, scans r = false -> exportRow s r = None).
Proof.
  unfold exportBookmarks. rewrite exportRows_scanned. cbn [fst snd].
  rewrite map_map. splits; try reflexivity.
  intros r. unfold scans, exportRow.
  destruct (bm_title r); [destruct (bm_note r)|]; [discriminate | |]; reflexivity.
Qed.

Lemma export_skips_null_rows_witness :
  scans nullTitleRow = false /\
  exportRow nullStore nullTitleRow = None /\
  exportRow nullStore nullNoteRow = None /\
  snd (exportBookmarks nullStore) = 1%nat.
Proof.
  pose proof (export_skips_null_rows nullStore) as (_ & Hn & Hr).
  split; [reflexivity|].
  split; [apply Hr; reflexivity|].
  split; [apply Hr; reflexivity|].
  rewrite Hn. reflexivity.
Defined.

Lemma docBlocks_length (p : str) (lines : list str) (tr : str) :
  List.length (docBlocks p lines tr) = S (List.length lines).
Proof.
  revert p. induction lines as [|l ls IH]; intros p; cbn [docBlocks List.length];
    [reflexivity|].
  rewrite IH. reflexivity.
Qed.

Lemma Split_exported (s : store) :
  Split (fst (exportBookmarks s)) (b "<DT>") =
  docBlocks preamble (map (entryLine s) (filter scans (bookmarks s))) closing.
Proof.
  unfold exportBookmarks. rewrite exportRows_scanned. cbn [fst].
  change (b "</DL><p>" ++ lf) with closing.
  apply Split_document.
  - apply sepFree_preamble.
  - rewrite Forall_map, Forall_forall. intros r _ x. apply sepFree_entryLine.
  - reflexivity.
Qed.

(** X4: whatever the stored texts are, splitting an exported document at
    [<DT>], as [importBookmarks] does, gives the header and then exactly
    one block per exported entry (the closing line stays with the last
    block): no address, title, note or label can bring a [<DT>] of its
    own into the document. *)
Theorem export_splits_per_entry (s : store) :
  Split (fst (exportBookmarks s)) (b "<DT>") =
  docBlocks preamble (map (entryLine s) (filter scans (bookmarks s))) closing /\
  List.length (Split (fst (exportBookmarks s)) (b "<DT>"))
  = S (snd (exportBookmarks s)).
Proof.
  split; [apply Split_exported|].
  rewrite Split_exported, docBlocks_length, length_map.
  unfold exportBookmarks. rewrite exportRows_scanned. reflexivity.
Qed.

(** ** Reading an exported entry again *)

Lemma parseBlock_entryLine (now : Z) (s : store) (r : bookmarkRow) (post : str) :
  reparsable r ->
  exists job,
    parseBlock now (entryLine s r ++ post) = Some job /\
    anchorAttrs (entryLine s r ++ post) = exportedAttrs s r /\
    URI job = EscapeString (bm_url r) /\
    Title job = htmlUnescape (TrimSpace (EscapeString (textOf (bm_title r)))).
Proof.
  intros [Hu Ft]. unfold entryLine. rewrite dialectBlock_app.
  destruct (parseBlock_dialect now _ _ _ _ _
              (exportedTail (textOf (bm_note r)) ++ post)
              (exported_dialectOK s r _ Hu Ft))
    as (job & t1 & t2 & Hp & Ha & Huri & _ & Hat & Hl).
  exists job. splits; try assumption.
  apply parseBlock_Some in Hp. cbv zeta in Hp.
  destruct Hp as (_ & _ & Hti & _). rewrite Hti, Hat.
  rewrite (Hl (EscapeString_no_lt _)). reflexivity.
Qed.

Lemma parseLoop_entryLines (now : Z) (s : store) (rows : list bookmarkRow) :
  forall r, Forall reparsable (r :: rows) ->
  map (fun j => (URI j, Title j))
      (parseLoop now (docBlocks (entryLine s r) (map (entryLine s) rows) closing))
  = map (fun r => (EscapeString (bm_url r),
                   htmlUnescape (TrimSpace (EscapeString (textOf (bm_title r))))))
        (r :: rows).
Proof.
  induction rows as [|r' rows IH]; intros r F; inversion F as [|? ? Hr F']; subst.
  - cbn [map docBlocks parseLoop].
    destruct (parseBlock_entryLine now s r closing Hr) as (job & Hp & _ & Hu & Ht).
    rewrite Hp. cbn [map]. rewrite Hu, Ht. reflexivity.
  - cbn [map docBlocks parseLoop].
    destruct (parseBlock_entryLine now s r [] Hr) as (job & Hp & _ & Hu & Ht).
    rewrite app_nil_r in Hp. rewrite Hp. cbn [map]. rewrite Hu, Ht. f_equal.
    apply (IH r' F').
Qed.

(** X5: when every exported entry has an address that is not empty and a
    title on one line, the parser finds every entry of the exported
    document again, in order, one candidate per entry: the candidate's
    address is the escaped address and its title is the escaped title,
    trimmed and decoded. *)
Theorem exported_entries_parse_again (s : store) (clk : clock) :
  Forall reparsable (filter scans (bookmarks s)) ->
  let jobs := fst (parseBlocks (Split (fst (exportBookmarks s)) (b "<DT>")) clk) in
  map (fun j => (URI j, Title j)) jobs
  = map (fun r => (EscapeString (bm_url r),
                   htmlUnescape (TrimSpace (EscapeString (textOf (bm_title r))))))
        (filter scans (bookmarks s)) /\
  List.length jobs = snd (exportBookmarks s).
Proof.
  intros F. cbv zeta.
  assert (E : map (fun j => (URI j, Title j))
                  (fst (parseBlocks (Split (fst (exportBookmarks s)) (b "<DT>")) clk))
              = map (fun r => (EscapeString (bm_url r),
                               htmlUnescape (TrimSpace (EscapeString
                                                          (textOf (bm_title r))))))
                    (filter scans (bookmarks s))).
  { rewrite Split_exported.
    unfold parseBlocks, time_Now_Unix. cbn [fst].
    destruct (parseBlock_preamble (reading clk (reads clk))) as [P1 P2].
    destruct (filter scans (bookmarks s)) as [|r rows].
    - cbn [map docBlocks parseLoop]. rewrite P2. reflexivity.
    - cbn [map docBlocks parseLoop]. rewrite P1.
      apply (parseLoop_entryLines _ s rows r F). }
  split; [exact E|].
  apply (f_equal (@List.length _)) in E. rewrite !length_map in E. rewrite E.
  unfold exportBookmarks. rewrite exportRows_scanned. reflexivity.
Qed.

Lemma exported_entries_parse_again_witness :
  Forall reparsable (filter scans (bookmarks ampStore)) /\
  let jobs := fst (parseBlocks (Split (fst (exportBookmarks ampStore)) (b "<DT>"))
                               (envClock calmEnv)) in
  map (fun j => (URI j, Title j)) jobs
  = map (fun r => (EscapeString (bm_url r),
                   htmlUnescape (TrimSpace (EscapeString (textOf (bm_title r))))))
        (filter scans (bookmarks ampStore)) /\
  List.length jobs = snd (exportBookmarks ampStore).
Proof.
  assert (F : Forall reparsable (filter scans (bookmarks ampStore))).
  { repeat constructor. discriminate. }
  split; [exact F|].
  exact (exported_entries_parse_again ampStore (envClock calmEnv) F).
Defined.


(** ** Times in an exported entry *)

Lemma formatInt_no_quote (n : Z) :
  Forall (fun c => notByte dquote c = true) (formatInt n).
Proof. apply formatInt_Forall; [repeat constructor | reflexivity]. Qed.

Lemma firstAttr_nil (name : string) (cls : ascii -> bool) :
  firstAttr name cls [] = None.
Proof.
  cbn [firstAttr]. unfold attrAt, attrOpen. destruct (b name); reflexivity.
Qed.

(** The label part of the attribute text holds no time attribute and does
    not start with a digit. *)
Lemma tagsPart_no_time (name : string) (e : str) :
  Forall (fun c => notByte dquote c = true) (b name ++ b "=") ->
  HasSuffix (b " TAGS=") (b name ++ b "=") = false ->
  Forall (fun c => notByte dquote c = true) e ->
  let part := if negb (isEmpty e)
              then b " TAGS=" ++ [dquote] ++ e ++ [dquote]
              else [] in
  firstAttr name isDigit part = None /\
  match part with [] => True | c :: _ => isDigit c = false end.
Proof.
  intros Fn Hs Fe. cbv zeta.
  destruct (negb (isEmpty e)); [|split; [apply firstAttr_nil | exact I]].
  split; [|reflexivity].
  change (b " TAGS=" ++ [dquote] ++ e ++ [dquote])
    with (b " TAGS=" ++ dquote :: e ++ dquote :: []).
  rewrite firstAttr_skip; [| exact Fn | repeat constructor | left; exact Hs].
  rewrite firstAttr_skip; [apply firstAttr_nil | exact Fn | exact Fe | right; exact I].
Qed.

Lemma tagsEsc_no_quote (o : option str) :
  Forall (fun c => notByte dquote c = true)
         (match o with Some t => EscapeString t | None => [] end).
Proof.
  destruct o; [|constructor]. apply EscapeString_free; [reflexivity | discriminate].
Qed.

Lemma timeAttr_skip (name : string) (p R : str) :
  Forall (fun c => notByte dquote c = true) (b name ++ b "=") ->
  Forall (fun c => notByte dquote c = true) p ->
  HasSuffix p (b name ++ b "=") = false \/
  match R with [] => True | c :: _ => isDigit c = false end ->
  timeAttr name (p ++ dquote :: R) = timeAttr name R.
Proof.
  intros H1 H2 H3. unfold timeAttr. rewrite firstAttr_skip by assumption.
  reflexivity.
Qed.

Lemma formatInt_negative (n : Z) :
  n < 0 -> exists ds, formatInt n = "-"%char :: ds.
Proof.
  intros H. unfold formatInt. apply Z.ltb_lt in H. rewrite H. eauto.
Qed.

Lemma exportedAttrs_chunks (s : store) (r : bookmarkRow) :
  exportedAttrs s r =
  b "HREF=" ++ dquote :: EscapeString (bm_url r) ++ dquote ::
  b " ADD_DATE=" ++ dquote :: formatInt (bm_created r) ++ dquote ::
  b " LAST_MODIFIED=" ++ dquote :: formatInt (bm_updated r) ++ dquote ::
  (if negb (isEmpty (match groupConcat (joinedTags s (bm_id r)) with
                     | Some t => EscapeString t
                     | None => []
                     end))
   then b " TAGS=" ++ [dquote] ++
        match groupConcat (joinedTags s (bm_id r)) with
        | Some t => EscapeString t
        | None => []
        end ++ [dquote]
   else []).
Proof.
  unfold exportedAttrs, exportedAttrsTail, attrOpen. app_norm.
Qed.

Ltac skip_chunk side :=
  rewrite timeAttr_skip;
  [ | repeat constructor
    | first [ apply formatInt_no_quote
            | apply EscapeString_free; [reflexivity | discriminate]
            | repeat constructor ]
    | side ].

(** What the parser reads of the two times of an exported entry. *)
Lemma exported_times (s : store) (r : bookmarkRow) :
  (0 <= bm_created r <= maxInt64 ->
   timeAttr "ADD_DATE" (exportedAttrs s r) = Some (bm_created r)) /\
  (bm_created r < 0 -> timeAttr "ADD_DATE" (exportedAttrs s r) = None) /\
  (0 <= bm_updated r <= maxInt64 ->
   timeAttr "LAST_MODIFIED" (exportedAttrs s r) = Some (bm_updated r)) /\
  (bm_updated r < 0 -> timeAttr "LAST_MODIFIED" (exportedAttrs s r) = None).
Proof.
  rewrite exportedAttrs_chunks.
  set (e := match groupConcat (joinedTags s (bm_id r)) with
            | Some t => EscapeString t
            | None => []
            end).
  assert (Fe : Forall (fun c => notByte dquote c = true) e)
    by apply tagsEsc_no_quote.
  set (part := if negb (isEmpty e) then _ else _).
  destruct (tagsPart_no_time "ADD_DATE" e ltac:(repeat constructor) eq_refl Fe)
    as [Pa Ha].
  destruct (tagsPart_no_time "LAST_MODIFIED" e ltac:(repeat constructor) eq_refl Fe)
    as [Pm _].
  cbv zeta in Pa, Ha, Pm. fold part in Pa, Ha, Pm.
  splits.
  - intros Hc.
    skip_chunk ltac:(left; reflexivity).
    skip_chunk ltac:(right; reflexivity).
    apply (timeAttr_written "ADD_DATE" (b " ")); [reflexivity | exact Hc].
  - intros Hc. destruct (formatInt_negative _ Hc) as [ds Ed].
    skip_chunk ltac:(left; reflexivity).
    skip_chunk ltac:(right; reflexivity).
    skip_chunk ltac:(right; rewrite Ed; reflexivity).
    skip_chunk ltac:(right; reflexivity).
    skip_chunk ltac:(left; reflexivity).
    skip_chunk ltac:(right; exact Ha).
    unfold timeAttr. replace (firstAttr "ADD_DATE" isDigit part) with (@None str)
      by (symmetry; exact Pa). reflexivity.
  - intros Hm.
    skip_chunk ltac:(left; reflexivity).
    skip_chunk ltac:(right; reflexivity).
    skip_chunk ltac:(left; reflexivity).
    skip_chunk ltac:(right; reflexivity).
    apply (timeAttr_written "LAST_MODIFIED" (b " ")); [reflexivity | exact Hm].
  - intros Hm. destruct (formatInt_negative _ Hm) as [ds Ed].
    skip_chunk ltac:(left; reflexivity).
    skip_chunk ltac:(right; reflexivity).
    skip_chunk ltac:(left; reflexivity).
    skip_chunk ltac:(right; reflexivity).
    skip_chunk ltac:(right; rewrite Ed; reflexivity).
    skip_chunk ltac:(right; exact Ha).
    unfold timeAttr. replace (firstAttr "LAST_MODIFIED" isDigit part) with (@None str)
      by (symmetry; exact Pm). reflexivity.
Qed.

Lemma exportRow_entryLine (s : store) (r : bookmarkRow) :
  scans r = true -> exportRow s r = Some (b "<DT>" ++ entryLine s r).
Proof.
  unfold scans. destruct (bm_title r) as [title|] eqn:Et; [|discriminate].
  destruct (bm_note r) as [note|] eqn:En; [|discriminate]. intros _.
  rewrite (exportRow_shape s r title note Et En). unfold entryLine.
  rewrite Et, En. reflexivity.
Qed.

(** X6: the times of an exported entry, read again.  A time from 0 up to
    the largest 64-bit integer is read back as it is, whatever the address,
    texts and labels of the entry are; a negative time is written with a
    minus sign, which the parser does not take: the candidate then gets
    the default, the time of the import for the creation time and the
    candidate's creation time for the modification time. *)
Theorem exported_times_read_back (now : Z) (s : store) (r : bookmarkRow)
        (post : str) :
  scans r = true -> reparsable r ->
  bm_created r <= maxInt64 -> bm_updated r <= maxInt64 ->
  exists job,
    exportRow s r = Some (b "<DT>" ++ entryLine s r) /\
    parseBlock now (entryLine s r ++ post) = Some job /\
    CreatedAt job = (if 0 <=? bm_created r then bm_created r else now) /\
    UpdatedAt job = (if 0 <=? bm_updated r then bm_updated r else CreatedAt job).
Proof.
  intros Hs Hr Hc Hm.
  destruct (parseBlock_entryLine now s r post Hr) as (job & Hp & Ha & _).
  exists job. split; [apply exportRow_entryLine; exact Hs|]. split; [exact Hp|].
  apply parseBlock_Some in Hp. cbv zeta in Hp.
  destruct Hp as (_ & _ & _ & _ & Jc & Jm & _).
  rewrite Ha in Jc, Jm. unfold reAddDate in Jc. unfold reLastMod in Jm.
  rewrite extractTimestamp_spec in Jc, Jm.
  destruct (exported_times s r) as (C1 & C2 & M1 & M2).
  split.
  - rewrite Jc. destruct (0 <=? bm_created r) eqn:E.
    + apply Z.leb_le in E. rewrite C1 by lia. reflexivity.
    + apply Z.leb_gt in E. rewrite C2 by lia. reflexivity.
  - rewrite Jm. destruct (0 <=? bm_updated r) eqn:E.
    + apply Z.leb_le in E. rewrite M1 by lia. reflexivity.
    + apply Z.leb_gt in E. rewrite M2 by lia. reflexivity.
Qed.

Lemma exported_times_read_back_witness :
  exists job,
    exportRow emptyStore agedRow = Some (b "<DT>" ++ entryLine emptyStore agedRow) /\
    parseBlock 1700000000 (entryLine emptyStore agedRow ++ closing) = Some job /\
    CreatedAt job = (if 0 <=? bm_created agedRow then bm_created agedRow
                     else 1700000000) /\
    UpdatedAt job = (if 0 <=? bm_updated agedRow then bm_updated agedRow
                     else CreatedAt job).
Proof.
  apply (exported_times_read_back 1700000000 emptyStore agedRow closing).
  - reflexivity.
  - split; [discriminate | repeat constructor].
  - unfold maxInt64. cbn. lia.
  - unfold maxInt64. cbn. lia.
Defined.

(** ** What a match of the anchor pattern says about the text *)

Lemma greedy_sound (cls : ascii -> bool) (k : cont) (s : str) (caps : list str)
      (m : matched) :
  greedy cls s caps k = Some m ->
  exists t r, s = t ++ r /\ Forall (fun c => cls c = true) t /\ k r caps = Some m.
Proof.
  induction s as [|c s IH]; cbn [greedy]; intros H.
  - exists [], []. auto.
  - destruct (cls c) eqn:Ec; [|exists [], (c :: s); auto].
    destruct (greedy cls s caps k) as [m'|] eqn:Eg.
    + injection H as <-. destruct (IH eq_refl) as (t & r & Es & Ft & Hk).
      exists (c :: t), r. rewrite Es. auto.
    + exists [], (c :: s). auto.
Qed.

Lemma lazy_sound (cls : ascii -> bool) (k : cont) (s : str) (caps : list str)
      (m : matched) :
  lazy cls s caps k = Some m ->
  exists t r, s = t ++ r /\ Forall (fun c => cls c = true) t /\ k r caps = Some m.
Proof.
  induction s as [|c s IH]; cbn [lazy]; intros H.
  - destruct (k [] caps) eqn:Ek; [|discriminate]. exists [], []. rewrite Ek. auto.
  - destruct (k (c :: s) caps) as [m'|] eqn:Ek.
    + exists [], (c :: s). rewrite Ek. auto.
    + destruct (cls c) eqn:Ec; [|discriminate].
      destruct (IH H) as (t & r & Es & Ft & Hk).
      exists (c :: t), r. rewrite Es. auto.
Qed.

Lemma reClose_sound (s : str) (caps : list str) (k : cont) (m : matched) :
  rmatch reClose s caps k = Some m ->
  exists a rest, s = lt :: "/"%char :: a :: gt :: rest /\
                 toLower a = "a"%char /\ k rest caps = Some m.
Proof.
  unfold reClose. cbn [rmatch].
  destruct s as [|c1 s]; [discriminate|].
  destruct (Ascii.eqb lt c1) eqn:E1; [|discriminate].
  destruct s as [|c2 s]; [discriminate|].
  destruct (Ascii.eqb "/" c2) eqn:E2; [|discriminate].
  destruct s as [|c3 s]; [discriminate|].
  destruct (Ascii.eqb (toLower "A") (toLower c3)) eqn:E3; [|discriminate].
  destruct s as [|c4 s]; [discriminate|].
  destruct (Ascii.eqb gt c4) eqn:E4; [|discriminate].
  apply Ascii.eqb_eq in E1, E2, E3, E4. subst c1 c2 c4.
  intros H. exists c3, s. auto.
Qed.

Lemma reAnchor_sound (s rest : str) (caps : list str) :
  matchHere reAnchor s = Some (rest, caps) ->
  exists a ws attrs t a',
    s = lt :: a :: ws ++ attrs ++ gt :: t ++ lt :: "/"%char :: a' :: gt :: rest /\
    caps = [attrs; t] /\
    toLower a = "a"%char /\ toLower a' = "a"%char /\
    ws <> [] /\ Forall (fun c => reSpace c = true) ws /\
    attrs <> [] /\ Forall (fun c => notByte gt c = true) attrs /\
    Forall (fun c => notByte newline c = true) t.
Proof.
  unfold matchHere, reAnchor. cbn [rmatch].
  destruct s as [|c1 s]; [discriminate|].
  destruct (Ascii.eqb lt c1) eqn:E1; [|discriminate].
  destruct s as [|a s]; [discriminate|].
  destruct (Ascii.eqb (toLower "A") (toLower a)) eqn:E2; [|discriminate].
  destruct s as [|w0 s]; [discriminate|].
  destruct (reSpace w0) eqn:E3; [|discriminate].
  apply Ascii.eqb_eq in E1, E2. subst c1.
  intros H. apply greedy_sound in H. destruct H as (ws & r1 & -> & Fws & H).
  destruct r1 as [|a0 r1]; [discriminate|].
  destruct (notByte gt a0) eqn:E4; [|discriminate].
  apply greedy_sound in H. destruct H as (attrs & r2 & -> & Fattrs & H).
  change (a0 :: attrs ++ r2) with ((a0 :: attrs) ++ r2) in H.
  rewrite firstn_length_app in H. cbn [app] in H.
  destruct r2 as [|c2 r2]; [discriminate|].
  destruct (Ascii.eqb gt c2) eqn:E5; [|discriminate].
  apply Ascii.eqb_eq in E5. subst c2.
  apply lazy_sound in H. destruct H as (t & r3 & -> & Ft & H).
  rewrite firstn_length_app in H. cbn [app] in H.
  apply (reClose_sound r3 [a0 :: attrs; t] (fun s' caps => Some (s', caps))) in H.
  destruct H as (a' & rest' & -> & Ha' & H).
  injection H as <- <-.
  exists a, (w0 :: ws), (a0 :: attrs), t, a'. splits; auto; try discriminate.
Qed.

Lemma FindStringSubmatch_reAnchor_sound (s : str) :
  FindStringSubmatch reAnchor s <> [] ->
  exists pre a ws attrs t a' post,
    s = pre ++ lt :: a :: ws ++ attrs ++ gt :: t ++
        lt :: "/"%char :: a' :: gt :: post /\
    sub (FindStringSubmatch reAnchor s) 1 = attrs /\
    sub (FindStringSubmatch reAnchor s) 2 = t /\
    toLower a = "a"%char /\ toLower a' = "a"%char /\
    ws <> [] /\ Forall (fun c => reSpace c = true) ws /\
    attrs <> [] /\ Forall (fun c => notByte gt c = true) attrs /\
    Forall (fun c => notByte newline c = true) t.
Proof.
  induction s as [|c s IH].
  - cbn [FindStringSubmatch].
    destruct (matchHere reAnchor []) as [[s' caps]|] eqn:E; [|congruence].
    apply reAnchor_sound in E. destruct E as (a & ws & attrs & t & a' & E & _).
    discriminate.
  - cbn [FindStringSubmatch].
    destruct (matchHere reAnchor (c :: s)) as [[s' caps]|] eqn:E.
    + intros _. apply reAnchor_sound in E.
      destruct E as (a & ws & attrs & t & a' & Es & -> & H).
      exists [], a, ws, attrs, t, a', s'. cbn [app sub nth].
      split; [exact Es|]. split; [reflexivity|]. split; [reflexivity|]. exact H.
    + intros H. destruct (IH H) as (pre & a & ws & attrs & t & a' & post & Es & R).
      exists (c :: pre), a, ws, attrs, t, a', post.
      split; [rewrite Es at 1; reflexivity | exact R].
Qed.

(** X7: the parser invents nothing.  When a block yields a candidate, the
    trimmed block holds an anchor: [<A] or [<a], white space, an attribute
    text without [>], [>], an inner text on one line, and [</A>] or
    [</a>]; the title is that inner text, trimmed and decoded; the
    address is not empty, has no double quote, and stands in the
    attribute text between the opening of [HREF] and the next double
    quote. *)
Theorem candidate_comes_from_anchor (now : Z) (block : str) (job : Job) :
  parseBlock now block = Some job ->
  exists pre a ws attrs t a' post,
    TrimSpace block =
    pre ++ lt :: a :: ws ++ attrs ++ gt :: t ++
    lt :: "/"%char :: a' :: gt :: post /\
    toLower a = "a"%char /\ toLower a' = "a"%char /\
    ws <> [] /\ Forall (fun c => reSpace c = true) ws /\
    Forall (fun c => notByte gt c = true) attrs /\
    Forall (fun c => notByte newline c = true) t /\
    Title job = htmlUnescape (TrimSpace t) /\
    URI job <> [] /\ Forall (fun c => notByte dquote c = true) (URI job) /\
    exists l r, attrs = l ++ attrOpen "HREF" ++ URI job ++ dquote :: r.
Proof.
  intros H.
  assert (Hm : FindStringSubmatch reAnchor (TrimSpace block) <> []).
  { intros E. rewrite (parseBlock_no_anchor now block E) in H. discriminate. }
  destruct (FindStringSubmatch_reAnchor_sound _ Hm)
    as (pre & a & ws & attrs & t & a' & post & Es & E1 & E2 & Ha & Ha' & Hws &
        Fws & _ & Fattrs & Ft).
  apply parseBlock_Some in H. cbv zeta in H.
  destruct H as (Hu & Hne & Hti & _).
  unfold anchorText in Hti. unfold anchorAttrs in Hu. rewrite E2 in Hti.
  rewrite E1, extractHref_spec in Hu.
  destruct (firstAttr "HREF" (notByte dquote) attrs) as [v|] eqn:Ef;
    [|congruence].
  subst v. destruct (firstAttr_Some _ _ _ _ Ef) as (_ & Fu & l & r & Er).
  exists pre, a, ws, attrs, t, a', post. splits; try assumption. eauto.
Qed.

Lemma candidate_comes_from_anchor_witness :
  exists pre a ws attrs t a' post,
    TrimSpace exampleBlock =
    pre ++ lt :: a :: ws ++ attrs ++ gt :: t ++
    lt :: "/"%char :: a' :: gt :: post /\
    toLower a = "a"%char /\ toLower a' = "a"%char /\
    ws <> [] /\ Forall (fun c => reSpace c = true) ws /\
    Forall (fun c => notByte gt c = true) attrs /\
    Forall (fun c => notByte newline c = true) t /\
    Title exampleJob = htmlUnescape (TrimSpace t) /\
    URI exampleJob <> [] /\
    Forall (fun c => notByte dquote c = true) (URI exampleJob) /\
    exists l r, attrs = l ++ attrOpen "HREF" ++ URI exampleJob ++ dquote :: r.
Proof.
  apply (candidate_comes_from_anchor 5 exampleBlock exampleJob).
  vm_compute. reflexivity.
Defined.

(** ** The times and labels of a candidate *)

Lemma timeAttr_range (name : string) (s : str) (v : Z) :
  timeAttr name s = Some v -> 0 <= v <= maxInt64.
Proof.
  unfold timeAttr. destruct (firstAttr name isDigit s) as [ds|] eqn:E; [|discriminate].
  destruct (firstAttr_Some _ _ _ _ E) as (_ & Fd & _).
  destruct (decimalValue ds <=? maxInt64) eqn:El; [|discriminate].
  intros H; injection H as <-. apply Z.leb_le in El. split; [|exact El].
  apply fold_digits_nonneg; [exact Fd | lia].
Qed.

(** X8: the times of a candidate.  The creation time is the time of the
    import or a number from 0 up to the largest 64-bit integer; the
    modification time is the creation time or such a number; so with a
    clock that is not before 1970 no candidate has a negative time. *)
Theorem candidate_times_in_range (now : Z) (block : str) (job : Job) :
  parseBlock now block = Some job ->
  (CreatedAt job = now \/ 0 <= CreatedAt job <= maxInt64) /\
  (UpdatedAt job = CreatedAt job \/ 0 <= UpdatedAt job <= maxInt64) /\
  (0 <= now -> 0 <= CreatedAt job /\ 0 <= UpdatedAt job).
Proof.
  intros H. apply parseBlock_Some in H. cbv zeta in H.
  destruct H as (_ & _ & _ & _ & Hc & Hm & _).
  unfold reAddDate in Hc. unfold reLastMod in Hm.
  rewrite extractTimestamp_spec in Hc, Hm.
  assert (A : CreatedAt job = now \/ 0 <= CreatedAt job <= maxInt64).
  { destruct (timeAttr "ADD_DATE" (anchorAttrs block)) as [v|] eqn:E;
      [right; rewrite Hc; exact (timeAttr_range _ _ _ E) | left; exact Hc]. }
  assert (B : UpdatedAt job = CreatedAt job \/ 0 <= UpdatedAt job <= maxInt64).
  { destruct (timeAttr "LAST_MODIFIED" (anchorAttrs block)) as [v|] eqn:E;
      [right; rewrite Hm; exact (timeAttr_range _ _ _ E) | left; exact Hm]. }
  split; [exact A|]. split; [exact B|]. intros Hn.
  assert (0 <= CreatedAt job) by (destruct A; lia).
  split; [assumption | destruct B; lia].
Qed.

Lemma candidate_times_in_range_witness :
  (CreatedAt exampleJob = 5 \/ 0 <= CreatedAt exampleJob <= maxInt64) /\
  (UpdatedAt exampleJob = CreatedAt exampleJob \/
   0 <= UpdatedAt exampleJob <= maxInt64) /\
  (0 <= 5 -> 0 <= CreatedAt exampleJob /\ 0 <= UpdatedAt exampleJob).
Proof.
  apply (candidate_times_in_range 5 exampleBlock exampleJob).
  vm_compute. reflexivity.
Defined.

Lemma consHead_Forall (P : ascii -> Prop) (c : ascii) (l : list str) :
  P c -> Forall (Forall P) l -> Forall (Forall P) (consHead c l).
Proof.
  intros Hc F. destruct F as [|p ps Hp F]; cbn [consHead].
  - repeat constructor. exact Hc.
  - constructor; [constructor; assumption | exact F].
Qed.

Lemma splitFrom_Forall (P : ascii -> Prop) (sep s : str) :
  Forall P s -> forall k, Forall (Forall P) (splitFrom sep s k).
Proof.
  induction 1 as [|c s Hc F IH]; intros k; cbn [splitFrom].
  - repeat constructor.
  - destruct k; [|apply IH].
    destruct (HasPrefix (c :: s) sep).
    + constructor; [constructor | apply IH].
    + apply consHead_Forall; [exact Hc | apply IH].
Qed.

Lemma splitFrom_comma_pieces (s : str) :
  Forall (Forall (fun c => notByte "," c = true)) (splitFrom (b ",") s 0).
Proof.
  induction s as [|c s IH]; cbn [splitFrom]; [repeat constructor|].
  change (HasPrefix (c :: s) (b ",")) with (Ascii.eqb "," c && true).
  rewrite andb_true_r. destruct (Ascii.eqb "," c) eqn:E.
  - constructor; [constructor | exact IH].
  - apply consHead_Forall; [|exact IH]. unfold notByte. rewrite E. reflexivity.
Qed.

Lemma trimHead_Forall (P : ascii -> Prop) sp2 sp3 (s : str) :
  Forall P s -> Forall P (trimHead sp2 sp3 s).
Proof.
  intros F. destruct (trimHead_suffix sp2 sp3 s) as [w E].
  rewrite E in F. apply Forall_app in F. apply F.
Qed.

Lemma TrimSpace_Forall (P : ascii -> Prop) (s : str) :
  Forall P s -> Forall P (TrimSpace s).
Proof.
  intros F. unfold TrimSpace, TrimRightSpace, TrimLeftSpace.
  apply Forall_rev, trimHead_Forall, Forall_rev, trimHead_Forall, F.
Qed.

(** X9: the labels of a candidate.  They are exactly the pieces of the
    value of the first [TAGS] attribute of the anchor, cut at the commas,
    each trimmed, the empty ones left out, in their order; a candidate
    whose anchor has no [TAGS] attribute has no labels.  So every label
    is not empty, has no white space at its ends, no comma and no double
    quote, and pieces that occur twice give the label twice. *)
Theorem candidate_labels_shape (now : Z) (block : str) (job : Job) :
  parseBlock now block = Some job ->
  Tags job =
  match firstAttr "TAGS" (notByte dquote) (anchorAttrs block) with
  | Some v => filter (fun t => negb (isEmpty t)) (map TrimSpace (Split v (b ",")))
  | None => []
  end /\
  (forall a1 v a2,
      anchorAttrs block = a1 ++ attrOpen "TAGS" ++ v ++ dquote :: a2 ->
      Index (a1 ++ attrOpen "TAGS") (attrOpen "TAGS") = Some (List.length a1) ->
      v <> [] -> Forall (fun c => notByte dquote c = true) v ->
      Tags job = filter (fun t => negb (isEmpty t))
                        (map TrimSpace (Split v (b ",")))) /\
  (Index (anchorAttrs block) (attrOpen "TAGS") = None -> Tags job = []) /\
  Forall (fun t => t <> [] /\ TrimSpace t = t /\
                   Forall (fun c => notByte "," c = true) t /\
                   Forall (fun c => notByte dquote c = true) t)
         (Tags job).
Proof.
  intros H. apply parseBlock_Some in H. cbv zeta in H.
  destruct H as (_ & _ & _ & _ & _ & _ & Hg).
  rewrite extractTags_spec in Hg.
  split; [exact Hg|]. split; [|split].
  - intros a1 v a2 Ea Hi Hv Fv.
    rewrite Hg, Ea, (firstAttr_at "TAGS" (notByte dquote) a1 v a2);
      [reflexivity | reflexivity | exact Hi | exact Hv | exact Fv].
  - intros Hi. rewrite Hg, (firstAttr_absent _ _ _ Hi). reflexivity.
  - destruct (firstAttr "TAGS" (notByte dquote) (anchorAttrs block)) as [v|] eqn:E;
      [|rewrite Hg; constructor].
    destruct (firstAttr_Some _ _ _ _ E) as (_ & Fq & _).
    rewrite Hg, Forall_forall. intros t Ht.
    destruct (labelsOf_clean _ _ Ht) as [Hne Htr].
    split; [exact Hne|]. split; [exact Htr|].
    unfold labelsOf in Ht. apply filter_In in Ht. destruct Ht as [Ht _].
    apply in_map_iff in Ht. destruct Ht as (x & <- & Hx).
    pose proof (splitFrom_comma_pieces v) as Fc.
    pose proof (splitFrom_Forall _ (b ",") v Fq O) as Fd.
    rewrite Forall_forall in Fc, Fd.
    split; apply TrimSpace_Forall; [apply Fc | apply Fd]; exact Hx.
Qed.

Lemma candidate_labels_shape_witness :
  Tags sparseTagsJob =
  match firstAttr "TAGS" (notByte dquote) (anchorAttrs sparseTagsBlock) with
  | Some v => filter (fun t => negb (isEmpty t)) (map TrimSpace (Split v (b ",")))
  | None => []
  end /\
  (forall a1 v a2,
      anchorAttrs sparseTagsBlock = a1 ++ attrOpen "TAGS" ++ v ++ dquote :: a2 ->
      Index (a1 ++ attrOpen "TAGS") (attrOpen "TAGS") = Some (List.length a1) ->
      v <> [] -> Forall (fun c => notByte dquote c = true) v ->
      Tags sparseTagsJob = filter (fun t => negb (isEmpty t))
                                  (map TrimSpace (Split v (b ",")))) /\
  (Index (anchorAttrs sparseTagsBlock) (attrOpen "TAGS") = None ->
   Tags sparseTagsJob = []) /\
  Forall (fun t => t <> [] /\ TrimSpace t = t /\
                   Forall (fun c => notByte "," c = true) t /\
                   Forall (fun c => notByte dquote c = true) t)
         (Tags sparseTagsJob).
Proof.
  apply (candidate_labels_shape 9 sparseTagsBlock sparseTagsJob).
  vm_compute. reflexivity.
Defined.

(** ** [insertBookmark] and [insertTags] used again *)

(** X10: an address that is already stored is never written again.
    [insertBookmark] on the address of a stored entry leaves the three
    tables as they are, whatever title, note and times it is given and
    whether the driver fails or not; when it returns an identity, that is
    the identity of the stored entry, and it returns one whenever the
    driver fails no call. *)
Theorem insertBookmark_keeps_existing (f : site -> bool) (title note : str)
        (createdAt updatedAt : Z) (c : conn) (row : bookmarkRow) :
  journal c = None -> constraints (live c) -> In row (bookmarks (live c)) ->
  let out := insertBookmark f (bm_url row) title note createdAt updatedAt c in
  live (snd out) = live c /\
  journal (snd out) = None /\
  (forall id, fst out = Ok id -> id = bm_id row) /\
  (noFaults f -> fst out = Ok (bm_id row)).
Proof.
  intros J C Hr. cbv zeta.
  destruct (insertBookmark_spec f (bm_url row) title note createdAt updatedAt c J)
    as (r & c' & E & J' & R).
  rewrite E. cbn [fst snd].
  assert (Ex : existsb (fun r0 => str_eqb (bm_url r0) (bm_url row))
                       (bookmarks (live c)) = true).
  { apply existsb_url, in_map, Hr. }
  assert (Hid : forall id, r = Ok id -> id = bm_id row /\ live c' = live c).
  { intros id ->. destruct R as (_ & St & R). rewrite Ex in R. split; [|exact R].
    rewrite R in St. destruct St as (row' & Hi & Hu & <-).
    f_equal. symmetry.
    apply (NoDup_map_eq bm_url (bookmarks (live c))); [apply C | | |]; auto. }
  splits.
  - destruct r as [id | e]; [apply (Hid id eq_refl) | apply R].
  - exact J'.
  - intros id Hi. apply (Hid id Hi).
  - intros Hf. destruct r as [id | e].
    + f_equal. apply (Hid id eq_refl).
    + destruct R as (_ & (x & Hx) & _). rewrite (Hf x) in Hx. discriminate.
Qed.

Lemma insertBookmark_keeps_existing_witness :
  let row := mkBookmark 2 (b "https://rocq-prover.org") (Some (b "Rocq"))
                        (Some []) 5 5 in
  let out := insertBookmark failCommitTags (bm_url row) (b "Other title")
                            (b "a note") 7 8 (openConn titleStore) in
  live (snd out) = live (openConn titleStore) /\
  journal (snd out) = None /\
  (forall id, fst out = Ok id -> id = bm_id row) /\
  (noFaults failCommitTags -> fst out = Ok (bm_id row)).
Proof.
  apply (insertBookmark_keeps_existing failCommitTags (b "Other title")
           (b "a note") 7 8 (openConn titleStore)
           (mkBookmark 2 (b "https://rocq-prover.org") (Some (b "Rocq"))
                       (Some []) 5 5)).
  - reflexivity.
  - constructor; nodup_solve.
  - right; left; reflexivity.
Defined.




Lemma find_tag_stored (tag : str) (tid : Z) (s : store) :
  constraints s -> tagStored tag tid s ->
  exists row, find (fun r => str_eqb (tg_tag r) tag) (tags s) = Some row /\
              tg_id row = tid.
Proof.
  intros C (row & Hi & Ht & Hid).
  assert (Ex : existsb (fun r => str_eqb (tg_tag r) tag) (tags s) = true).
  { apply existsb_tag. rewrite <- Ht. apply in_map, Hi. }
  destruct (existsb_find _ _ Ex) as (row' & Ef & Hi' & Hp).
  apply str_eqb_eq in Hp. exists row'. split; [exact Ef|].
  replace row' with row; [exact Hid|].
  apply (NoDup_map_eq tg_tag (tags s)); [apply C | | | congruence]; assumption.
Qed.

(** The loop of [insertTags] over labels that are stored and linked
    changes nothing on the connection. *)
Lemma tagsLoop_linked (f : site -> bool) (bid : Z) (tagList : list str) :
  noFaults f ->
  forall (i : nat) (c : conn),
    constraints (live c) -> labelsLinked bid tagList (live c) ->
    tagsLoop f bid i tagList c = (Ok tt, c).
Proof.
  intros Hf. induction tagList as [|tag rest IH]; intros i c C L; [reflexivity|].
  assert (Lr : labelsLinked bid rest (live c)).
  { intros t Ht. apply L. right; exact Ht. }
  cbn [tagsLoop]. destruct (isEmpty tag) eqn:Etag; [apply IH; assumption|].
  assert (Ne : tag <> []) by (intros ->; discriminate).
  destruct (L tag (or_introl eq_refl) Ne) as (tid & St & Hl).
  destruct (find_tag_stored tag tid (live c) C St) as (row & Ef & Hid).
  unfold bind, resolveTagID, selectTagID. rewrite (Hf (TagCall i SelectTag)), Ef.
  unfold orErrorf, execInsertLink. rewrite (Hf (TagCall i ExecLink)), Hid.
  replace (existsb (pair_eqb (bid, tid)) (bookmark_tags (live c))) with true
    by (symmetry; apply existsb_link; exact Hl).
  apply IH; assumption.
Qed.

(** X12: [insertTags] can be repeated.  With a driver that fails no call,
    it succeeds, and running it again for the same entry and the same
    labels succeeds and leaves the three tables exactly as the first run
    left them: no label and no link is written twice. *)
Theorem insertTags_idempotent (f : site -> bool) (bid : Z) (tagList : list str)
        (c : conn) :
  journal c = None -> constraints (live c) -> noFaults f ->
  let c1 := snd (insertTags f bid tagList c) in
  fst (insertTags f bid tagList c) = Ok tt /\
  labelsLinked bid tagList (live c1) /\
  fst (insertTags f bid tagList c1) = Ok tt /\
  live (snd (insertTags f bid tagList c1)) = live c1.
Proof.
  intros J C Hf. cbv zeta.
  destruct (insertTags_spec f bid tagList c J C) as (r & c1 & E & J1 & R).
  rewrite E. cbn [fst snd].
  destruct r as [[] | e].
  2:{ destruct R as (_ & (x & Hx) & _). rewrite (Hf x) in Hx. discriminate. }
  destruct R as (_ & (C1 & _) & L1).
  split; [reflexivity|]. split; [exact L1|].
  assert (E2 : insertTags f bid tagList c1
               = (Ok tt, mkConn (live c1) None (lastRowid c1)
                                ((txlog c1 ++ [TxBegin]) ++ [TxCommit]))).
  { unfold insertTags, bind at 1, orErrorf at 1, Begin.
    rewrite (Hf BeginTags), J1. unfold deferRollback, bind.
    set (cb := mkConn (live c1) (Some (live c1)) (lastRowid c1)
                      (txlog c1 ++ [TxBegin])).
    rewrite (tagsLoop_linked f bid tagList Hf 0%nat cb C1 L1).
    unfold orErrorf, Commit, cb. cbn [journal]. rewrite (Hf CommitTags).
    reflexivity. }
  rewrite E2. split; reflexivity.
Qed.

Lemma insertTags_idempotent_witness :
  let f := fun _ : site => false in
  let c1 := snd (insertTags f 2 [b "logic"; []; b "new"] (openConn titleStore)) in
  fst (insertTags f 2 [b "logic"; []; b "new"] (openConn titleStore)) = Ok tt /\
  labelsLinked 2 [b "logic"; []; b "new"] (live c1) /\
  fst (insertTags f 2 [b "logic"; []; b "new"] c1) = Ok tt /\
  live (snd (insertTags f 2 [b "logic"; []; b "new"] c1)) = live c1.
Proof.
  apply (insertTags_idempotent (fun _ => false) 2 [b "logic"; []; b "new"]
           (openConn titleStore)).
  - reflexivity.
  - constructor; nodup_solve.
  - intros x. reflexivity.
Defined.

(** ** What an import does to the store *)

(** X13: an import never removes and never overwrites.  Whatever the
    document, the schedule of the workers and the failures of the driver,
    every entry, label and link stored before the import is stored after
    it, unchanged; in particular an entry whose address is in the
    document keeps its title, note and times. *)
Theorem import_keeps_stored_rows (e : env) (content : str) (c : conn) :
  journal c = None -> constraints (live c) ->
  let s' := live (importConn (importBookmarks e content c)) in
  incl (bookmarks (live c)) (bookmarks s') /\
  incl (tags (live c)) (tags s') /\
  incl (bookmark_tags (live c)) (bookmark_tags s') /\
  (forall row row',
      In row (bookmarks (live c)) -> In row' (bookmarks s') ->
      bm_url row' = bm_url row -> row' = row).
Proof.
  intros J C. cbv zeta.
  destruct (importBookmarks_inv e content c J C) as (p & I & _ & _ & Ec & _).
  rewrite Ec. destruct (inv_grows _ _ _ _ I) as (G1 & G2 & G3).
  splits; try assumption.
  intros row row' Hr Hr' Hu.
  apply (NoDup_map_eq bm_url (bookmarks (live (pconn p))));
    [apply I | exact Hr' | apply G1; exact Hr | exact Hu].
Qed.

Lemma import_keeps_stored_rows_witness :
  let s' := live (importConn (importBookmarks exampleEnv exampleDocument
                                              (openConn titleStore))) in
  incl (bookmarks titleStore) (bookmarks s') /\
  incl (tags titleStore) (tags s') /\
  incl (bookmark_tags titleStore) (bookmark_tags s') /\
  (forall row row',
      In row (bookmarks titleStore) -> In row' (bookmarks s') ->
      bm_url row' = bm_url row -> row' = row).
Proof.
  apply (import_keeps_stored_rows exampleEnv exampleDocument (openConn titleStore)).
  - reflexivity.
  - constructor; nodup_solve.
Defined.

(** X14: an import adds only what the document says.  Whatever the
    schedule and the failures of the driver, every entry that an import
    adds has the address, title, note and times of one candidate of the
    document; every label it adds is a label of a candidate; and every
    link it adds joins the stored entry of a candidate to a stored label
    of that same candidate. *)
Theorem import_adds_candidate_rows (e : env) (content : str) (c : conn) :
  journal c = None -> constraints (live c) ->
  let r := importBookmarks e content c in
  let s' := live (importConn r) in
  (forall row, In row (bookmarks s') ->
     In row (bookmarks (live c)) \/
     exists job, In job (importJobs r) /\
       row = mkBookmark (bm_id row) (URI job) (Some (Title job))
                        (Some (Note job)) (CreatedAt job) (UpdatedAt job)) /\
  (forall row, In row (tags s') ->
     In row (tags (live c)) \/
     exists job, In job (importJobs r) /\ In (tg_tag row) (Tags job)) /\
  (forall l, In l (bookmark_tags s') ->
     In l (bookmark_tags (live c)) \/
     exists job t, In job (importJobs r) /\ In t (Tags job) /\
       bookmarkStored (URI job) (fst l) s' /\ tagStored t (snd l) s').
Proof.
  intros J C. cbv zeta.
  destruct (importBookmarks_provenance e content c J C) as [Pr Pl].
  destruct (importBookmarks_inv e content c J C) as (p & I & _ & _ & Ec & _).
  splits.
  - exact Pr.
  - rewrite Ec. intros row Hr.
    destruct (inv_tags _ _ _ _ I row Hr) as [H | (job & H1 & H2 & _)];
      [left; exact H | right; eauto].
  - exact Pl.
Qed.

Lemma import_adds_candidate_rows_witness :
  let r := importBookmarks exampleEnv exampleDocument (openConn titleStore) in
  let s' := live (importConn r) in
  (forall row, In row (bookmarks s') ->
     In row (bookmarks titleStore) \/
     exists job, In job (importJobs r) /\
       row = mkBookmark (bm_id row) (URI job) (Some (Title job))
                        (Some (Note job)) (CreatedAt job) (UpdatedAt job)) /\
  (forall row, In row (tags s') ->
     In row (tags titleStore) \/
     exists job, In job (importJobs r) /\ In (tg_tag row) (Tags job)) /\
  (forall l, In l (bookmark_tags s') ->
     In l (bookmark_tags titleStore) \/
     exists job t, In job (importJobs r) /\ In t (Tags job) /\
       bookmarkStored (URI job) (fst l) s' /\ tagStored t (snd l) s').
Proof.
  apply (import_adds_candidate_rows exampleEnv exampleDocument (openConn titleStore)).
  - reflexivity.
  - constructor; nodup_solve.
Defined.

(** X15: an import without failures stores every address.  When the
    driver fails no call, then under every schedule of the workers every
    candidate is reported as imported, its entry and labels are stored,
    and the addresses stored after the import are exactly the addresses
    stored before it and the addresses of the candidates. *)
Theorem calm_import_stores_every_address (e : env) (content : str) (c : conn) :
  journal c = None -> constraints (live c) ->
  (forall n, noFaults (envFaults e n)) ->
  let r := importBookmarks e content c in
  successCount r = List.length (importJobs r) /\
  (forall job, In job (importJobs r) -> persisted job (live (importConn r))) /\
  (forall u, In u (map bm_url (bookmarks (live (importConn r)))) <->
             In u (map bm_url (bookmarks (live c))) \/
             In u (map URI (importJobs r))).
Proof.
  intros J C Hf. cbv zeta.
  destruct (import_all_persisted e content c J C Hf) as (Hp & Hn & _).
  destruct (importBookmarks_provenance e content c J C) as [Pr _].
  destruct (importBookmarks_inv e content c J C) as (p & I & _ & _ & Ec & _).
  splits; try assumption.
  intros u. rewrite !in_map_iff. split.
  - intros (row & <- & Hr). destruct (Pr row Hr) as [H | (job & Hj & Er)].
    + left. exists row. auto.
    + right. exists job. split; [rewrite Er; reflexivity | exact Hj].
  - intros [(row & <- & Hr) | (job & <- & Hj)].
    + exists row. split; [reflexivity|]. rewrite Ec.
      apply (inv_grows _ _ _ _ I). exact Hr.
    + destruct (Hp job Hj) as (id & (row & Hr & Hu & _) & _). eauto.
Qed.

Lemma calm_import_stores_every_address_witness :
  let r := importBookmarks calmEnv exampleDocument (openConn titleStore) in
  successCount r = List.length (importJobs r) /\
  (forall job, In job (importJobs r) -> persisted job (live (importConn r))) /\
  (forall u, In u (map bm_url (bookmarks (live (importConn r)))) <->
             In u (map bm_url (bookmarks titleStore)) \/
             In u (map URI (importJobs r))).
Proof.
  apply (calm_import_stores_every_address calmEnv exampleDocument
           (openConn titleStore)).
  - reflexivity.
  - constructor; nodup_solve.
  - intros n x. reflexivity.
Defined.


(** ** Two candidates with one address *)

Lemma runPool_step (faults : nat -> site -> bool) (sched : nat -> nat)
      (fuel t : nat) (p p' : pool) (w0 : nat) (ws : list nat) :
  enabled p = w0 :: ws ->
  poolStep faults (nth (sched t mod List.length (w0 :: ws)) (w0 :: ws) w0) p
  = Some p' ->
  runPool faults sched (S fuel) t p = runPool faults sched fuel (S t) p'.
Proof.
  intros He Hs. cbn [runPool]. rewrite He, Hs. reflexivity.
Qed.

Lemma insertTags_calm (bid : Z) (tagList : list str) (c : conn) :
  journal c = None -> constraints (live c) ->
  exists c',
    insertTags (fun _ => false) bid tagList c = (Ok tt, c') /\
    journal c' = None /\ constraints (live c') /\
    bookmarks (live c') = bookmarks (live c).
Proof.
  intros J C.
  destruct (insertTags_spec (fun _ => false) bid tagList c J C)
    as (r & c' & E & J' & R).
  destruct r as [[] | e].
  - destruct R as (_ & (C' & B & _) & _). exists c'. auto.
  - destruct R as (_ & (x & Hx) & _). discriminate.
Qed.

Lemma insertBookmark_calm_existing (title note : str) (createdAt updatedAt : Z)
      (c : conn) (row : bookmarkRow) :
  journal c = None -> constraints (live c) -> In row (bookmarks (live c)) ->
  exists c',
    insertBookmark (fun _ => false) (bm_url row) title note createdAt updatedAt c
    = (Ok (bm_id row), c') /\
    journal c' = None /\ live c' = live c.
Proof.
  intros J C Hr.
  destruct (insertBookmark_spec (fun _ => false) (bm_url row) title note
              createdAt updatedAt c J) as (r & c' & E & J' & R).
  destruct r as [id | e].
  2:{ destruct R as (_ & (x & Hx) & _). discriminate. }
  destruct R as (_ & St & R).
  replace (existsb (fun r0 => str_eqb (bm_url r0) (bm_url row))
                   (bookmarks (live c))) with true in R
    by (symmetry; apply existsb_url, in_map, Hr).
  rewrite R in St. destruct St as (row' & Hi & Hu & Hid).
  assert (row' = row).
  { apply (NoDup_map_eq bm_url (bookmarks (live c))); [apply C | | |]; auto. }
  subst row'. exists c'. rewrite E, Hid. auto.
Qed.

Lemma insertBookmark_calm_empty (job : Job) :
  insertBookmark (fun _ => false) (URI job) (Title job) (Note job)
                 (CreatedAt job) (UpdatedAt job) (openConn emptyStore)
  = (Ok 1, mkConn (mkStore [jobRow 1 job] [] []) None 1 [TxBegin; TxCommit]).
Proof. reflexivity. Qed.

Lemma constraints_one_row (row : bookmarkRow) : constraints (mkStore [row] [] []).
Proof. constructor; cbn; repeat constructor; intros []. Qed.

Ltac pool_move :=
  erewrite runPool_step;
  [ | reflexivity
    | unfold poolStep; cbn -[insertBookmark insertTags];
      repeat match goal with
             | H : insertBookmark _ _ _ _ _ _ _ = _ |- _ => rewrite H
             | H : insertTags _ _ _ _ = _ |- _ => rewrite H
             end;
      reflexivity ].

Lemma calmRun_in_order (j1 j2 : Job) :
  URI j1 = URI j2 ->
  bookmarks (live (pconn (calmRun (fun _ => O) [j1; j2]))) = [jobRow 1 j1].
Proof.
  intros Eu. unfold calmRun.
  change (3 * List.length [j1; j2])%nat with 6%nat.
  change (repeat Idle workerCount) with [Idle; Idle; Idle; Idle; Idle].
  cbn [number].
  pose proof (insertBookmark_calm_empty j1) as H1.
  set (c1 := mkConn (mkStore [jobRow 1 j1] [] []) None 1 [TxBegin; TxCommit]) in *.
  destruct (insertTags_calm 1 (Tags j1) c1 eq_refl (constraints_one_row _))
    as (c2 & H2 & J2 & C2 & B2).
  assert (R2 : In (jobRow 1 j1) (bookmarks (live c2)))
    by (rewrite B2; left; reflexivity).
  destruct (insertBookmark_calm_existing (Title j2) (Note j2) (CreatedAt j2)
              (UpdatedAt j2) c2 (jobRow 1 j1) J2 C2 R2)
    as (c3 & H3 & J3 & L3).
  cbn [bm_url bm_id jobRow] in H3. rewrite Eu in H3.
  assert (C3 : constraints (live c3)) by (rewrite L3; exact C2).
  destruct (insertTags_calm 1 (Tags j2) c3 J3 C3) as (c4 & H4 & J4 & C4 & B4).
  pool_move. pool_move. pool_move. pool_move. pool_move. pool_move.
  cbn [runPool pconn]. rewrite B4, L3, B2. reflexivity.
Qed.

Lemma calmRun_second_first (j1 j2 : Job) :
  URI j1 = URI j2 ->
  bookmarks (live (pconn (calmRun secondFirst [j1; j2]))) = [jobRow 1 j2].
Proof.
  intros Eu. unfold calmRun.
  change (3 * List.length [j1; j2])%nat with 6%nat.
  change (repeat Idle workerCount) with [Idle; Idle; Idle; Idle; Idle].
  cbn [number].
  pose proof (insertBookmark_calm_empty j2) as H1.
  set (c1 := mkConn (mkStore [jobRow 1 j2] [] []) None 1 [TxBegin; TxCommit]) in *.
  destruct (insertTags_calm 1 (Tags j2) c1 eq_refl (constraints_one_row _))
    as (c2 & H2 & J2 & C2 & B2).
  assert (R2 : In (jobRow 1 j2) (bookmarks (live c2)))
    by (rewrite B2; left; reflexivity).
  destruct (insertBookmark_calm_existing (Title j1) (Note j1) (CreatedAt j1)
              (UpdatedAt j1) c2 (jobRow 1 j2) J2 C2 R2)
    as (c3 & H3 & J3 & L3).
  cbn [bm_url bm_id jobRow] in H3. rewrite <- Eu in H3.
  assert (C3 : constraints (live c3)) by (rewrite L3; exact C2).
  destruct (insertTags_calm 1 (Tags j1) c3 J3 C3) as (c4 & H4 & J4 & C4 & B4).
  pool_move. pool_move. pool_move. pool_move. pool_move. pool_move.
  cbn [runPool pconn]. rewrite B4, L3, B2. reflexivity.
Qed.

(** ** The race of candidates with one address *)

Lemma In_setNth {A} (w : nat) (y x : A) (l : list A) :
  In x (setNth w y l) -> x = y \/ In x l.
Proof.
  revert w. induction l as [|a l IH]; intros w H; [destruct w; destruct H|].
  destruct w as [|w]; cbn [setNth] in H.
  - destruct H as [H | H]; [left; congruence | right; right; exact H].
  - destruct H as [H | H]; [right; left; exact H|].
    destruct (IH w H) as [E | E]; [left; exact E | right; right; exact E].
Qed.

Lemma settled_step (u : str) (row : bookmarkRow) (w : nat) (p p' : pool) :
  poolStep (fun _ _ => false) w p = Some p' ->
  journal (pconn p) = None -> constraints (live (pconn p)) ->
  bookmarks (live (pconn p)) = [row] -> bm_url row = u ->
  sameAddress u p ->
  journal (pconn p') = None /\ constraints (live (pconn p')) /\
  bookmarks (live (pconn p')) = [row] /\ sameAddress u p'.
Proof.
  intros Es J C B Hu [Sj Sw]. unfold poolStep in Es.
  destruct (nth_error (pworkers p) w) as [[|n job|n job id]|] eqn:En;
    [| | |discriminate].
  - destruct (pjobs p) as [|[n job] rest] eqn:Ej; [discriminate|].
    injection Es as <-. cbn [pconn pjobs pworkers].
    splits; try assumption. split.
    + intros n' job' H. apply (Sj n' job'). right; exact H.
    + intros n' job' H. apply In_setNth in H. destruct H as [H | H].
      * injection H as -> ->. apply (Sj n job). left; reflexivity.
      * apply (Sw n' job' H).
  - assert (Eu : URI job = bm_url row).
    { rewrite Hu. apply (Sw n job). eapply nth_error_In; exact En. }
    assert (Hr : In row (bookmarks (live (pconn p))))
      by (rewrite B; left; reflexivity).
    destruct (insertBookmark_calm_existing (Title job) (Note job) (CreatedAt job)
                (UpdatedAt job) (pconn p) row J C Hr) as (c' & E & J' & L').
    rewrite <- Eu in E. cbv beta in Es. rewrite E in Es.
    injection Es as <-. cbn [pconn pjobs pworkers]. rewrite L'.
    splits; try assumption. split; [exact Sj|].
    intros n' job' H. apply In_setNth in H. destruct H as [H | H];
      [discriminate | apply (Sw n' job' H)].
  - destruct (insertTags_calm id (Tags job) (pconn p) J C)
      as (c' & E & J' & C' & B').
    cbv beta in Es. rewrite E in Es.
    injection Es as <-. cbn [pconn pjobs pworkers]. rewrite B'.
    splits; try assumption. split; [exact Sj|].
    intros n' job' H. apply In_setNth in H. destruct H as [H | H];
      [discriminate | apply (Sw n' job' H)].
Qed.

Lemma settled_run (u : str) (row : bookmarkRow) (sched : nat -> nat) (fuel : nat) :
  forall (t : nat) (p : pool),
    journal (pconn p) = None -> constraints (live (pconn p)) ->
    bookmarks (live (pconn p)) = [row] -> bm_url row = u ->
    sameAddress u p ->
    bookmarks (live (pconn (runPool (fun _ _ => false) sched fuel t p))) = [row].
Proof.
  induction fuel as [|fuel IH]; intros t p J C B Hu S; [exact B|].
  cbn [runPool]. destruct (enabled p) as [|w0 ws]; [exact B|].
  cbv zeta.
  destruct (poolStep (fun _ _ => false) _ p) as [p'|] eqn:Es; [|exact B].
  destruct (settled_step u row _ p p' Es J C B Hu S) as (J' & C' & B' & S').
  apply IH; assumption.
Qed.

Lemma untouched_run (jobs : list Job) (u : str) (sched : nat -> nat) (fuel : nat) :
  Forall (fun j => URI j = u) jobs ->
  forall (t : nat) (p : pool),
    untouched jobs p ->
    match insertOrder (fun _ _ => false) sched fuel t p with
    | [] =>
      bookmarks (live (pconn (runPool (fun _ _ => false) sched fuel t p))) = []
    | n :: _ =>
      exists job,
        nth_error jobs n = Some job /\
        bookmarks (live (pconn (runPool (fun _ _ => false) sched fuel t p)))
        = [jobRow 1 job]
    end.
Proof.
  intros Fu. rewrite Forall_forall in Fu.
  induction fuel as [|fuel IH]; intros t p (Ec & Hj & Hw).
  - cbn [insertOrder runPool]. rewrite Ec. reflexivity.
  - cbn [insertOrder runPool].
    destruct (enabled p) as [|w0 ws]; [rewrite Ec; reflexivity|].
    cbv zeta. set (w := nth (sched t mod List.length (w0 :: ws)) (w0 :: ws) w0).
    destruct (poolStep (fun _ _ => false) w p) as [p'|] eqn:Es;
      [|rewrite Ec; reflexivity].
    pose proof Es as Es'. unfold poolStep in Es'.
    destruct (nth_error (pworkers p) w) as [[|n job|n job id]|] eqn:En;
      [| | |discriminate].
    + destruct (pjobs p) as [|[n job] rest] eqn:Ej; [discriminate|].
      injection Es' as <-. apply IH. cbn [pconn pjobs pworkers].
      split; [exact Ec|]. split.
      * intros n' job' H. apply (Hj n' job'). right; exact H.
      * intros x H. apply In_setNth in H. destruct H as [-> | H].
        -- right. exists n, job. split; [reflexivity|].
           apply (Hj n job). left; reflexivity.
        -- apply (Hw x H).
    + assert (Hn : nth_error jobs n = Some job).
      { destruct (Hw _ (nth_error_In _ _ En)) as [H | (n' & job' & H & Hn)];
          [discriminate|]. injection H as -> ->. exact Hn. }
      exists job. split; [exact Hn|].
      cbv beta in Es'. rewrite Ec, insertBookmark_calm_empty in Es'.
      injection Es' as <-.
      apply (settled_run u); cbn [pconn pjobs pworkers live journal bookmarks].
      * reflexivity.
      * apply constraints_one_row.
      * reflexivity.
      * cbn [jobRow bm_url]. apply Fu. eapply nth_error_In; exact Hn.
      * split.
        -- intros n' job' H. apply Fu.
           eapply nth_error_In. apply (Hj n' job' H).
        -- intros n' job' H. apply In_setNth in H.
           destruct H as [H | H]; [discriminate|].
           destruct (Hw _ H) as [H' | (n2 & job2 & H' & Hn2)]; [discriminate|].
           injection H' as -> ->. apply Fu. eapply nth_error_In; exact Hn2.
    + destruct (Hw _ (nth_error_In _ _ En)) as [H | (n' & job' & H & _)];
        discriminate.
Qed.

Lemma calmRun_persisted (sched : nat -> nat) (jobs : list Job) (job : Job) :
  In job jobs -> persisted job (live (pconn (calmRun sched jobs))).
Proof.
  intros Hj. unfold calmRun.
  set (c := openConn emptyStore).
  set (p0 := mkPool c (number 0 jobs) (repeat Idle workerCount) []).
  assert (M : (movesLeft p0 <= 3 * List.length jobs)%nat).
  { unfold movesLeft, p0. cbn [pjobs pworkers].
    rewrite <- (length_map fst), number_fst, length_seq. simpl. lia. }
  destruct (runPool_inv (fun _ _ => false) sched jobs c (3 * List.length jobs)
              0%nat p0
              (poolInv_init (fun _ _ => false) jobs c eq_refl constraints_empty) M)
    as (I & He & Hl).
  set (p := runPool (fun _ _ => false) sched (3 * List.length jobs) 0 p0) in *.
  assert (Pe : pending p = []).
  { apply enabled_nil; [exact He|]. intros E. rewrite E in Hl. discriminate. }
  apply In_nth_error in Hj. destruct Hj as [n Hn].
  assert (Hlen : (n < List.length jobs)%nat) by (apply nth_error_Some; congruence).
  destruct (inv_all _ _ _ _ I n Hlen) as [H | H]; [|rewrite Pe in H; destruct H].
  apply in_map_iff in H. destruct H as ([n' o] & En & H). cbn [fst] in En.
  subst n'.
  destruct (inv_results _ _ _ _ I n o H) as (job' & Hn' & Ho).
  destruct o as [err|].
  - destruct Ho as (_ & x & Hx). discriminate.
  - cbn [outcomeOK] in Ho. replace job with job' by congruence. exact Ho.
Qed.

Lemma calmRun_first_kept (sched : nat -> nat) (jobs : list Job) (u : str) :
  jobs <> [] -> Forall (fun j => URI j = u) jobs ->
  exists n rest job,
    calmOrder sched jobs = n :: rest /\
    nth_error jobs n = Some job /\
    bookmarks (live (pconn (calmRun sched jobs))) = [jobRow 1 job].
Proof.
  intros Hne Fu.
  assert (U : untouched jobs (mkPool (openConn emptyStore) (number 0 jobs)
                                     (repeat Idle workerCount) [])).
  { split; [reflexivity|]. cbn [pjobs pworkers]. split.
    - intros n job H. apply number_In in H. destruct H as [_ H].
      rewrite Nat.sub_0_r in H. exact H.
    - intros x H. apply repeat_spec in H. left; exact H. }
  pose proof (untouched_run jobs u sched (3 * List.length jobs) Fu 0%nat _ U) as R.
  fold (calmOrder sched jobs) in R. fold (calmRun sched jobs) in R.
  destruct (calmOrder sched jobs) as [|n rest].
  - exfalso. destruct jobs as [|j jobs']; [congruence|].
    destruct (calmRun_persisted sched (j :: jobs') j (or_introl eq_refl))
      as (id & (row & Hr & _) & _).
    rewrite R in Hr. destruct Hr.
  - destruct R as (job & Hn & Hb). exists n, rest, job. auto.
Qed.

(** X16: candidates with one address race.  When all the candidates of
    an import into an empty store have the same address, and the driver
    fails no call, then under every schedule of the workers exactly one
    entry is stored, under identity 1, with the title, note and times of
    the candidate for which [insertBookmark] ran first.  Which one that
    is depends on the schedule: with two candidates, run in order the
    first one is kept, and there is a schedule under which the second one
    is kept. *)
Theorem duplicate_address_race (j1 j2 : Job) :
  URI j1 = URI j2 ->
  (forall sched jobs u,
      jobs <> [] -> Forall (fun j => URI j = u) jobs ->
      exists n rest job,
        calmOrder sched jobs = n :: rest /\
        nth_error jobs n = Some job /\
        bookmarks (live (pconn (calmRun sched jobs))) = [jobRow 1 job]) /\
  bookmarks (live (pconn (calmRun (fun _ => O) [j1; j2]))) = [jobRow 1 j1] /\
  bookmarks (live (pconn (calmRun secondFirst [j1; j2]))) = [jobRow 1 j2] /\
  (forall clk sched content,
      importConn (importBookmarks (mkEnv clk (fun _ _ => false) sched) content
                                  (openConn emptyStore))
      = pconn (calmRun sched
                       (fst (parseBlocks (Split content (b "<DT>")) clk)))).
Proof.
  intros Eu.
  split; [exact calmRun_first_kept|].
  split; [apply calmRun_in_order; exact Eu|].
  split; [apply calmRun_second_first; exact Eu|].
  intros clk sched content. unfold importBookmarks, calmRun. cbn [envClock envFaults envSched].
  destruct (parseBlocks (Split content (b "<DT>")) clk) as [jobs clk'].
  reflexivity.
Qed.

Lemma duplicate_address_race_witness :
  let j2 := mkJob (b "https://example.com") (b "Another title") []
                  2000 2000 [b "c"] in
  (forall sched jobs u,
      jobs <> [] -> Forall (fun j => URI j = u) jobs ->
      exists n rest job,
        calmOrder sched jobs = n :: rest /\
        nth_error jobs n = Some job /\
        bookmarks (live (pconn (calmRun sched jobs))) = [jobRow 1 job]) /\
  bookmarks (live (pconn (calmRun (fun _ => O) [exampleJob; j2])))
  = [jobRow 1 exampleJob] /\
  bookmarks (live (pconn (calmRun secondFirst [exampleJob; j2])))
  = [jobRow 1 j2] /\
  (forall clk sched content,
      importConn (importBookmarks (mkEnv clk (fun _ _ => false) sched) content
                                  (openConn emptyStore))
      = pconn (calmRun sched
                       (fst (parseBlocks (Split content (b "<DT>")) clk)))).
Proof.
  apply (duplicate_address_race exampleJob
           (mkJob (b "https://example.com") (b "Another title") []
                  2000 2000 [b "c"])).
  reflexivity.
Defined.


(** ** A title with a line break *)

Lemma reAnchor_miss (c : ascii) (s : str) :
  (negb (Ascii.eqb lt c) ||
   match s with
   | [] => true
   | a :: _ => negb (Ascii.eqb (toLower "A") (toLower a))
   end) = true ->
  matchHere reAnchor (c :: s) = None.
Proof.
  intros H. unfold matchHere, reAnchor. cbn [rmatch].
  destruct (Ascii.eqb lt c); [|reflexivity]. cbn [negb orb] in H.
  destruct s as [|a s]; [reflexivity|].
  destruct (Ascii.eqb (toLower "A") (toLower a)); [discriminate | reflexivity].
Qed.

Lemma noAnchorOpen_none (s : str) :
  noAnchorOpen s = true -> FindStringSubmatch reAnchor s = [].
Proof.
  induction s as [|c s IH]; [reflexivity|].
  cbn [noAnchorOpen]. intros H. apply andb_true_iff in H. destruct H as [H1 H2].
  cbn [FindStringSubmatch]. rewrite (reAnchor_miss c s H1). apply IH, H2.
Qed.

Lemma noAnchorOpen_prefix (x y : str) :
  noAnchorOpen (x ++ y) = true -> noAnchorOpen x = true.
Proof.
  induction x as [|c x IH]; [reflexivity|].
  cbn [app noAnchorOpen]. intros H. apply andb_true_iff in H. destruct H as [H1 H2].
  rewrite (IH H2), andb_true_r.
  destruct (Ascii.eqb lt c); [|reflexivity]. cbn [negb orb] in *.
  destruct x as [|a x]; [reflexivity | exact H1].
Qed.

Lemma noAnchorOpen_plain (p y : str) :
  Forall (fun c => c <> lt) p -> noAnchorOpen (p ++ y) = noAnchorOpen y.
Proof.
  induction 1 as [|c p Hc F IH]; [reflexivity|].
  cbn [app noAnchorOpen]. rewrite IH.
  destruct (Ascii.eqb lt c) eqn:E; [|reflexivity].
  apply Ascii.eqb_eq in E. congruence.
Qed.

Lemma TrimRightSpace_prefix (y : str) : exists w, y = TrimRightSpace y ++ w.
Proof.
  rewrite TrimRightSpace_rev.
  destruct (trimHead_suffix space2r space3r (rev y)) as [w E].
  exists (rev w). rewrite <- rev_app_distr, <- E. symmetry. apply rev_involutive.
Qed.

(** The lazy run cannot get past a byte outside the class when the rest of
    the pattern matches nowhere on the way. *)
Lemma lazy_blocked (cls : ascii -> bool) (k : cont) (t : str) (c : ascii)
      (r : str) (caps : list str) :
  cls c = false ->
  (forall x u, k (x :: u) caps <> None -> x = lt) ->
  Forall (fun x => x <> lt) t -> c <> lt ->
  lazy cls (t ++ c :: r) caps k = None.
Proof.
  intros Hc Hk Ft Hne. induction Ft as [|x t Hx Ft IH]; cbn [app lazy].
  - destruct (k (c :: r) caps) eqn:E.
    + exfalso. apply Hne, (Hk c r). rewrite E. discriminate.
    + rewrite Hc. reflexivity.
  - destruct (k (x :: t ++ c :: r) caps) eqn:E.
    + exfalso. apply Hx, (Hk x (t ++ c :: r)). rewrite E. discriminate.
    + destruct (cls x); [exact IH | reflexivity].
Qed.

Lemma reAnchor_line_break (a0 : ascii) (attrs t1 r : str) :
  reSpace a0 = false -> notByte gt a0 = true ->
  Forall (fun c => notByte gt c = true) attrs ->
  Forall (fun c => c <> lt) t1 ->
  matchHere reAnchor
    (lt :: "A"%char :: " "%char :: (a0 :: attrs) ++ gt :: t1 ++ newline :: r)
  = None.
Proof.
  intros Hs Hg Fa Ft.
  unfold matchHere, reAnchor. cbn [rmatch app].
  change (Ascii.eqb lt lt) with true.
  change (Ascii.eqb (toLower "A") (toLower "A")) with true.
  change (reSpace " ") with true. cbn match.
  cbn [greedy]. rewrite Hs. cbn [rmatch]. rewrite Hg.
  rewrite greedy_stops.
  2:{ intros c s' caps' Hc. cbn [rmatch]. unfold notByte in Hc.
      destruct (Ascii.eqb gt c); [discriminate | reflexivity]. }
  destruct (takeWhile_app (notByte gt) attrs (gt :: t1 ++ newline :: r) Fa)
    as [_ Ed]; [reflexivity|].
  rewrite Ed. cbn [rmatch]. change (Ascii.eqb gt gt) with true. cbn match.
  apply lazy_blocked.
  - reflexivity.
  - intros x u H.
    destruct (Ascii.eqb lt x) eqn:E; [apply Ascii.eqb_eq in E; congruence|].
    exfalso. apply H. reflexivity.
  - exact Ft.
  - discriminate.
Qed.

Lemma FindStringSubmatch_next (r : regex) (c : ascii) (s : str) :
  matchHere r (c :: s) = None ->
  FindStringSubmatch r (c :: s) = FindStringSubmatch r s.
Proof. intros H. cbn [FindStringSubmatch]. rewrite H. reflexivity. Qed.

Lemma no_anchor_with_break (a0 : ascii) (attrs t1 t2 y : str) :
  reSpace a0 = false -> notByte gt a0 = true ->
  Forall (fun c => notByte gt c = true) attrs ->
  Forall (fun c => c <> lt) (a0 :: attrs) ->
  Forall (fun c => c <> lt) t1 -> Forall (fun c => c <> lt) t2 ->
  noAnchorOpen y = true ->
  FindStringSubmatch reAnchor
    (lt :: "A"%char :: " "%char :: (a0 :: attrs) ++ gt :: t1 ++ newline :: t2 ++
     b "</A>" ++ y) = [].
Proof.
  intros Hs Hg Fa Fl F1 F2 Hy.
  rewrite FindStringSubmatch_next by (apply reAnchor_line_break; assumption).
  apply noAnchorOpen_none.
  replace ("A"%char :: " "%char :: (a0 :: attrs) ++ gt :: t1 ++ newline :: t2 ++
           b "</A>" ++ y)
    with (("A"%char :: " "%char :: (a0 :: attrs) ++ gt :: t1 ++ newline :: t2) ++
          lt :: "/"%char :: "A"%char :: gt :: y)
    by (cbn [app b list_ascii_of_string]; rewrite <- ?app_assoc; cbn [app];
        rewrite <- ?app_assoc; reflexivity).
  rewrite noAnchorOpen_plain.
  - cbn [noAnchorOpen]. rewrite Hy. reflexivity.
  - constructor; [discriminate|]. constructor; [discriminate|].
    rewrite Forall_app. split; [exact Fl|].
    constructor; [discriminate|]. rewrite Forall_app. split; [exact F1|].
    constructor; [discriminate | exact F2].
Qed.

Lemma noAnchorOpen_tag (c : ascii) (p y : str) :
  Ascii.eqb (toLower "A") (toLower c) = false ->
  Forall (fun x => x <> lt) (c :: p) ->
  noAnchorOpen (lt :: (c :: p) ++ y) = noAnchorOpen y.
Proof.
  intros Hc F.
  change (noAnchorOpen (lt :: (c :: p) ++ y))
    with ((negb (Ascii.eqb lt lt) ||
           negb (Ascii.eqb (toLower "A") (toLower c)))
          && noAnchorOpen ((c :: p) ++ y)).
  rewrite Hc, noAnchorOpen_plain by exact F. reflexivity.
Qed.

Lemma noAnchorOpen_tail (note post : str) :
  post = [] \/ post = closing ->
  noAnchorOpen (TrimRightSpace (exportedTail note ++ post)) = true.
Proof.
  intros Hp. destruct (TrimRightSpace_prefix (exportedTail note ++ post)) as [w E].
  apply (noAnchorOpen_prefix _ w). rewrite <- E. unfold exportedTail.
  assert (Hc : noAnchorOpen (lf ++ post) = true)
    by (destruct Hp as [-> | ->]; reflexivity).
  rewrite <- app_assoc.
  destruct (negb (isEmpty (EscapeString note))); [|exact Hc].
  replace ((b "<DD>" ++ EscapeString note) ++ lf ++ post)
    with (lt :: ("D"%char :: b "D>" ++ EscapeString note) ++ lf ++ post)
    by (cbn [app b list_ascii_of_string]; rewrite <- ?app_assoc; reflexivity).
  rewrite noAnchorOpen_tag; [exact Hc | reflexivity |].
  constructor; [discriminate|]. rewrite Forall_app.
  split; [repeat constructor; discriminate | apply EscapeString_no_lt].
Qed.

Lemma EscapeString_newline (t : str) :
  In newline t -> In newline (EscapeString t).
Proof.
  intros H. unfold EscapeString. apply in_flat_map.
  exists newline. split; [exact H | left; reflexivity].
Qed.

(** X17: an entry whose title has a line break is lost on the way back.
    [exportBookmarks] writes the entry, but in the block the importer
    cuts out for it the anchor pattern matches nowhere, since the inner
    text of an anchor must be on one line: [parseBlocks] passes over the
    block without a candidate and without an error. *)
Theorem multiline_title_lost (now : Z) (s : store) (r : bookmarkRow) (post : str) :
  scans r = true ->
  In newline (textOf (bm_title r)) ->
  post = [] \/ post = closing ->
  exportRow s r = Some (b "<DT>" ++ entryLine s r) /\
  parseBlock now (entryLine s r ++ post) = None.
Proof.
  intros Hs Hn Hp. split; [apply exportRow_entryLine; exact Hs|].
  apply parseBlock_no_anchor.
  unfold entryLine. rewrite dialectBlock_app, dialectBlock_shape, TrimSpace_tag.
  pose proof (noAnchorOpen_tail (textOf (bm_note r)) post Hp) as Hy.
  set (y := TrimRightSpace _) in *.
  apply EscapeString_newline in Hn. apply in_split in Hn.
  destruct Hn as (t1 & t2 & Et).
  pose proof (EscapeString_no_lt (textOf (bm_title r))) as Ft.
  rewrite Et in Ft |- *. apply Forall_app in Ft. destruct Ft as [F1 F2].
  inversion F2 as [|? ? _ F2']; subst.
  set (attrs := b "REF=" ++ [dquote] ++ EscapeString (bm_url r) ++ [dquote] ++
                exportedAttrsTail s r).
  replace (lt :: ("A"%char :: b " " ++
                  ([] ++ attrOpen "HREF" ++ EscapeString (bm_url r) ++ [dquote] ++
                   exportedAttrsTail s r) ++
                  gt :: (t1 ++ newline :: t2) ++ b "</A") ++ gt :: y)
    with (lt :: "A"%char :: " "%char :: ("H"%char :: attrs) ++ gt :: t1 ++
          newline :: t2 ++ b "</A>" ++ y)
    by (unfold attrs, attrOpen; cbn [app b list_ascii_of_string];
        repeat (rewrite <- ?app_assoc; cbn [app]); reflexivity).
  assert (Fg : Forall (fun c => notByte gt c = true) attrs).
  { unfold attrs. rewrite !Forall_app. repeat split.
    - repeat constructor.
    - repeat constructor.
    - apply EscapeString_free; [reflexivity | discriminate].
    - repeat constructor.
    - apply exportedAttrsTail_gt. }
  assert (Fl : Forall (fun c => c <> lt) ("H"%char :: attrs)).
  { constructor; [discriminate|]. unfold attrs. rewrite !Forall_app. repeat split.
    - repeat constructor; discriminate.
    - repeat constructor; discriminate.
    - apply EscapeString_no_lt.
    - repeat constructor; discriminate.
    - apply exportedAttrsTail_lt. }
  apply no_anchor_with_break; try assumption; reflexivity.
Qed.

Lemma multiline_title_lost_witness :
  exportRow emptyStore brokenRow = Some (b "<DT>" ++ entryLine emptyStore brokenRow) /\
  parseBlock 5 (entryLine emptyStore brokenRow ++ closing) = None.
Proof.
  apply (multiline_title_lost 5 emptyStore brokenRow closing).
  - reflexivity.
  - cbn. tauto.
  - right; reflexivity.
Defined.

(** ** Where the note of a candidate comes from *)

Lemma greedy_total (cls : ascii -> bool) (k : cont) (s : str) (caps : list str) :
  (forall s' caps', k s' caps' <> None) ->
  greedy cls s caps k = k (dropWhile cls s) caps.
Proof.
  intros Hk. induction s as [|c s IH]; cbn [greedy dropWhile]; [reflexivity|].
  destruct (cls c); [|reflexivity]. rewrite IH.
  destruct (k (dropWhile cls s) caps) eqn:E; [reflexivity|].
  exfalso. exact (Hk _ _ E).
Qed.

Lemma dropWhile_head (cls : ascii -> bool) (s : str) :
  match dropWhile cls s with [] => True | c :: _ => cls c = false end.
Proof.
  induction s as [|c s IH]; cbn [dropWhile]; [exact I|].
  destruct (cls c) eqn:E; [exact IH | exact E].
Qed.

Lemma reDesc_sound (s rest : str) (caps : list str) :
  matchHere reDesc s = Some (rest, caps) ->
  exists d1 d2 v,
    s = lt :: d1 :: d2 :: gt :: v ++ rest /\ caps = [v] /\
    toLower d1 = "d"%char /\ toLower d2 = "d"%char /\
    v <> [] /\ Forall (fun c => c <> lt) v /\
    match rest with [] => True | c :: _ => c = lt end.
Proof.
  unfold matchHere, reDesc. cbn [rmatch].
  destruct s as [|c1 s]; [discriminate|].
  destruct (Ascii.eqb lt c1) eqn:E1; [|discriminate].
  destruct s as [|d1 s]; [discriminate|].
  destruct (Ascii.eqb (toLower "D") (toLower d1)) eqn:E2; [|discriminate].
  destruct s as [|d2 s]; [discriminate|].
  destruct (Ascii.eqb (toLower "D") (toLower d2)) eqn:E3; [|discriminate].
  destruct s as [|c4 s]; [discriminate|].
  destruct (Ascii.eqb gt c4) eqn:E4; [|discriminate].
  destruct s as [|v0 s]; [discriminate|].
  destruct (notByte lt v0) eqn:E5; [|discriminate].
  apply Ascii.eqb_eq in E1, E2, E3, E4. subst c1 c4.
  rewrite greedy_total by (intros s' caps'; discriminate).
  intros H. injection H as <- <-.
  pose proof (takeWhile_dropWhile (notByte lt) s) as Es.
  pose proof (takeWhile_Forall (notByte lt) s) as Ft.
  pose proof (dropWhile_head (notByte lt) s) as Hd.
  set (v := takeWhile (notByte lt) s) in *.
  set (r := dropWhile (notByte lt) s) in *.
  clearbody v r. subst s.
  exists d1, d2, (v0 :: v). splits; auto; try discriminate.
  - f_equal.
    change (match List.length r with
            | O => S (List.length (v ++ r))
            | S l => (List.length (v ++ r) - l)%nat
            end) with (List.length ((v0 :: v) ++ r) - List.length r)%nat.
    apply (firstn_length_app (v0 :: v) r).
  - apply notByte_neq. constructor; assumption.
  - destruct r as [|c r]; [exact I|]. unfold notByte in Hd.
    destruct (Ascii.eqb lt c) eqn:E; [|discriminate].
    apply Ascii.eqb_eq in E. congruence.
Qed.

Lemma FindStringSubmatch_reDesc_sound (s : str) :
  FindStringSubmatch reDesc s <> [] ->
  exists pre d1 d2 v rest,
    s = pre ++ lt :: d1 :: d2 :: gt :: v ++ rest /\
    sub (FindStringSubmatch reDesc s) 1 = v /\
    toLower d1 = "d"%char /\ toLower d2 = "d"%char /\
    v <> [] /\ Forall (fun c => c <> lt) v /\
    match rest with [] => True | c :: _ => c = lt end.
Proof.
  induction s as [|c s IH].
  - cbn [FindStringSubmatch].
    destruct (matchHere reDesc []) as [[s' caps]|] eqn:E; [|congruence].
    apply reDesc_sound in E. destruct E as (d1 & d2 & v & E & _). discriminate.
  - cbn [FindStringSubmatch].
    destruct (matchHere reDesc (c :: s)) as [[s' caps]|] eqn:E.
    + intros _. apply reDesc_sound in E.
      destruct E as (d1 & d2 & v & Es & -> & H).
      exists [], d1, d2, v, s'. cbn [app sub nth].
      split; [exact Es|]. split; [reflexivity | exact H].
    + intros H. destruct (IH H) as (pre & d1 & d2 & v & rest & Es & R).
      exists (c :: pre), d1, d2, v, rest.
      split; [rewrite Es at 1; reflexivity | exact R].
Qed.

(** X18: the note of a candidate comes from the block.  A candidate has
    an empty note, or the trimmed block holds [<DD>] (in either case of
    the letters) followed by a text that is not empty, has no [<] and
    runs up to the next [<] or to the end of the block; the note is that
    text, trimmed and decoded. *)
Theorem note_comes_from_description (now : Z) (block : str) (job : Job) :
  parseBlock now block = Some job ->
  Note job = [] \/
  exists pre d1 d2 v rest,
    TrimSpace block = pre ++ lt :: d1 :: d2 :: gt :: v ++ rest /\
    toLower d1 = "d"%char /\ toLower d2 = "d"%char /\
    v <> [] /\ Forall (fun c => c <> lt) v /\
    match rest with [] => True | c :: _ => c = lt end /\
    Note job = htmlUnescape (TrimSpace v).
Proof.
  intros H. apply parseBlock_Some in H. cbv zeta in H.
  destruct H as (_ & _ & _ & Hn & _).
  unfold extractDescription in Hn.
  destruct (FindStringSubmatch reDesc (TrimSpace block)) as [|m0 m] eqn:E;
    [left; exact Hn|].
  right.
  assert (Hm : FindStringSubmatch reDesc (TrimSpace block) <> [])
    by (rewrite E; discriminate).
  destruct (FindStringSubmatch_reDesc_sound _ Hm)
    as (pre & d1 & d2 & v & rest & Es & Ev & R).
  rewrite E in Ev. rewrite Ev in Hn.
  exists pre, d1, d2, v, rest. split; [exact Es|].
  destruct R as (R1 & R2 & R3 & R4 & R5). splits; assumption.
Qed.

Lemma note_comes_from_description_witness :
  Note exampleJob = [] \/
  exists pre d1 d2 v rest,
    TrimSpace exampleBlock = pre ++ lt :: d1 :: d2 :: gt :: v ++ rest /\
    toLower d1 = "d"%char /\ toLower d2 = "d"%char /\
    v <> [] /\ Forall (fun c => c <> lt) v /\
    match rest with [] => True | c :: _ => c = lt end /\
    Note exampleJob = htmlUnescape (TrimSpace v).
Proof.
  apply (note_comes_from_description 5 exampleBlock exampleJob).
  vm_compute. reflexivity.
Defined.

(** ** A document without an anchor *)

Lemma noAnchorOpen_suffix (x y : str) :
  noAnchorOpen (x ++ y) = true -> noAnchorOpen y = true.
Proof.
  induction x as [|c x IH]; [auto|].
  cbn [app noAnchorOpen]. intros H. apply andb_true_iff in H. apply IH, H.
Qed.

Lemma noAnchorOpen_sub (u x v : str) :
  noAnchorOpen (u ++ x ++ v) = true -> noAnchorOpen x = true.
Proof.
  intros H. apply noAnchorOpen_suffix in H. apply noAnchorOpen_prefix in H. exact H.
Qed.

Lemma noAnchorOpen_TrimSpace (x : str) :
  noAnchorOpen x = true -> noAnchorOpen (TrimSpace x) = true.
Proof.
  intros H. unfold TrimSpace.
  destruct (TrimRightSpace_prefix (TrimLeftSpace x)) as [w E].
  apply (noAnchorOpen_prefix _ w). rewrite <- E.
  destruct (trimHead_suffix space2 space3 x) as [w' E'].
  apply (noAnchorOpen_suffix w'). unfold TrimLeftSpace. rewrite <- E'. exact H.
Qed.

(** Every piece of a split is a part of the text, and the first piece is
    its head. *)
Lemma splitFrom_parts (sep s : str) :
  (forall k piece, In piece (splitFrom sep s k) ->
                   exists u v, s = u ++ piece ++ v) /\
  (exists hd tl v, splitFrom sep s 0 = hd :: tl /\ s = hd ++ v).
Proof.
  induction s as [|c s [IH1 IH2]].
  - split.
    + intros k piece H. cbn [splitFrom] in H. destruct H as [<- | []].
      exists [], []. reflexivity.
    + exists [], [], []. split; reflexivity.
  - assert (Hs : forall k piece, In piece (splitFrom sep s k) ->
                                 exists u v, c :: s = u ++ piece ++ v).
    { intros k piece H. destruct (IH1 k piece H) as (u & v & E).
      exists (c :: u), v. rewrite E. reflexivity. }
    destruct IH2 as (hd & tl & v & Eh & Ev).
    split.
    + intros k piece H. cbn [splitFrom] in H. destruct k as [|k]; [|eauto].
      destruct (HasPrefix (c :: s) sep).
      * destruct H as [<- | H]; [exists [], (c :: s); reflexivity | eauto].
      * rewrite Eh in H. cbn [consHead] in H. destruct H as [<- | H].
        -- exists [], v. cbn [app]. rewrite Ev at 1. reflexivity.
        -- apply (Hs O). rewrite Eh. right; exact H.
    + cbn [splitFrom]. destruct (HasPrefix (c :: s) sep).
      * exists [], (splitFrom sep s (pred (List.length sep))), (c :: s).
        split; reflexivity.
      * rewrite Eh. cbn [consHead]. exists (c :: hd), tl, v.
        split; [reflexivity|]. cbn [app]. rewrite Ev at 1. reflexivity.
Qed.

Lemma parseLoop_none (now : Z) (blocks : list str) :
  Forall (fun block => noAnchorOpen block = true) blocks ->
  parseLoop now blocks = [].
Proof.
  induction 1 as [|block blocks Hb F IH]; [reflexivity|].
  cbn [parseLoop]. rewrite parseBlock_no_anchor; [exact IH|].
  apply noAnchorOpen_none, noAnchorOpen_TrimSpace, Hb.
Qed.

(** X19: a file without an anchor changes nothing.  When no [<] of the
    content is followed by [A] or [a] (an empty file, a text file, an
    exported document without entries), [importBookmarks] finds no
    candidate, whatever way the content splits at [<DT>]; no statement is
    sent to the store, the connection is left as it was, and the count
    reported is 0. *)
Theorem import_without_anchor (e : env) (content : str) (c : conn) :
  noAnchorOpen content = true ->
  let r := importBookmarks e content c in
  importJobs r = [] /\ importResults r = [] /\
  successCount r = 0%nat /\ importConn r = c.
Proof.
  intros H. cbv zeta.
  assert (E : fst (parseBlocks (Split content (b "<DT>")) (envClock e)) = []).
  { unfold parseBlocks, time_Now_Unix. cbn [fst]. apply parseLoop_none.
    rewrite Forall_forall. intros block Hb.
    destruct (proj1 (splitFrom_parts (b "<DT>") content) O block Hb) as (u & v & Ec).
    rewrite Ec in H. exact (noAnchorOpen_sub _ _ _ H). }
  unfold importBookmarks.
  destruct (parseBlocks (Split content (b "<DT>")) (envClock e)) as [jobs clk].
  cbn [fst] in E. subst jobs.
  cbn [importJobs importResults successCount importConn List.length Nat.mul
       number runPool presults pconn filter].
  splits; reflexivity.
Qed.

Lemma import_without_anchor_witness :
  let r := importBookmarks exampleEnv (fst (exportBookmarks emptyStore))
                           (openConn titleStore) in
  importJobs r = [] /\ importResults r = [] /\
  successCount r = 0%nat /\ importConn r = openConn titleStore.
Proof.
  apply (import_without_anchor exampleEnv (fst (exportBookmarks emptyStore))
           (openConn titleStore)).
  vm_compute. reflexivity.
Defined.

(** ** Labels in an exported entry *)

Lemma no_suffix_byte (p x : str) (c : ascii) :
  Forall (fun d => notByte c d = true) p -> HasSuffix p (x ++ [c]) = false.
Proof.
  intros F. unfold HasSuffix. rewrite rev_app_distr. cbn [rev app].
  destruct (rev p) as [|d r] eqn:E; [reflexivity|].
  cbn [HasPrefix].
  assert (Hd : notByte c d = true).
  { rewrite Forall_forall in F. apply F. apply in_rev. rewrite E. left; reflexivity. }
  unfold notByte in Hd. destruct (Ascii.eqb c d); [discriminate | reflexivity].
Qed.

Lemma formatInt_no_suffix (n : Z) (x : str) :
  HasSuffix (formatInt n) (x ++ b "=") = false.
Proof.
  apply no_suffix_byte. apply formatInt_Forall; [repeat constructor | reflexivity].
Qed.

(** The labels the parser reads from the attribute text of an entry. *)
Lemma exported_labels (s : store) (r : bookmarkRow) :
  HasSuffix (EscapeString (bm_url r)) (b "TAGS=") = false ->
  match firstAttr "TAGS" (notByte dquote) (exportedAttrs s r) with
  | Some v => labelsOf v
  | None => []
  end = labelsOf (EscapeString (joinComma (joinedTags s (bm_id r)))).
Proof.
  intros Hu. rewrite exportedAttrs_chunks.
  assert (Fq : forall t, Forall (fun c => notByte dquote c = true) (EscapeString t)).
  { intros t. apply EscapeString_free; [reflexivity | discriminate]. }
  rewrite firstAttr_skip;
    [| repeat constructor | repeat constructor | left; reflexivity].
  rewrite firstAttr_skip; [| repeat constructor | apply Fq | left; exact Hu].
  rewrite firstAttr_skip;
    [| repeat constructor | repeat constructor | left; reflexivity].
  rewrite firstAttr_skip;
    [| repeat constructor | apply formatInt_no_quote
     | left; apply (formatInt_no_suffix _ (b "TAGS"))].
  rewrite firstAttr_skip;
    [| repeat constructor | repeat constructor | left; reflexivity].
  rewrite firstAttr_skip;
    [| repeat constructor | apply formatInt_no_quote
     | left; apply (formatInt_no_suffix _ (b "TAGS"))].
  destruct (joinedTags s (bm_id r)) as [|l0 ls]; [reflexivity|].
  cbn [groupConcat].
  destruct (EscapeString (joinComma (l0 :: ls))) as [|e0 es] eqn:Ee;
    [reflexivity|].
  cbn [isEmpty negb].
  change (b " TAGS=" ++ [dquote] ++ (e0 :: es) ++ [dquote])
    with (b " " ++ attrOpen "TAGS" ++ (e0 :: es) ++ dquote :: []).
  rewrite firstAttr_at; [reflexivity | reflexivity | reflexivity | discriminate|].
  rewrite <- Ee. apply Fq.
Qed.

(** X20: the labels of an exported entry, read again.  For an entry whose
    exported address does not end in [TAGS=], the candidate parsed from
    its block has as labels the pieces, between commas and trimmed, of
    the escaped text of its labels joined by commas; an entry without
    labels gives a candidate without labels, and labels that are clean
    come back as they are, in the order of the join. *)
Theorem exported_labels_read_back (now : Z) (s : store) (r : bookmarkRow)
        (post : str) :
  reparsable r ->
  HasSuffix (EscapeString (bm_url r)) (b "TAGS=") = false ->
  exists job,
    parseBlock now (entryLine s r ++ post) = Some job /\
    Tags job = labelsOf (EscapeString (joinComma (joinedTags s (bm_id r)))) /\
    (joinedTags s (bm_id r) = [] -> Tags job = []) /\
    (Forall cleanLabel (joinedTags s (bm_id r)) ->
     Tags job = joinedTags s (bm_id r)).
Proof.
  intros Hr Hu.
  destruct (parseBlock_entryLine now s r post Hr) as (job & Hp & Ha & _).
  exists job. split; [exact Hp|].
  apply parseBlock_Some in Hp. cbv zeta in Hp.
  destruct Hp as (_ & _ & _ & _ & _ & _ & Hg).
  rewrite Ha, extractTags_spec, (exported_labels s r Hu) in Hg.
  split; [exact Hg|]. split.
  - intros E. rewrite Hg, E. reflexivity.
  - intros F. rewrite Hg.
    destruct (joinedTags s (bm_id r)) as [|l0 ls] eqn:E; [reflexivity|].
    rewrite (EscapeString_plain _ (joinComma_plain _ F)).
    apply labelsOf_joinComma; [discriminate | exact F].
Qed.

Lemma exported_labels_read_back_witness :
  exists job,
    parseBlock 5 (entryLine titleStore
                            (mkBookmark 1 (b "https://example.com/a?x=1")
                                        (Some (b "a<b & c")) (Some (b "x > y"))
                                        1000 2000) ++ []) = Some job /\
    Tags job = labelsOf (EscapeString (joinComma (joinedTags titleStore 1))) /\
    (joinedTags titleStore 1 = [] -> Tags job = []) /\
    (Forall cleanLabel (joinedTags titleStore 1) ->
     Tags job = joinedTags titleStore 1).
Proof.
  apply (exported_labels_read_back 5 titleStore
           (mkBookmark 1 (b "https://example.com/a?x=1") (Some (b "a<b & c"))
                       (Some (b "x > y")) 1000 2000) []).
  - split; [discriminate | repeat constructor].
  - reflexivity.
Defined.


(** ** Anchors and addresses *)

Lemma greedy_complete (cls : ascii -> bool) (k : cont) (run rest : str)
      (caps : list str) :
  Forall (fun c => cls c = true) run -> k rest caps <> None ->
  greedy cls (run ++ rest) caps k <> None.
Proof.
  intros F Hk. induction F as [|c run Hc F IH].
  - cbn [app]. destruct rest as [|c r]; cbn [greedy]; [exact Hk|].
    destruct (cls c); [|exact Hk].
    destruct (greedy cls r caps k); [discriminate | exact Hk].
  - cbn [app greedy]. rewrite Hc.
    destruct (greedy cls (run ++ rest) caps k); [discriminate | contradiction].
Qed.

Lemma lazy_complete (cls : ascii -> bool) (k : cont) (run rest : str)
      (caps : list str) :
  Forall (fun c => cls c = true) run -> k rest caps <> None ->
  lazy cls (run ++ rest) caps k <> None.
Proof.
  intros F Hk. induction F as [|c run Hc F IH].
  - cbn [app]. destruct rest as [|c r]; cbn [lazy];
      destruct (k _ caps); try discriminate; contradiction.
  - cbn [app lazy]. destruct (k (c :: run ++ rest) caps); [discriminate|].
    rewrite Hc. exact IH.
Qed.

Lemma matchHere_reAnchor_complete (a a' : ascii) (ws attrs t post : str) :
  toLower a = "a"%char -> toLower a' = "a"%char ->
  ws <> [] -> Forall (fun c => reSpace c = true) ws ->
  attrs <> [] -> Forall (fun c => notByte gt c = true) attrs ->
  Forall (fun c => notByte newline c = true) t ->
  matchHere reAnchor
            (lt :: a :: ws ++ attrs ++ gt :: t ++ lt :: "/"%char :: a' :: gt :: post)
  <> None.
Proof.
  intros Ha Ha' Hws Fws Hat Fat Ft.
  destruct ws as [|w ws]; [congruence|]. inversion Fws as [|? ? Hw Fws']; subst.
  destruct attrs as [|x attrs]; [congruence|].
  inversion Fat as [|? ? Hx Fat']; subst.
  unfold matchHere, reAnchor. cbn [rmatch app].
  rewrite Ascii.eqb_refl, Ha. change (toLower "A") with "a"%char.
  rewrite Ascii.eqb_refl, Hw.
  apply greedy_complete; [exact Fws'|].
  cbn [app]. rewrite Hx.
  apply greedy_complete; [exact Fat'|].
  rewrite Ascii.eqb_refl.
  apply lazy_complete; [exact Ft|].
  rewrite !Ascii.eqb_refl, Ha'. change (toLower "A") with "a"%char.
  rewrite Ascii.eqb_refl. discriminate.
Qed.

Lemma FindStringSubmatch_found (r : regex) (pre s : str) :
  matchHere r s <> None -> FindStringSubmatch r (pre ++ s) <> [].
Proof.
  intros H. induction pre as [|c pre IH].
  - cbn [app]. destruct s; cbn [FindStringSubmatch];
      destruct (matchHere r _) as [[s' caps]|]; try discriminate; contradiction.
  - cbn [app FindStringSubmatch].
    destruct (matchHere r (c :: pre ++ s)) as [[s' caps]|]; [discriminate | exact IH].
Qed.

Lemma hasAnchor_found (s : str) :
  hasAnchor s <-> FindStringSubmatch reAnchor s <> [].
Proof.
  split.
  - intros (attrs & t & pre & a & ws & a' & post & -> & Ha & Ha' & Hws & Fws &
            Hat & Fat & Ft).
    apply FindStringSubmatch_found.
    apply matchHere_reAnchor_complete; assumption.
  - intros H.
    destruct (FindStringSubmatch_reAnchor_sound s H)
      as (pre & a & ws & attrs & t & a' & post & E & _ & _ & R).
    exists attrs, t, pre, a, ws, a', post. split; [exact E|].
    decompose [and] R. splits; assumption.
Qed.

Lemma anchor_read (block : str) :
  hasAnchor (TrimSpace block) ->
  anchorIn (TrimSpace block) (anchorAttrs block) (anchorText block).
Proof.
  intros H. apply hasAnchor_found in H.
  destruct (FindStringSubmatch_reAnchor_sound _ H)
    as (pre & a & ws & attrs & t & a' & post & E & E1 & E2 & R).
  unfold anchorAttrs, anchorText. rewrite E1, E2.
  exists pre, a, ws, a', post. split; [exact E|].
  decompose [and] R. splits; assumption.
Qed.

Lemma FindStringSubmatch_reAnchor_length (s : str) :
  FindStringSubmatch reAnchor s = [] \/
  List.length (FindStringSubmatch reAnchor s) = 3%nat.
Proof.
  induction s as [|c s IH].
  - left. reflexivity.
  - cbn [FindStringSubmatch].
    destruct (matchHere reAnchor (c :: s)) as [[s' caps]|] eqn:E; [|exact IH].
    right. destruct (reAnchor_sound _ _ _ E) as (a & ws & attrs & t & a' & _ & -> & _).
    reflexivity.
Qed.

Lemma parseBlock_href (now : Z) (block u : str) :
  firstAttr "HREF" (notByte dquote) (anchorAttrs block) = Some u ->
  exists job, parseBlock now block = Some job /\ URI job = u.
Proof.
  intros H.
  destruct (firstAttr_Some _ _ _ _ H) as (Hu & _ & l & r & Ea).
  assert (Hf : FindStringSubmatch reAnchor (TrimSpace block) <> []).
  { intros E. unfold anchorAttrs in Ea. rewrite E in Ea.
    destruct l; discriminate Ea. }
  unfold parseBlock. cbv zeta.
  assert (Hne : isEmpty (TrimSpace block) = false).
  { destruct (TrimSpace block); [exfalso; apply Hf; reflexivity | reflexivity]. }
  rewrite Hne.
  destruct (FindStringSubmatch_reAnchor_length (TrimSpace block)) as [E | E];
    [contradiction|].
  rewrite E. cbn [Nat.ltb Nat.leb].
  fold (anchorAttrs block). rewrite extractHref_spec, H.
  destruct u as [|u0 u]; [congruence|]. cbn [isEmpty].
  eexists. split; reflexivity.
Qed.


(** C5 as it is written fails: a block whose anchor has an
    address attribute, but whose inner text runs over two lines, yields
    no candidate, because the anchor pattern matches within one line. *)
Lemma anchor_on_two_lines_dropped :
  addressed (b " ") [] (b "https://example.com") [] /\
  (forall clk, fst (parseBlocks [twoLineBlock] clk) = []) /\
  ~ (forall clk ws a1 u a2 t post,
        addressed ws a1 u a2 ->
        exists job,
          fst (parseBlocks [dialectBlock ws a1 u a2 t post] clk) = [job] /\
          URI job = u).
Proof.
  assert (A : addressed (b " ") [] (b "https://example.com") []).
  { unfold addressed. cbv zeta.
    repeat split; try discriminate; try reflexivity; repeat constructor. }
  assert (P : forall clk, fst (parseBlocks [twoLineBlock] clk) = []).
  { intros clk. unfold parseBlocks, time_Now_Unix. cbn [fst parseLoop].
    replace (parseBlock (reading clk (reads clk)) twoLineBlock) with (@None Job)
      by (vm_compute; reflexivity).
    reflexivity. }
  split; [exact A|]. split; [exact P|].
  intros H.
  destruct (H (mkClock 0 (fun _ => 5)) (b " ") [] (b "https://example.com") []
              (b "two" ++ lf ++ b "lines") [] A) as (job & E & _).
  change (dialectBlock (b " ") [] (b "https://example.com") []
                       (b "two" ++ lf ++ b "lines") []) with twoLineBlock in E.
  rewrite P in E. discriminate E.
Qed.

(** C5, amended: a block that, trimmed, holds an anchor ([<A] or [<a],
    white space, an attribute text without [>], [>], an inner text
    without a line break, [</A>] or [</a>]) is read as one of its anchors;
    when the attribute text of that anchor has an address attribute with
    a value that is not empty (the first [HREF] opening, a text without
    double quote, a double quote), the block yields exactly one
    candidate, and its address is that value, byte for byte; for a block
    of the dialect that anchor is the one at its head.  A block without such an
    anchor, or whose anchor has no address attribute, yields no candidate
    and the run goes on; the number of candidates is the number of blocks
    less one for every block passed over. *)
Theorem one_candidate_per_addressed_block :
  (forall s, hasAnchor s <-> FindStringSubmatch reAnchor s <> []) /\
  (forall block,
      hasAnchor (TrimSpace block) ->
      anchorIn (TrimSpace block) (anchorAttrs block) (anchorText block)) /\
  (forall clk block u,
      firstAttr "HREF" (notByte dquote) (anchorAttrs block) = Some u ->
      hasAnchor (TrimSpace block) /\
      exists job, fst (parseBlocks [block] clk) = [job] /\ URI job = u) /\
  (forall clk block a1 u a2,
      anchorAttrs block = a1 ++ attrOpen "HREF" ++ u ++ dquote :: a2 ->
      Index (a1 ++ attrOpen "HREF") (attrOpen "HREF") = Some (List.length a1) ->
      u <> [] -> Forall (fun c => notByte dquote c = true) u ->
      exists job, fst (parseBlocks [block] clk) = [job] /\ URI job = u) /\
  (forall clk ws a1 u a2 t post,
      dialectOK ws a1 u a2 t ->
      exists job,
        fst (parseBlocks [dialectBlock ws a1 u a2 t post] clk) = [job] /\
        URI job = u) /\
  (forall clk block rest,
      ~ hasAnchor (TrimSpace block) \/
      FindStringSubmatch reAnchor (TrimSpace block) = [] \/
      Index (anchorAttrs block) (attrOpen "HREF") = None \/
      firstAttr "HREF" (notByte dquote) (anchorAttrs block) = None ->
      fst (parseBlocks (block :: rest) clk) = fst (parseBlocks rest clk)) /\
  (forall clk blocks,
      (List.length (fst (parseBlocks blocks clk)) +
       List.length (filter (dropped (reading clk (reads clk))) blocks)
       = List.length blocks)%nat).
Proof.
  split; [exact hasAnchor_found|]. split; [exact anchor_read|].
  unfold parseBlocks, time_Now_Unix. cbn [fst]. splits.
  - intros clk block u H. split.
    + apply hasAnchor_found. intros E.
      destruct (firstAttr_Some _ _ _ _ H) as (_ & _ & l & r & Ea).
      unfold anchorAttrs in Ea. rewrite E in Ea. destruct l; discriminate Ea.
    + destruct (parseBlock_href (reading clk (reads clk)) block u H)
        as (job & Hp & Hu).
      exists job. cbn [parseLoop]. rewrite Hp. split; [reflexivity | exact Hu].
  - intros clk block a1 u a2 Ea Hi Hu Fu.
    assert (H : firstAttr "HREF" (notByte dquote) (anchorAttrs block) = Some u).
    { rewrite Ea. apply firstAttr_at; [reflexivity | exact Hi | exact Hu | exact Fu]. }
    destruct (parseBlock_href (reading clk (reads clk)) block u H)
      as (job & Hp & Hj).
    exists job. cbn [parseLoop]. rewrite Hp. split; [reflexivity | exact Hj].
  - intros clk ws a1 u a2 t post OK.
    destruct (parseBlock_dialect (reading clk (reads clk)) ws a1 u a2 t post OK)
      as (job & _ & _ & Hp & _ & Hu & _).
    exists job. cbn [parseLoop]. rewrite Hp. split; [reflexivity | exact Hu].
  - intros clk block rest H. cbn [parseLoop].
    destruct H as [H | [H | [H | H]]].
    + rewrite parseBlock_no_anchor; [reflexivity|].
      destruct (FindStringSubmatch reAnchor (TrimSpace block)) eqn:E;
        [reflexivity|].
      exfalso. apply H. apply hasAnchor_found. rewrite E. discriminate.
    + rewrite (parseBlock_no_anchor _ _ H). reflexivity.
    + rewrite parseBlock_no_href; [reflexivity|].
      apply firstAttr_absent. exact H.
    + rewrite (parseBlock_no_href _ _ H). reflexivity.
  - intros clk blocks. apply parseLoop_length.
Qed.

Lemma one_candidate_per_addressed_block_witness :
  (firstAttr "HREF" (notByte dquote) (anchorAttrs lowerBlock)
   = Some (b "https://example.com") /\
   hasAnchor (TrimSpace lowerBlock) /\
   exists job,
     fst (parseBlocks [lowerBlock] (mkClock 0 (fun _ => 5))) = [job] /\
     URI job = b "https://example.com") /\
  (exists job,
      fst (parseBlocks
             [dialectBlock (b " ") [] (b "https://example.com")
                           (b " ADD_DATE=" ++ [dquote] ++ b "1000" ++ [dquote])
                           (b "Example") (b "<DD>a note")]
             (mkClock 0 (fun _ => 5))) = [job] /\
      URI job = b "https://example.com").
Proof.
  split.
  - split; [vm_compute; reflexivity|].
    apply (proj1 (proj2 (proj2 one_candidate_per_addressed_block))).
    vm_compute. reflexivity.
  - apply (proj1 (proj2 (proj2 (proj2 (proj2
             one_candidate_per_addressed_block))))).
    unfold dialectOK. cbv zeta.
    repeat split; try discriminate; try reflexivity; repeat constructor.
Defined.
